(** * rpn: a shallow embedding of the calculator's classifier and evaluator

    The program is a single Go file, [main.go].  Its evaluator [Eval]
    walks a slice of cells ([[]Var]) with a cursor and rewrites the slice in
    place; cells point to [*big.Float] objects, some of them shared (the
    globals [Zero] and [One], copies made by [dup], values bound to
    variables).  The embedding therefore keeps an explicit store: a heap
    of floats, a heap of backing arrays, and slices as (array, offset,
    length, capacity) headers, with Go's rules for indexing, slicing and
    [append] written out.  Run-time panics, [log.Fatal] and the deferred
    [recover] of [Eval] are outcomes of a small state-and-error monad. *)

From Stdlib Require Import ZArith Lia Bool String Ascii.
From Stdlib.Strings Require Import Byte.
From stdpp Require Import base option list gmap strings.

Local Open Scope string_scope.
Local Open Scope list_scope.
Local Open Scope Z_scope.

(** ** math/big.Float at precision 53

    Every [big.Float] of the program is made by [big.NewFloat], which
    fixes the precision at 53 bits and the rounding mode at
    round-to-nearest-even; receivers of [Add], [Sub], [Mul], [Quo] and
    [SetInt] keep that precision and round to it.  A finite non-zero value
    is [(-1)^neg * m * 2^e]; the representation is not normalised, and
    values are compared through [Cmp] and [int_value], never structurally. *)
Module BigFloat.

Inductive Float : Type :=
| FZero (neg : bool)
| FInf (neg : bool)
| FFin (neg : bool) (m : positive) (e : Z).

Definition prec : Z := 53.
Definition MaxExp : Z := 2147483647.
Definition MinExp : Z := -2147483648.

(** Number of bits of a positive mantissa. *)
Definition bitlen (m : positive) : Z := Z.log2 (Zpos m) + 1.

Definition mkFin (neg : bool) (z : Z) (e : Z) : Float :=
  match z with
  | Zpos p => FFin neg p e
  | _ => FZero neg
  end.

(** [setExpAndRound] followed by [round]: the exponent of the value
    written [0.mant * 2^exp] is checked against the [int32] range, then the
    mantissa is cut to [prec] bits, ties going to the even mantissa. *)
Definition round (neg : bool) (m : positive) (e : Z) : Float :=
  let n := bitlen m in
  let exp := e + n in
  if exp <? MinExp then FZero neg
  else if MaxExp <? exp then FInf neg
  else if n <=? prec then FFin neg m e
  else
    let sh := n - prec in
    let q := Z.shiftr (Zpos m) sh in
    let r := Z.land (Zpos m) (Z.ones sh) in
    let half := Z.shiftl 1 (sh - 1) in
    if (half <? r) || ((r =? half) && Z.odd q) then
      if (q + 1 =? 2 ^ prec) && (MaxExp <=? exp) then FInf neg
      else mkFin neg (q + 1) (e + sh)
    else mkFin neg q (e + sh).

(** Rounding of an exact result [z * 2^e] with [0 <= z]; a cancelled
    mantissa gives [+0] whatever the sign computed so far. *)
Definition roundZ (neg : bool) (z : Z) (e : Z) : Float :=
  match z with
  | Zpos p => round neg p e
  | _ => FZero false
  end.

Definition ucmp (mx : positive) (ex : Z) (my : positive) (ey : Z) : comparison :=
  let e := Z.min ex ey in
  Z.compare (Zpos mx * 2 ^ (ex - e)) (Zpos my * 2 ^ (ey - e)).

Definition uadd (neg : bool) (mx : positive) (ex : Z) (my : positive) (ey : Z) : Float :=
  let e := Z.min ex ey in
  roundZ neg (Zpos mx * 2 ^ (ex - e) + Zpos my * 2 ^ (ey - e)) e.

Definition usub (neg : bool) (mx : positive) (ex : Z) (my : positive) (ey : Z) : Float :=
  let e := Z.min ex ey in
  roundZ neg (Zpos mx * 2 ^ (ex - e) - Zpos my * 2 ^ (ey - e)) e.

Definition umul (neg : bool) (mx : positive) (ex : Z) (my : positive) (ey : Z) : Float :=
  roundZ neg (Zpos mx * Zpos my) (ex + ey).

(** [uquo] divides with guard bits and folds a non-zero remainder into a
    sticky bit, so that the quotient is rounded correctly. *)
Definition uquo (neg : bool) (mx : positive) (ex : Z) (my : positive) (ey : Z) : Float :=
  let k := prec + 2 + bitlen my in
  let num := Zpos mx * 2 ^ k in
  let q := num / Zpos my in
  let s := if num mod Zpos my =? 0 then 0 else 1 in
  roundZ neg (2 * q + s) (ex - ey - k - 1).

Definition Neg (x : Float) : Float :=
  match x with
  | FZero n => FZero (negb n)
  | FInf n => FInf (negb n)
  | FFin n m e => FFin (negb n) m e
  end.

(** The arithmetic methods return [None] where the library panics with
    [ErrNaN]. *)
Definition Add (x y : Float) : option Float :=
  match x, y with
  | FFin nx mx ex, FFin ny my ey =>
      if eqb nx ny then Some (uadd nx mx ex my ey)
      else match ucmp mx ex my ey with
           | Gt => Some (usub nx mx ex my ey)
           | _ => Some (usub (negb nx) my ey mx ex)
           end
  | FInf nx, FInf ny => if eqb nx ny then Some x else None
  | FZero nx, FZero ny => Some (FZero (nx && ny))
  | FInf _, _ => Some x
  | _, FZero _ => Some x
  | _, _ => Some y
  end.

Definition Sub (x y : Float) : option Float :=
  match x, y with
  | FFin nx mx ex, FFin ny my ey =>
      if negb (eqb nx ny) then Some (uadd nx mx ex my ey)
      else match ucmp mx ex my ey with
           | Gt => Some (usub nx mx ex my ey)
           | _ => Some (usub (negb nx) my ey mx ex)
           end
  | FInf nx, FInf ny => if eqb nx ny then None else Some x
  | FZero nx, FZero ny => Some (FZero (nx && negb ny))
  | FInf _, _ => Some x
  | _, FZero _ => Some x
  | _, _ => Some (Neg y)
  end.

Definition Mul (x y : Float) : option Float :=
  match x, y with
  | FFin nx mx ex, FFin ny my ey => Some (umul (xorb nx ny) mx ex my ey)
  | FZero _, FInf _ => None
  | FInf _, FZero _ => None
  | FInf nx, FInf ny => Some (FInf (xorb nx ny))
  | FInf nx, FFin ny _ _ => Some (FInf (xorb nx ny))
  | FFin nx _ _, FInf ny => Some (FInf (xorb nx ny))
  | FZero nx, FZero ny => Some (FZero (xorb nx ny))
  | FZero nx, FFin ny _ _ => Some (FZero (xorb nx ny))
  | FFin nx _ _, FZero ny => Some (FZero (xorb nx ny))
  end.

Definition Quo (x y : Float) : option Float :=
  match x, y with
  | FFin nx mx ex, FFin ny my ey => Some (uquo (xorb nx ny) mx ex my ey)
  | FZero _, FZero _ => None
  | FInf _, FInf _ => None
  | FZero nx, FFin ny _ _ => Some (FZero (xorb nx ny))
  | FZero nx, FInf ny => Some (FZero (xorb nx ny))
  | FFin nx _ _, FInf ny => Some (FZero (xorb nx ny))
  | FFin nx _ _, FZero ny => Some (FInf (xorb nx ny))
  | FInf nx, FFin ny _ _ => Some (FInf (xorb nx ny))
  | FInf nx, FZero ny => Some (FInf (xorb nx ny))
  end.

(** [ord]: -2 for -Inf, -1 for negative, 0 for a zero, 1 for positive,
    2 for +Inf. *)
Definition ord (x : Float) : Z :=
  match x with
  | FZero _ => 0
  | FInf n => if n then -2 else 2
  | FFin n _ _ => if n then -1 else 1
  end.

Definition cmp_int (c : comparison) : Z :=
  match c with Lt => -1 | Eq => 0 | Gt => 1 end.

(** [x.Cmp(y)]: -1 when [x < y], 0 when equal, 1 when [x > y]. *)
Definition Cmp (x y : Float) : Z :=
  let mx := ord x in
  let my := ord y in
  if mx <? my then -1
  else if my <? mx then 1
  else match x, y with
       | FFin true ax ex, FFin _ ay ey => cmp_int (ucmp ay ey ax ex)
       | FFin false ax ex, FFin _ ay ey => cmp_int (ucmp ax ex ay ey)
       | _, _ => 0
       end.

(** Truncation of a finite value towards zero. *)
Definition trunc (x : Float) : option Z :=
  match x with
  | FZero _ => Some 0
  | FInf _ => None
  | FFin n m e =>
      let a := if 0 <=? e then Zpos m * 2 ^ e else Zpos m / 2 ^ (- e) in
      Some (if n then - a else a)
  end.

(** [x.Int(nil)]: the truncated value, or a nil [*big.Int] for an
    infinity. *)
Definition Int (x : Float) : option Z := trunc x.

Definition MaxInt64 : Z := 9223372036854775807.
Definition MinInt64 : Z := -9223372036854775808.
Definition MaxUint64 : Z := 18446744073709551615.

(** [x.Int64()] and [x.Uint64()] truncate and saturate. *)
Definition Int64 (x : Float) : Z :=
  match x with
  | FInf n => if n then MinInt64 else MaxInt64
  | _ => match trunc x with
         | Some z => Z.max MinInt64 (Z.min MaxInt64 z)
         | None => 0
         end
  end.

Definition Uint64 (x : Float) : Z :=
  match x with
  | FInf n => if n then 0 else MaxUint64
  | _ => match trunc x with
         | Some z => Z.max 0 (Z.min MaxUint64 z)
         | None => 0
         end
  end.

(** [z.SetInt(x)] on a receiver of precision 53, and
    [big.NewFloat(float64(i))] for an [int]: the integer rounded to 53
    bits. *)
Definition SetInt (z : Z) : Float :=
  match z with
  | Z0 => FZero false
  | Zpos p => round false p 0
  | Zneg p => round true p 0
  end.

(** The exact integer a float stands for, when it stands for one. *)
Definition int_value (x : Float) : option Z :=
  match x with
  | FZero _ => Some 0
  | FInf _ => None
  | FFin n m e =>
      if 0 <=? e then Some (if n then - (Zpos m * 2 ^ e) else Zpos m * 2 ^ e)
      else if Zpos m mod 2 ^ (- e) =? 0
           then Some (if n then - (Zpos m / 2 ^ (- e)) else Zpos m / 2 ^ (- e))
           else None
  end.

(** An integer as the float that holds it exactly (for [|z| < 2^53]). *)
Definition ofZ (z : Z) : Float := mkFin (z <? 0) (Z.abs z) 0.

End BigFloat.
Export BigFloat.

(** ** Exact integer values

    Used to state when an operation of [BigFloat] is exact. *)

(** [repr M E z]: the integer [z] is [M * 2^E]. *)
Definition repr (M E z : Z) : Prop :=
  ∃ K, 0 <= K ∧ 0 <= E + K ∧ M * 2 ^ (E + K) = z * 2 ^ K.

Definition signed (neg : bool) (z : Z) : Z := if neg then - z else z.


(** ** The value model

    [Var] is the cell of the stack.  [F] is a [*big.Float]: an address in
    the float heap or nil.  [Code] is a [[]Var]: a slice header into the
    heap of backing arrays, so that a macro body captured with
    [stack[i+2:]] keeps aliasing the stack's array, as in the source. *)
Inductive VarType : Type := TNumber | TVariable | TString | TAssignment | TCode.

Record slice : Type := Slice { arr : nat; off : nat; len : nat; cap : nat }.

(** The nil slice; with capacity 0 its array is never touched. *)
Definition nil_slice : slice := Slice 0 0 0 0.

Record Var : Type := mkVar {
  Typ : VarType;
  V : string;
  F : option nat;
  B : list byte;
  Code : slice
}.

(** The zero value [Var{}]: type [Number] (the first constant of the
    [iota] block), empty name, nil float. *)
Definition zeroVar : Var := mkVar TNumber "" None [] nil_slice.

Definition with_Typ (t : VarType) (v : Var) : Var := mkVar t (V v) (F v) (B v) (Code v).
Definition with_V (s : string) (v : Var) : Var := mkVar (Typ v) s (F v) (B v) (Code v).
Definition with_F (p : option nat) (v : Var) : Var := mkVar (Typ v) (V v) p (B v) (Code v).
Definition with_B (b : list byte) (v : Var) : Var := mkVar (Typ v) (V v) (F v) b (Code v).
Definition with_Code (c : slice) (v : Var) : Var := mkVar (Typ v) (V v) (F v) (B v) c.

(** Addresses of the package-level floats [Zero] and [One]. *)
Definition Zero : nat := 0%nat.
Definition One : nat := 1%nat.

(** The table [keyWords] as the source initialises it. *)
Definition keyWords0 : gmap string string :=
  list_to_map
    [("+", "x"); ("-", "x"); ("*", "x"); ("/", "x"); ("cla", "x"); ("clr", "x");
     ("clv", "x"); ("!", "x"); ("%", "x"); ("++", "x"); ("--", "x");
     ("&", "x"); ("|", "x"); ("^", "x"); ("~", "x"); ("<<", "x"); (">>", "x");
     ("&&", "x"); ("||", "x"); ("^^", "x");
     ("!=", "x"); ("<", "x"); ("<=", "x"); ("==", "x"); (">", "x"); (">=", "x");
     ("acos", "x"); ("asin", "x"); ("atan", "x"); ("cos", "x"); ("cosh", "x");
     ("sin", "x"); ("sinh", "x"); ("tanh", "x");
     ("ceil", "x"); ("floor", "x"); ("round", "x"); ("ip", "x"); ("fp", "x");
     ("sign", "x"); ("abs", "x"); ("max", "x"); ("min", "x");
     ("hex", "x"); ("dec", "x"); ("bin", "x"); ("oct", "x");
     ("e", "c"); ("pi", "c"); ("rand", "c");
     ("exp", "x"); ("fact", "x"); ("sqrt", "x"); ("ln", "x"); ("log", "x"); ("pow", "x");
     ("hnl", "x"); ("hns", "x"); ("nhl", "x"); ("nhs", "x");
     ("pick", "x"); ("repeat", "x"); ("depth", "x"); ("drop", "x"); ("dropn", "x");
     ("dup", "x"); ("dupn", "x"); ("roll", "x"); ("rolld", "x"); ("stack", "x");
     ("swap", "x");
     ("macro", "m"); ("=", "a");
     ("help", "x"); ("exit", "x"); ("debug", "x")].

(** What the program writes.  Only the messages that do not depend on the
    debug flag are recorded, without their final newline; the message of
    the deferred closure is kept without the cell and the panic value it
    prints, and the usage text of [help] as one message.  The debug traces
    are modelled by the stack accesses their arguments make, which can
    fault like any other. *)
Inductive Event : Type :=
| Stderr (msg : string)
| Stdout (msg : string).

(** ** The store

    Package-level variables ([keyWords], [debug], [Mode], [Vertical],
    [Exit]), the two heaps, the output so far (newest first), and the three
    variables of [Eval] that its deferred closures also see: the slice
    [stack], the map [vars] ([None] is the nil map) and the loop variable
    [i], here [cursor]. *)
Record State : Type := mkState {
  floats : list Float;
  arrays : list (list Var);
  keyWords : gmap string string;
  debug : bool;
  Mode : string;
  Vertical : bool;
  Exit : bool;
  rnd : nat;
  out : list Event;
  stack : slice;
  vars : option (gmap string Var);
  cursor : Z
}.

Definition set_floats (x : list Float) (s : State) : State :=
  mkState x (arrays s) (keyWords s) (debug s) (Mode s) (Vertical s) (Exit s)
          (rnd s) (out s) (stack s) (vars s) (cursor s).
Definition set_arrays (x : list (list Var)) (s : State) : State :=
  mkState (floats s) x (keyWords s) (debug s) (Mode s) (Vertical s) (Exit s)
          (rnd s) (out s) (stack s) (vars s) (cursor s).
Definition set_keyWords (x : gmap string string) (s : State) : State :=
  mkState (floats s) (arrays s) x (debug s) (Mode s) (Vertical s) (Exit s)
          (rnd s) (out s) (stack s) (vars s) (cursor s).
Definition set_debug (x : bool) (s : State) : State :=
  mkState (floats s) (arrays s) (keyWords s) x (Mode s) (Vertical s) (Exit s)
          (rnd s) (out s) (stack s) (vars s) (cursor s).
Definition set_Mode (x : string) (s : State) : State :=
  mkState (floats s) (arrays s) (keyWords s) (debug s) x (Vertical s) (Exit s)
          (rnd s) (out s) (stack s) (vars s) (cursor s).
Definition set_Vertical (x : bool) (s : State) : State :=
  mkState (floats s) (arrays s) (keyWords s) (debug s) (Mode s) x (Exit s)
          (rnd s) (out s) (stack s) (vars s) (cursor s).
Definition set_Exit (x : bool) (s : State) : State :=
  mkState (floats s) (arrays s) (keyWords s) (debug s) (Mode s) (Vertical s) x
          (rnd s) (out s) (stack s) (vars s) (cursor s).
Definition set_rnd (x : nat) (s : State) : State :=
  mkState (floats s) (arrays s) (keyWords s) (debug s) (Mode s) (Vertical s) (Exit s)
          x (out s) (stack s) (vars s) (cursor s).
Definition set_out (x : list Event) (s : State) : State :=
  mkState (floats s) (arrays s) (keyWords s) (debug s) (Mode s) (Vertical s) (Exit s)
          (rnd s) x (stack s) (vars s) (cursor s).
Definition set_stack (x : slice) (s : State) : State :=
  mkState (floats s) (arrays s) (keyWords s) (debug s) (Mode s) (Vertical s) (Exit s)
          (rnd s) (out s) x (vars s) (cursor s).
Definition set_vars (x : option (gmap string Var)) (s : State) : State :=
  mkState (floats s) (arrays s) (keyWords s) (debug s) (Mode s) (Vertical s) (Exit s)
          (rnd s) (out s) (stack s) x (cursor s).
Definition set_cursor (x : Z) (s : State) : State :=
  mkState (floats s) (arrays s) (keyWords s) (debug s) (Mode s) (Vertical s) (Exit s)
          (rnd s) (out s) (stack s) (vars s) x.

(** The state of a fresh process, before [main] reads a line. *)
Definition init_state : State :=
  mkState [FZero false; ofZ 1] [] keyWords0 false "dec" false false 0%nat []
          nil_slice (Some ∅) 0.

(** ** Outcomes and the monad

    A computation ends with a value, with a run-time panic that unwinds to
    the nearest [recover], with [log.Fatal] (the process exits, deferred
    calls do not run), or out of fuel.  The state at the point of a panic
    is kept: the deferred closure of [Eval] reads [stack] and [i] there. *)
Inductive Res (A : Type) : Type :=
| Ok (a : A)
| Panic (msg : string)
| Fatal
| OutOfFuel.
Arguments Ok {A} a.
Arguments Panic {A} msg.
Arguments Fatal {A}.
Arguments OutOfFuel {A}.

Definition M (A : Type) : Type := State → Res A * State.

#[export] Instance M_ret : MRet M := λ A a st, (Ok a, st).
#[export] Instance M_bind : MBind M := λ A B f m st,
  match m st with
  | (Ok a, st') => f a st'
  | (Panic msg, st') => (Panic msg, st')
  | (Fatal, st') => (Fatal, st')
  | (OutOfFuel, st') => (OutOfFuel, st')
  end.

Definition get : M State := λ st, (Ok st, st).
Definition gets {A} (f : State → A) : M A := λ st, (Ok (f st), st).
Definition modify (f : State → State) : M unit := λ st, (Ok tt, f st).
Definition panic {A} (msg : string) : M A := λ st, (Panic msg, st).
Definition fatal {A} : M A := λ st, (Fatal, st).
Definition outOfFuel {A} : M A := λ st, (OutOfFuel, st).
Definition emit (e : Event) : M unit := modify (λ st, set_out (e :: out st) st).

(** A debug trace: its arguments are evaluated only when [debug] is set. *)
Definition dbg {A} (m : M A) : M unit :=
  d ← gets debug; if d : bool then (m ;; mret tt) else mret tt.

(** [for j := 0; j < n; j++ { body }] for a count known before the loop. *)
Fixpoint count_from (j : Z) (n : nat) (body : Z → M unit) : M unit :=
  match n with
  | O => mret tt
  | S n' => body j ;; count_from (j + 1) n' body
  end.
Definition for_upto (n : Z) (body : Z → M unit) : M unit :=
  count_from 0 (Z.to_nat n) body.

(** ** What the program takes from the Go runtime and libraries

    These functions are not code of the repository.  [growslice] is the
    capacity the runtime picks when [append] has to reallocate (the model
    never takes less than what is needed).  [Sscanf_f s] and [Sscanf_i s]
    say whether [fmt.Sscanf(s, "%f", &float32)] and
    [fmt.Sscanf(s, "%i", &int)] return a nil error.  [Float_Parse s base]
    is [big.NewFloat(0).Parse(s, base)], [None] on error.  [math1 name x]
    is [big.NewFloat(math.F(x.Float64()))] for the one-argument function
    the operator [name] calls, [None] where the result is a NaN and
    [NewFloat] panics; [math_Pow] likewise.  [rand_Float64 k] is the value
    of the k-th call of [rand.Float64]. *)
Class Runtime : Type := {
  growslice : nat → nat → nat;
  Sscanf_f : string → bool;
  Sscanf_i : string → bool;
  Float_Parse : string → Z → option Float;
  math1 : string → Float → option Float;
  math_Pow : Float → Float → option Float;
  math_E : Float;
  math_Pi : Float;
  rand_Float64 : nat → Float
}.

(** ** Slices and pointers *)

Definition okb (lo k hi : Z) : bool := (lo <=? k) && (k <? hi).

(** The elements of a slice, read from its backing array. *)
Definition elems (st : State) (s : slice) : list Var :=
  take (len s) (drop (off s) (default [] (arrays st !! arr s))).

(** [s[k]] *)
Definition readAt (s : slice) (k : Z) : M Var :=
  if okb 0 k (Z.of_nat (len s)) then
    st ← get;
    match elems st s !! Z.to_nat k with
    | Some v => mret v
    | None => panic "invalid memory"
    end
  else panic "index out of range".

(** [s[k] = v] and [s[k].field = x] *)
Definition updAt (s : slice) (k : Z) (f : Var → Var) : M unit :=
  v ← readAt s k;
  modify (λ st, set_arrays
    (alter (λ a, <[(off s + Z.to_nat k)%nat := f v]> a) (arr s) (arrays st)) st).
Definition writeAt (s : slice) (k : Z) (v : Var) : M unit := updAt s k (λ _, v).

(** [s[lo:hi]]: the bounds are checked against the capacity. *)
Definition sub (s : slice) (lo hi : Z) : M slice :=
  if (0 <=? lo) && (lo <=? hi) && (hi <=? Z.of_nat (cap s)) then
    mret (Slice (arr s) (off s + Z.to_nat lo) (Z.to_nat (hi - lo)) (cap s - Z.to_nat lo))
  else panic "slice bounds out of range".

(** [s[lo:]] and [s[:hi]] *)
Definition from (s : slice) (lo : Z) : M slice := sub s lo (Z.of_nat (len s)).
Definition upto (s : slice) (hi : Z) : M slice := sub s 0 hi.

(** [make([]Var, n)] *)
Definition make (n : Z) : M slice :=
  if n <? 0 then panic "makeslice: len out of range"
  else
    st ← get;
    modify (set_arrays (arrays st ++ [replicate (Z.to_nat n) zeroVar])) ;;
    mret (Slice (length (arrays st)) 0 (Z.to_nat n) (Z.to_nat n)).

(** [holds st s l]: the slice [s] is well formed in the store and its
    elements are the cells [l]. *)
Definition holds (st : State) (s : slice) (l : list Var) : Prop :=
  elems st s = l ∧ length l = len s ∧ (len s ≤ cap s)%nat.

(** The float a cell points to. *)
Definition float_of (st : State) (v : Var) : option Float :=
  F v ≫= (floats st !!.).

(** ** Stores reached by the statements of [Eval]

    Named so that the facts below can say which store a statement leaves. *)

(** The store after [s[n] = x]. *)
Definition poke (s : slice) (n : nat) (x : Var) (st : State) : State :=
  set_arrays (alter (λ a, <[(off s + n)%nat := x]> a) (arr s) (arrays st)) st.

(** The store after [append] wrote the cells [k] into the array of [s]
    from position [p] of the slice. *)
Definition spliced (s : slice) (p : nat) (k : list Var) (st : State) : State :=
  set_arrays (alter (list_inserts (off s + p) k) (arr s) (arrays st)) st.

(** The store after the statement [stack[i].F = big.NewFloat(0)] that
    opens the case of a keyword. *)
Definition opened (st : State) (n : nat) (c : Var) : State :=
  poke (stack st) n (with_F (Some (length (floats st))) c)
       (set_floats (floats st ++ [FZero false]) st).

(** The store after [stack = remove(stack, pos, n)]. *)
Definition removed (st : State) (l : list Var) (p q : nat) : State :=
  set_stack (Slice (arr (stack st)) (off (stack st)) (p + (len (stack st) - q)) (cap (stack st)))
            (spliced (stack st) p (drop q l) st).

(** The method of [big.Float] behind each arithmetic operator. *)
Definition arith_op (name : string) : option (Float → Float → option Float) :=
  if String.eqb name "+" then Some Add
  else if String.eqb name "-" then Some Sub
  else if String.eqb name "*" then Some Mul
  else if String.eqb name "/" then Some Quo
  else None.

(** The integer an arithmetic operator is expected to produce. *)
Definition exact_result (name : string) (x y z : Z) : Prop :=
  (name = "+" ∧ z = x + y) ∨ (name = "-" ∧ z = x - y)
  ∨ (name = "*" ∧ z = x * y) ∨ (name = "/" ∧ y ≠ 0 ∧ x = z * y).

(** The float a comparison assigns for a result of [Cmp]. *)
Definition picked (on_neg on_pos on_zero : nat) (c : Z) : nat :=
  if c =? -1 then on_neg else if c =? 1 then on_pos else on_zero.

Section Program.
Context {R : Runtime}.

(** [append(d, xs...)]: within the capacity of [d] the elements are
    written into its array after its last element, whatever lives there;
    beyond it a new array receives the elements of [d] and [xs]. *)
Definition appendList (d : slice) (xs : list Var) : M slice :=
  let n := (len d + length xs)%nat in
  if (n <=? cap d)%nat then
    modify (λ st, set_arrays
      (alter (list_inserts (off d + len d) xs) (arr d) (arrays st)) st) ;;
    mret (Slice (arr d) (off d) n (cap d))
  else
    st ← get;
    let c := Nat.max n (growslice (cap d) n) in
    modify (set_arrays (arrays st ++ [elems st d ++ xs ++ replicate (c - n) zeroVar])) ;;
    mret (Slice (length (arrays st)) 0 n c).

(** [append(d, s...)]: the elements of [s] are read before any is
    written, so an overlap of source and destination copies correctly. *)
Definition append (d s : slice) : M slice :=
  st ← get; appendList d (elems st s).

(** [remove] of the source:
    [return append(stack[:pos-removeN], stack[pos:]...)].  Index
    arithmetic on [int] is done in [Z]: a difference that would wrap
    around in 64 bits is out of range before and after wrapping, for any
    slice shorter than [2^63]. *)
Definition remove (s : slice) (pos removeN : Z) : M slice :=
  a ← upto s (pos - removeN);
  b ← from s pos;
  append a b.

(** [new(big.Float)] set to a value, reads and writes through a
    [*big.Float]. *)
Definition NewFloat (v : Float) : M (option nat) :=
  st ← get;
  modify (set_floats (floats st ++ [v])) ;;
  mret (Some (length (floats st))).

Definition loadF (p : option nat) : M Float :=
  match p with
  | None => panic "nil pointer dereference"
  | Some l =>
      st ← get;
      match floats st !! l with
      | Some v => mret v
      | None => panic "invalid memory"
      end
  end.

Definition storeF (p : option nat) (v : Float) : M unit :=
  match p with
  | None => panic "nil pointer dereference"
  | Some l => modify (λ st, set_floats (<[l := v]> (floats st)) st)
  end.

(** [z.Op(x, y)] for [Add], [Sub], [Mul], [Quo]: the receiver is
    overwritten; where the library panics it first sets it to zero. *)
Definition Float_op (op : Float → Float → option Float) (z x y : option nat) : M unit :=
  _ ← loadF z;
  a ← loadF x;
  b ← loadF y;
  match op a b with
  | Some r => storeF z r
  | None => storeF z (FZero false) ;; panic "ErrNaN"
  end.

(** [z.Neg(x)] *)
Definition Float_Neg (z x : option nat) : M unit :=
  a ← loadF x; _ ← loadF z; storeF z (Neg a).

(** [x.Int(nil)] then a method of [*big.Int] on the result: a nil result
    (for an infinity) is dereferenced there. *)
Definition Float_Int (x : option nat) : M Z :=
  a ← loadF x;
  match Int a with
  | Some z => mret z
  | None => panic "nil pointer dereference"
  end.

Definition Float_Int64 (x : option nat) : M Z := a ← loadF x; mret (Int64 a).
Definition Float_Uint64 (x : option nat) : M Z := a ← loadF x; mret (Uint64 a).

(** [z.SetInt(v)] *)
Definition Float_SetInt (z : option nat) (v : Z) : M unit :=
  _ ← loadF z; storeF z (SetInt v).

(** ** Accessors for the variables of [Eval] *)

Definition idx (k : Z) : M Var := s ← gets stack; readAt s k.
Definition setIdx (k : Z) (v : Var) : M unit := s ← gets stack; writeAt s k v.
Definition updIdx (k : Z) (f : Var → Var) : M unit := s ← gets stack; updAt s k f.
Definition setStack (s : slice) : M unit := modify (set_stack s).
Definition setCursor (k : Z) : M unit := modify (set_cursor k).
Definition lenStack : M Z := s ← gets stack; mret (Z.of_nat (len s)).

(** [vars[k]] with the comma-ok form: reading a nil map gives the zero
    value; [vars[k] = v] on a nil map panics. *)
Definition varsGet (k : string) : M (Var * bool) :=
  m ← gets vars;
  match m ≫= (.!! k) with
  | Some v => mret (v, true)
  | None => mret (zeroVar, false)
  end.

Definition varsSet (k : string) (v : Var) : M unit :=
  m ← gets vars;
  match m with
  | Some m' => modify (set_vars (Some (<[k := v]> m')))
  | None => panic "assignment to entry in nil map"
  end.

Definition isKeyword (s : string) : M bool :=
  kw ← gets keyWords; mret (bool_decide (is_Some (kw !! s))).

(** ** The classifier: [getBase] and [Parse] *)

(** [getBase]: -1 for the empty string; a base taken from the second
    byte when the first byte equals 0 and the string has more than three
    bytes; otherwise 0 when both scans fail and 10 when one succeeds.
    The comparison [s[0] == 0] is against the byte of value zero. *)
Definition getBase (s : string) : Z :=
  match s with
  | EmptyString => -1
  | String c0 rest =>
      let prefixed : option Z :=
        if Ascii.eqb c0 Ascii.zero && (3 <? Z.of_nat (String.length s)) then
          match rest with
          | String c1 _ =>
              if Ascii.eqb c1 "x" then Some 16
              else if Ascii.eqb c1 "d" then Some 10
              else if Ascii.eqb c1 "o" then Some 8
              else if Ascii.eqb c1 "b" then Some 2
              else None
          | EmptyString => None
          end
        else None in
      match prefixed with
      | Some b => b
      | None => if negb (Sscanf_f s) && negb (Sscanf_i s) then 0 else 10
      end
  end.

(** [s[:len(s)-1]] *)
Definition butlast (s : string) : string :=
  String.substring 0 (String.length s - 1) s.

(** One round of the loop of [Parse]: the cells and bindings a lexeme
    adds.  The slice and the map that [Parse] builds are its own until it
    returns, so they are kept as a list and a map. *)
Definition parseLexeme (lx : string) (acc : list Var * gmap string Var)
  : M (list Var * gmap string Var) :=
  let '(stk, vs) := acc in
  let base := getBase lx in
  if base =? 0 then
    if String.eqb (butlast lx) "=" then
      mret ((stk ++ [mkVar TAssignment (butlast lx) (Some Zero) [] nil_slice]),
            <[butlast lx := mkVar TCode "=" (Some Zero) [] nil_slice]> vs)
    else
      kw ← isKeyword lx;
      if kw : bool then
        mret ((stk ++ [mkVar TCode lx (Some Zero) [] nil_slice]), vs)
      else
        mret ((stk ++ [mkVar TVariable lx (Some Zero) [] nil_slice]), vs)
  else
    f ← NewFloat (FZero false);
    match Float_Parse lx base with
    | Some v =>
        storeF f v ;;
        mret ((stk ++ [mkVar TNumber "" f [] nil_slice]), vs)
    | None => mret (stk, vs)
    end.

Fixpoint parseLoop (lex : list string) (acc : list Var * gmap string Var)
  : M (list Var * gmap string Var) :=
  match lex with
  | [] => mret acc
  | lx :: rest => acc' ← parseLexeme lx acc; parseLoop rest acc'
  end.

Definition Parse (lex : list string) : M (list Var * gmap string Var) :=
  parseLoop lex ([], ∅).

(** ** The evaluator: the cases of [Eval]

    Each operator is written statement by statement after its [case].
    [i] is read once at the start of a case, as no statement of a case
    uses [i] after changing it. *)

(** [stack = remove(stack, pos, n)] *)
Definition removeStack (pos n : Z) : M unit :=
  s ← gets stack; s' ← remove s pos n; setStack s'.

(** [+ - * /]: [stack[i].F.Op(stack[i-2].F, stack[i-1].F)] *)
Definition arith (op : Float → Float → option Float) : M unit :=
  i ← gets cursor;
  dbg (idx (i - 2) ;; idx (i - 1)) ;;
  z ← idx i; x ← idx (i - 2); y ← idx (i - 1);
  Float_op op (F z) (F x) (F y) ;;
  updIdx i (with_Typ TNumber) ;;
  removeStack i 2 ;;
  setCursor (i - 2).

(** [% & | ^]: both operands through [Int(nil)], the result through
    [SetInt]; [f] is [None] where [big.Int] panics. *)
Definition intop (f : Z → Z → option Z) : M unit :=
  i ← gets cursor;
  dbg (idx (i - 2) ;; idx (i - 1)) ;;
  x ← idx (i - 2); a ← Float_Int (F x);
  y ← idx (i - 1); b ← Float_Int (F y);
  z ← idx i;
  match f a b with
  | Some r => Float_SetInt (F z) r
  | None => panic "division by zero"
  end ;;
  updIdx i (with_Typ TNumber) ;;
  removeStack i 2 ;;
  setCursor (i - 2).

(** [<< >>]: the shift count through [Uint64()] *)
Definition shiftop (f : Z → Z → Z) : M unit :=
  i ← gets cursor;
  dbg (idx (i - 2) ;; idx (i - 1)) ;;
  x ← idx (i - 2); a ← Float_Int (F x);
  y ← idx (i - 1); b ← Float_Uint64 (F y);
  z ← idx i;
  Float_SetInt (F z) (f a b) ;;
  updIdx i (with_Typ TNumber) ;;
  removeStack i 2 ;;
  setCursor (i - 2).

(** The comparisons: [switch stack[i-1].F.Cmp(stack[i-2].F)] with the
    float assigned in [case -1], [case 1] and [case 0]. *)
Definition compare (on_neg on_pos on_zero : nat) : M unit :=
  i ← gets cursor;
  dbg (idx (i - 1) ;; idx (i - 2)) ;;
  x ← idx (i - 1); y ← idx (i - 2);
  a ← loadF (F x); b ← loadF (F y);
  let c := Cmp a b in
  (if c =? -1 then updIdx i (with_F (Some on_neg))
   else if c =? 1 then updIdx i (with_F (Some on_pos))
   else if c =? 0 then updIdx i (with_F (Some on_zero))
   else mret tt) ;;
  updIdx i (with_Typ TNumber) ;;
  removeStack i 2 ;;
  setCursor (i - 2).

(** [&& || ^^]: both operands through [Uint64()] *)
Definition boolop (f : bool → bool → bool) : M unit :=
  i ← gets cursor;
  dbg (idx (i - 1) ;; idx (i - 2)) ;;
  x ← idx (i - 2); a ← Float_Uint64 (F x);
  y ← idx (i - 1); b ← Float_Uint64 (F y);
  updIdx i (with_F (Some (if f (negb (a =? 0)) (negb (b =? 0)) then One else Zero))) ;;
  updIdx i (with_Typ TNumber) ;;
  removeStack i 2 ;;
  setCursor (i - 2).

(** The functions of one argument computed in [float64]. *)
Definition mathop (name : string) : M unit :=
  i ← gets cursor;
  dbg (idx (i - 1)) ;;
  x ← idx (i - 1); a ← loadF (F x);
  match math1 name a with
  | Some r => f ← NewFloat r; updIdx i (with_F f)
  | None => panic "NewFloat(NaN)"
  end ;;
  updIdx i (with_Typ TNumber) ;;
  removeStack i 1 ;;
  setCursor (i - 1).

(** [pow ** exp]: [math.Pow(stack[i-2], stack[i-1])] *)
Definition powop : M unit :=
  i ← gets cursor;
  dbg (idx (i - 1) ;; idx (i - 2)) ;;
  x ← idx (i - 2); a ← loadF (F x);
  y ← idx (i - 1); b ← loadF (F y);
  match math_Pow a b with
  | Some r => f ← NewFloat r; updIdx i (with_F f)
  | None => panic "NewFloat(NaN)"
  end ;;
  updIdx i (with_Typ TNumber) ;;
  removeStack i 2 ;;
  setCursor (i - 2).

(** [hex dec bin oct] *)
Definition modeop (m : string) : M unit :=
  i ← gets cursor;
  modify (set_Mode m) ;;
  removeStack (i + 1) 1 ;;
  setCursor (i - 1).

(** [e pi rand] *)
Definition constop (v : Float) : M unit :=
  i ← gets cursor;
  f ← NewFloat v;
  updIdx i (with_F f) ;;
  updIdx i (with_Typ TNumber).

Definition byte_of_Z (z : Z) : byte :=
  default x00 (Byte.of_N (Z.to_N (z mod 256))).

(** [binary.Write(buf, binary.BigEndian, v)] for an integer of [n]
    bytes. *)
Fixpoint be_bytes (n : nat) (z : Z) : list byte :=
  match n with
  | O => []
  | S n' => byte_of_Z (Z.shiftr z (8 * Z.of_nat n')) :: be_bytes n' z
  end.

(** [hnl hns] *)
Definition hton (width : nat) : M unit :=
  i ← gets cursor;
  dbg (idx (i - 1)) ;;
  x ← idx (i - 1); a ← Float_Int64 (F x);
  x' ← idx (i - 1);
  updIdx i (with_F (F x')) ;;
  updIdx i (with_B (be_bytes width a)) ;;
  updIdx i (with_Typ TString) ;;
  removeStack i 1 ;;
  setCursor (i - 1).

(** [nhl nhs] *)
Definition ntoh : M unit :=
  i ← gets cursor;
  dbg (idx (i - 1)) ;;
  x ← idx (i - 1);
  setIdx i x ;;
  updIdx i (with_Typ TNumber) ;;
  removeStack i 1 ;;
  setCursor (i - 1).

(** [big.NewInt(1).MulRange(1, a)]: the product of [1..a], 1 when the
    range is empty. *)
Definition MulRange1 (a : Z) : Z :=
  fold_right Z.mul 1 (map Z.of_nat (seq 1 (Z.to_nat a))).

Definition op_debug : M unit :=
  i ← gets cursor;
  emit (Stderr "Toggling debug mode") ;;
  modify (λ st, set_debug (negb (debug st)) st) ;;
  s ← gets stack; _ ← remove s (i + 1) 1;
  setCursor (i - 1).

Definition op_cla : M unit :=
  s ← make 0; setStack s ;;
  modify (set_vars (Some ∅)) ;;
  setCursor 0.

Definition op_clr : M unit :=
  s ← make 0; setStack s ;;
  setCursor 0.

Definition op_clv : M unit :=
  modify (set_vars (Some ∅)).

(** [!]: [stack[i-1].F.Neg(stack[i-1].F)] *)
Definition op_not : M unit :=
  i ← gets cursor;
  dbg (idx (i - 1)) ;;
  x ← idx (i - 1);
  Float_Neg (F x) (F x) ;;
  removeStack (i + 1) 1 ;;
  setCursor (i - 1).

(** [++ --]: the operand is changed in place *)
Definition incdec (op : Float → Float → option Float) : M unit :=
  i ← gets cursor;
  dbg (idx (i - 1)) ;;
  x ← idx (i - 1);
  one ← NewFloat (ofZ 1);
  Float_op op (F x) (F x) one ;;
  removeStack (i + 1) 1 ;;
  setCursor (i - 1).

(** [~]: the operand is read at [i-2] *)
Definition op_bitnot : M unit :=
  i ← gets cursor;
  dbg (idx (i - 1)) ;;
  x ← idx (i - 2); a ← Float_Int (F x);
  z ← idx i;
  Float_SetInt (F z) (Z.lnot a) ;;
  updIdx i (with_Typ TNumber) ;;
  removeStack i 1 ;;
  setCursor (i - 1).

Definition op_fact : M unit :=
  i ← gets cursor;
  dbg (idx (i - 1)) ;;
  x ← idx (i - 1); a ← Float_Int64 (F x);
  f ← NewFloat (SetInt (MulRange1 a));
  updIdx i (with_F f) ;;
  updIdx i (with_Typ TNumber) ;;
  removeStack i 1 ;;
  setCursor (i - 1).

Definition op_pick : M unit :=
  i ← gets cursor;
  dbg (idx (i - 1)) ;;
  x ← idx (i - 1); j ← Float_Int64 (F x);
  v ← idx j;
  setIdx i v ;;
  removeStack i 1 ;;
  setCursor (i - 1).

Definition op_repeat : M unit :=
  i ← gets cursor;
  dbg (idx (i - 1) ;; idx (i + 1)) ;;
  x ← idx (i - 1); n ← Float_Int64 (F x);
  tmpS ← make n;
  for_upto n (λ j, v ← idx (i + 1); writeAt tmpS j v) ;;
  s ← gets stack;
  tmpS2 ← from s (i + 2);
  p ← upto s (i - 1);
  s1 ← append p tmpS; setStack s1 ;;
  s2 ← append s1 tmpS2; setStack s2 ;;
  setCursor (i - 2).

(** [depth]: [stack[i].F = big.NewFloat(float64(i))] *)
Definition op_depth : M unit :=
  i ← gets cursor;
  f ← NewFloat (SetInt i);
  updIdx i (with_F f) ;;
  updIdx i (with_Typ TNumber).

Definition op_drop : M unit :=
  i ← gets cursor;
  removeStack (i + 1) 2 ;;
  setCursor (i - 1).

Definition op_dropn : M unit :=
  i ← gets cursor;
  dbg (idx (i - 1)) ;;
  x ← idx (i - 1); n ← Float_Int64 (F x);
  removeStack (i + 1) (n + 2) ;;
  setCursor (i - n).

Definition op_dup : M unit :=
  i ← gets cursor;
  dbg (idx (i - 1) ;; idx (i - 1)) ;;
  x ← idx (i - 1);
  setIdx i x.

(** [dupn]: [tmpS := stack[i-2-n : i-2]], [rest := stack[i+1:]], then
    the two appends onto [stack[:i-2]]. *)
Definition op_dupn : M unit :=
  i ← gets cursor;
  dbg (idx (i - 1)) ;;
  x ← idx (i - 1); n ← Float_Int64 (F x);
  s ← gets stack;
  tmpS ← sub s (i - 2 - n) (i - 2);
  rest ← from s (i + 1);
  p ← upto s (i - 2);
  s1 ← append p tmpS; setStack s1 ;;
  s2 ← append s1 rest; setStack s2 ;;
  setCursor (i - 2).

Definition op_roll : M unit :=
  i ← gets cursor;
  x ← idx (i - 1); n0 ← Float_Int64 (F x);
  l ← lenStack;
  (if l =? 0 then panic "integer divide by zero" else mret tt) ;;
  let n := Z.rem n0 l in
  tmpS ← make n;
  for_upto n (λ j, v ← idx (i - 2 - j); writeAt tmpS j v) ;;
  s ← gets stack;
  rest ← from s (i + 1);
  p ← upto s (i - n - 1);
  tmpS' ← append tmpS p;
  s' ← append tmpS' rest; setStack s' ;;
  setCursor (i - 1).

Definition op_rolld : M unit :=
  i ← gets cursor;
  dbg (idx (i - 1)) ;;
  x ← idx (i - 1); n0 ← Float_Int64 (F x);
  l ← lenStack;
  (if l =? 0 then panic "integer divide by zero" else mret tt) ;;
  let n := Z.rem n0 l in
  tmpS ← make (n - 1);
  for_upto n (λ j, v ← idx (n + j); writeAt tmpS j v) ;;
  s ← gets stack;
  rest ← from s (i + 1);
  p ← sub s (n - 1) i;
  tmpS' ← append tmpS p;
  s' ← append tmpS' rest; setStack s' ;;
  setCursor (i - 1).

Definition op_stack : M unit :=
  i ← gets cursor;
  dbg (idx (i - 1)) ;;
  modify (λ st, set_Vertical (negb (Vertical st)) st).

Definition op_swap : M unit :=
  i ← gets cursor;
  dbg (idx (i - 1) ;; idx (i - 2)) ;;
  tmp ← idx (i - 2);
  x ← idx (i - 1);
  setIdx (i - 2) x ;;
  setIdx (i - 1) tmp ;;
  removeStack (i + 1) 1.

Definition op_macro : M unit :=
  i ← gets cursor;
  dbg (idx (i - 1)) ;;
  s ← gets stack;
  body ← from s (i + 2);
  updIdx i (with_Code body) ;;
  updIdx i (with_Typ TCode) ;;
  nm ← idx (i + 1);
  updIdx i (with_V (V nm)) ;;
  c ← idx i;
  varsSet (V nm) c ;;
  modify (λ st, set_keyWords (<[V nm := "x"]> (keyWords st)) st) ;;
  l ← lenStack;
  removeStack l (l - i) ;;
  l' ← lenStack;
  setCursor (i + (l' - i)).

Definition op_help : M unit := emit (Stderr "usage").

Definition op_exit : M unit :=
  i ← gets cursor;
  modify (set_Exit true) ;;
  l ← lenStack;
  setCursor (i + (l - i)).

(** The [default] case: the body bound to the name is spliced in. *)
Definition op_default : M unit :=
  i ← gets cursor;
  s ← gets stack;
  rest ← from s (i + 1);
  c ← idx i;
  '(v, _) ← varsGet (V c);
  (if negb (i =? 0) then
     p ← upto s i; s1 ← append p (Code v); setStack s1
   else
     s1 ← append nil_slice (Code v); setStack s1) ;;
  setCursor (i - 1) ;;
  s1 ← gets stack;
  s2 ← append s1 rest; setStack s2.

Definition rem_opt (a b : Z) : option Z :=
  if b =? 0 then None else Some (Z.rem a b).

(** [switch stack[i].V] *)
Definition cases : list (string * M unit) :=
  [("debug", op_debug);
   ("+", arith Add); ("-", arith Sub); ("*", arith Mul); ("/", arith Quo);
   ("cla", op_cla); ("clr", op_clr); ("clv", op_clv);
   ("!", op_not);
   ("%", intop rem_opt);
   ("++", incdec Add); ("--", incdec Sub);
   ("&", intop (λ a b, Some (Z.land a b)));
   ("|", intop (λ a b, Some (Z.lor a b)));
   ("^", intop (λ a b, Some (Z.lxor a b)));
   ("~", op_bitnot);
   ("<<", shiftop Z.shiftl); (">>", shiftop Z.shiftr);
   ("!=", compare One One Zero);
   ("==", compare Zero Zero One);
   ("<", compare One Zero Zero);
   ("<=", compare One Zero One);
   (">", compare Zero One Zero);
   (">=", compare Zero One One);
   ("&&", boolop andb); ("||", boolop orb); ("^^", boolop xorb);
   ("acos", mathop "acos"); ("asin", mathop "asin"); ("atan", mathop "atan");
   ("cos", mathop "cos"); ("cosh", mathop "cosh"); ("sin", mathop "sin");
   ("sinh", mathop "sinh"); ("tanh", mathop "tanh");
   ("hex", modeop "hex"); ("dec", modeop "dec"); ("bin", modeop "bin");
   ("oct", modeop "oct");
   ("e", constop math_E); ("pi", constop math_Pi);
   ("rand", k ← gets rnd; modify (set_rnd (S k)) ;; constop (rand_Float64 k));
   ("pow", powop); ("**", powop); ("exp", powop);
   ("fact", op_fact);
   ("sqrt", mathop "sqrt"); ("ln", mathop "ln"); ("log", mathop "log");
   ("hnl", hton 8); ("hns", hton 4); ("nhl", ntoh); ("nhs", ntoh);
   ("pick", op_pick); ("repeat", op_repeat); ("depth", op_depth);
   ("drop", op_drop); ("dropn", op_dropn); ("dup", op_dup); ("dupn", op_dupn);
   ("roll", op_roll); ("rolld", op_rolld); ("stack", op_stack); ("swap", op_swap);
   ("macro", op_macro); ("help", op_help); ("exit", op_exit)].

Fixpoint switch (name : string) (cs : list (string * M unit)) (dflt : M unit) : M unit :=
  match cs with
  | [] => dflt
  | (k, m) :: cs' => if String.eqb name k then m else switch name cs' dflt
  end.

(** One round of the loop of [Eval], without the increment of [i].  The
    trace that opens a round under [debug] reads [stack[i]], as the
    [switch] does next. *)
Definition body : M unit :=
  i ← gets cursor;
  c ← idx i;
  match Typ c with
  | TNumber => mret tt
  | TVariable =>
      '(prev, _) ← varsGet (V c);
      '(v, ok) ← varsGet (V c);
      setIdx i v ;;
      if ok : bool then setCursor (i - 1)
      else setIdx i prev ;; emit (Stderr "The variable doesn't exist")
  | TCode =>
      kw ← isKeyword (V c);
      if kw : bool then
        z ← NewFloat (FZero false);
        updIdx i (with_F z) ;;
        c' ← idx i;
        switch (V c') cases op_default
      else
        '(v, ok) ← varsGet (V c);
        if ok : bool then setIdx i v ;; setCursor (i - 1)
        else emit (Stderr (String.append "TODO " (V c))) ;; fatal
  | TAssignment =>
      x ← idx (i - 1);
      varsSet (V c) x ;;
      removeStack (i + 1) 2
  | TString => mret tt
  end.

(** A round with the post statement [i++]. *)
Definition step : M unit :=
  body ;; i ← gets cursor; setCursor (i + 1).

(** [for i := ip; i < len(stack); i++ { ... }] *)
Fixpoint loop (fuel : nat) : M unit :=
  i ← gets cursor;
  l ← lenStack;
  if i <? l then
    match fuel with
    | O => outOfFuel
    | S fuel' => step ;; loop fuel'
    end
  else mret tt.

(** What the deferred closures do with a panic of the loop.  Every round
    defers one closure, and all of them run when [Eval] unwinds, the last
    one first.  That one recovers the panic and prints [stack[i]], read
    from the variables as the panic left them.  When the index is in range
    [Eval] returns normally with the zero values of its unnamed results:
    a nil slice, a nil map and 0.  When it is not, the print panics in
    turn, in every closure ([i] is one variable for the whole loop, as in
    Go before 1.22), and the last panic leaves [Eval]. *)
Definition deferred (msg : string) : M (slice * option (gmap string Var) * Z) := λ st,
  match (i ← gets cursor; idx i) st with
  | (Ok _, _) => (Ok (nil_slice, None, 0), set_out (Stdout "Recovered in " :: out st) st)
  | _ => (Panic "index out of range", st)
  end.

Definition Eval (fuel : nat) (stk : slice) (vs : option (gmap string Var)) (ip : Z)
  : M (slice * option (gmap string Var) * Z) := λ st,
  match loop fuel (set_cursor ip (set_vars vs (set_stack stk st))) with
  | (Ok _, st') => (Ok (stack st', vars st', Z.of_nat (len (stack st'))), st')
  | (Panic msg, st') => deferred msg st'
  | (Fatal, st') => (Fatal, st')
  | (OutOfFuel, st') => (OutOfFuel, st')
  end.

(** One round of the loop of [main] on the lexemes of a line, with the
    variables [stack], [vars] and [fp] of [main]. *)
Definition mainLine (fuel : nat) (lex : list string)
    (stk : slice) (vs : option (gmap string Var)) (fp : Z)
  : M (slice * option (gmap string Var) * Z) :=
  '(stackR, varsR) ← Parse lex;
  stk' ← appendList stk stackR;
  vs' ← (if decide (varsR = ∅) then mret vs
         else match vs with
              | Some m => mret (Some (varsR ∪ m))
              | None => panic "assignment to entry in nil map"
              end);
  Eval fuel stk' vs' fp.

(** The loop of [main] over the lines read, each split into lexemes; the
    process exits after the line that sets [Exit]. *)
Fixpoint mainLoop (fuel : nat) (lines : list (list string))
    (stk : slice) (vs : option (gmap string Var)) (fp : Z)
  : M (slice * option (gmap string Var) * Z) :=
  match lines with
  | [] => mret (stk, vs, fp)
  | lex :: rest =>
      '(stk', vs', fp') ← mainLine fuel lex stk vs fp;
      ex ← gets Exit;
      if ex : bool then mret (stk', vs', fp')
      else mainLoop fuel rest stk' vs' fp'
  end.

(** [main] from a fresh process. *)
Definition session (fuel : nat) (lines : list (list string))
  : Res (slice * option (gmap string Var) * Z) * State :=
  mainLoop fuel lines nil_slice (Some ∅) 0 init_state.

End Program.

(** ** Concrete stores and a runtime to evaluate on *)

(** Cells as [Parse] makes them, and a store whose stack holds given
    cells in an array of exactly their number. *)
Definition numCell (p : nat) : Var := mkVar TNumber "" (Some p) [] nil_slice.
Definition codeCell (name : string) : Var := mkVar TCode name (Some Zero) [] nil_slice.
Definition varCell (name : string) : Var := mkVar TVariable name (Some Zero) [] nil_slice.

Definition store_of (fl : list Float) (cells : list Var)
    (vs : option (gmap string Var)) (i : Z) : State :=
  mkState fl [cells] keyWords0 false "dec" false false 0%nat []
          (Slice 0 0 (length cells) (length cells)) vs i.

(** What a call of [Eval] or a line of [main] leaves: the cells of the
    stack returned, each with its type, the address of its float and the
    float there, then the cursor, the output and the variable table. *)
Definition outcome (r : Res (slice * option (gmap string Var) * Z) * State)
  : option (list (VarType * option nat * option Float) * Z * list Event
            * option (gmap string Var)) :=
  match r with
  | (Ok (s', v, n), st') =>
      Some (map (λ c, (Typ c, F c, float_of st' c)) (elems st' s'), n, out st', v)
  | _ => None
  end.

(** The floats of the examples: [Zero], [One], then 2, 3 and 4. *)
Definition heap : list Float := [FZero false; ofZ 1; ofZ 2; ofZ 3; ofZ 4].

(** A runtime that reads decimal integers only: a scan succeeds on a
    string that starts with a digit, and [Parse] accepts a string of digits
    in base 10.  [growslice] doubles a small capacity, as Go does, without
    the rounding to size classes.  The functions of [math] are left out. *)
Definition is_digit (c : ascii) : bool :=
  let n := nat_of_ascii c in ((48 <=? n) && (n <=? 57))%nat.

Fixpoint dec_digits (s : string) (acc : Z) : option Z :=
  match s with
  | EmptyString => Some acc
  | String c r =>
      if is_digit c then dec_digits r (10 * acc + (Z.of_nat (nat_of_ascii c) - 48))
      else None
  end.

Definition parse_decimal (s : string) (base : Z) : option Float :=
  match s with
  | EmptyString => None
  | _ => if base =? 10 then SetInt <$> dec_digits s 0 else None
  end.

#[export] Instance sample_runtime : Runtime := {|
  growslice := λ c n, if (n <=? 2 * c)%nat then (2 * c)%nat else n;
  Sscanf_f := λ s, match s with String c _ => is_digit c | EmptyString => false end;
  Sscanf_i := λ _, false;
  Float_Parse := parse_decimal;
  math1 := λ _ _, None;
  math_Pow := λ _ _, None;
  math_E := FZero false;
  math_Pi := FZero false;
  rand_Float64 := λ _, FZero false
|}.

(** ** Further names for what the operators compute *)

(** The answer of a comparison for a result of [Cmp]: the cases of the
    [switch] of each operator that assign [One]. *)
Definition truth (name : string) (c : Z) : option bool :=
  if String.eqb name "!=" then Some (negb (c =? 0))
  else if String.eqb name "==" then Some (c =? 0)
  else if String.eqb name "<" then Some (c =? -1)
  else if String.eqb name "<=" then Some (c <=? 0)
  else if String.eqb name ">" then Some (c =? 1)
  else if String.eqb name ">=" then Some (0 <=? c)
  else None.

(** The method of [big.Float] behind the increment and the decrement. *)
Definition incdec_op (name : string) : option (Float → Float → option Float) :=
  if String.eqb name "++" then Some Add
  else if String.eqb name "--" then Some Sub
  else None.

(** The connective behind each boolean operator. *)
Definition bool_op (name : string) : option (bool → bool → bool) :=
  if String.eqb name "&&" then Some andb
  else if String.eqb name "||" then Some orb
  else if String.eqb name "^^" then Some xorb
  else None.

(** ** Kinds of computations *)

(** A computation that returns or panics, and does not end the process
    or run out of fuel. *)
Definition plain {A} (m : M A) : Prop :=
  ∀ st, (∃ a st', m st = (Ok a, st')) ∨ (∃ msg st', m st = (Panic msg, st')).

Definition faults {A} (m : M A) : Prop :=
  ∀ st, ∃ msg st', m st = (Panic msg, st').


(** ** Cells as [Parse] makes them *)

(** The entry that [Parse] puts into its table for an Assignment. *)
Definition assignEntry : Var := mkVar TCode "=" (Some Zero) [] nil_slice.

(** What can be said of every cell that [Parse] returns, in the store
    [st] it leaves: no bytes and no code, a float of its own for a Number
    and the shared [Zero] for the rest, a keyword for a Code cell, and no
    other name than ["="] for an Assignment. *)
Definition parsed (st : State) (c : Var) : Prop :=
  B c = [] ∧ Code c = nil_slice
  ∧ match Typ c with
    | TNumber => V c = "" ∧ ∃ l, F c = Some l ∧ is_Some (floats st !! l)
    | TCode => F c = Some Zero ∧ is_Some (keyWords st !! V c)
    | TVariable => F c = Some Zero ∧ keyWords st !! V c = None
    | TAssignment => F c = Some Zero ∧ V c = "="
    | TString => False
    end.

(** ** What no statement takes away *)

(** From [st] to [st'] every keyword is still a keyword, and every
    address of a float and of an array is still allocated. *)
Definition grows (st st' : State) : Prop :=
  (∀ k, is_Some (keyWords st !! k) → is_Some (keyWords st' !! k))
  ∧ (length (floats st) ≤ length (floats st'))%nat
  ∧ (length (arrays st) ≤ length (arrays st'))%nat.

Definition keeps {A} (m : M A) : Prop := ∀ st, grows st (snd (m st)).

(** ** The array behind a slice *)


(** * Facts *)

(** ** Exactness of [BigFloat] on integers *)

Lemma pow2_pos k : 0 < 2 ^ k ∨ (k < 0 ∧ 2 ^ k = 0).
Proof.
  destruct (Z_lt_le_dec k 0).
  - right. split; [done|]. by apply Z.pow_neg_r.
  - left. by apply Z.pow_pos_nonneg.
Qed.

Lemma pow2_pos' k : 0 <= k → 0 < 2 ^ k.
Proof. intros. by apply Z.pow_pos_nonneg. Qed.

Lemma repr_shift M E z K :
  repr M E z → 0 <= K → 0 <= E + K → M * 2 ^ (E + K) = z * 2 ^ K.
Proof.
  intros (K0 & HK0 & HE0 & Heq) HK HE.
  destruct (Z_le_gt_dec K0 K).
  - assert (Hd : ∃ d, 0 <= d ∧ K = K0 + d) by (exists (K - K0); lia).
    destruct Hd as (d & Hd & ->).
    replace (E + (K0 + d)) with ((E + K0) + d) by lia.
    rewrite (Z.pow_add_r 2 (E + K0) d), (Z.pow_add_r 2 K0 d) by lia. rewrite !Z.mul_assoc, Heq. ring.
  - apply (Z.mul_reg_r _ _ (2 ^ (K0 - K))).
    { pose proof (pow2_pos' (K0 - K)). lia. }
    rewrite <- !Z.mul_assoc, <- !Z.pow_add_r by lia.
    replace (E + K + (K0 - K)) with (E + K0) by lia.
    replace (K + (K0 - K)) with K0 by lia. exact Heq.
Qed.

Lemma repr_intro M E z K :
  0 <= K → 0 <= E + K → M * 2 ^ (E + K) = z * 2 ^ K → repr M E z.
Proof. intros. exists K. auto. Qed.

Lemma repr_nonneg_exp M E z : 0 <= E → repr M E z ↔ z = M * 2 ^ E.
Proof.
  intros HE. split.
  - intros H. pose proof (repr_shift M E z 0 H ltac:(lia) ltac:(lia)) as Hs.
    rewrite Z.add_0_r in Hs. cbn in Hs. lia.
  - intros ->. apply (repr_intro _ _ _ 0); [lia|lia|]. rewrite Z.add_0_r. cbn. lia.
Qed.

Lemma repr_neg_exp M E z : E <= 0 → repr M E z ↔ M = z * 2 ^ (- E).
Proof.
  intros HE. split.
  - intros H. pose proof (repr_shift M E z (- E) H ltac:(lia) ltac:(lia)) as Hs.
    replace (E + - E) with 0 in Hs by lia. cbn in Hs. lia.
  - intros ->. apply (repr_intro _ _ _ (- E)); [lia|lia|].
    replace (E + - E) with 0 by lia. cbn. lia.
Qed.

Lemma int_value_repr neg m e z :
  repr (Zpos m) e z → int_value (FFin neg m e) = Some (signed neg z).
Proof.
  intros H. unfold int_value, signed.
  destruct (Z.leb_spec 0 e).
  - apply repr_nonneg_exp in H; [|done]. subst z. by destruct neg.
  - apply repr_neg_exp in H; [|lia]. rewrite H.
    pose proof (pow2_pos' (- e) ltac:(lia)).
    rewrite Z.mod_mul by lia. cbn. rewrite Z.div_mul by lia. by destruct neg.
Qed.

Lemma int_value_FFin neg m e x :
  int_value (FFin neg m e) = Some x →
  ∃ z, 0 < z ∧ repr (Zpos m) e z ∧ x = signed neg z.
Proof.
  unfold int_value, signed. destruct (Z.leb_spec 0 e).
  - intros [= <-]. exists (Zpos m * 2 ^ e). split; [|split].
    + pose proof (pow2_pos' e ltac:(lia)). lia.
    + by apply repr_nonneg_exp.
    + done.
  - destruct (Z.eqb_spec (Zpos m mod 2 ^ (- e)) 0) as [Hm|]; [|done].
    intros [= <-]. pose proof (pow2_pos' (- e) ltac:(lia)) as Hp.
    exists (Zpos m / 2 ^ (- e)).
    assert (Hd : Zpos m = (Zpos m / 2 ^ (- e)) * 2 ^ (- e)).
    { rewrite (Z.div_mod (Zpos m) (2 ^ (- e))) at 1 by lia. rewrite Hm. lia. }
    split; [|split].
    + assert (0 < (Zpos m / 2 ^ (- e)) * 2 ^ (- e)) by lia. nia.
    + apply repr_neg_exp; [lia|]. exact Hd.
    + done.
Qed.

Lemma bitlen_bounds m : 2 ^ (bitlen m - 1) <= Zpos m < 2 ^ bitlen m.
Proof.
  unfold bitlen. pose proof (Z.log2_spec (Zpos m) ltac:(lia)) as H.
  replace (Z.log2 (Zpos m) + 1 - 1) with (Z.log2 (Zpos m)) by lia.
  replace (Z.log2 (Zpos m) + 1) with (Z.succ (Z.log2 (Zpos m))) by lia. exact H.
Qed.

Lemma bitlen_pos m : 1 <= bitlen m.
Proof. unfold bitlen. pose proof (Z.log2_nonneg (Zpos m)). lia. Qed.

Lemma repr_exp_bounds m E z :
  0 < z <= 2 ^ 53 → repr (Zpos m) E z → 1 <= E + bitlen m <= 54.
Proof.
  intros Hz H. pose proof (bitlen_bounds m) as [Hlo Hhi].
  pose proof (bitlen_pos m) as Hn.
  set (K := Z.max 0 (- E)).
  pose proof (repr_shift _ _ _ K H ltac:(lia) ltac:(lia)) as Heq.
  pose proof (pow2_pos' (E + K) ltac:(lia)) as HpEK.
  pose proof (pow2_pos' K ltac:(lia)) as HpK.
  split.
  - assert (2 ^ K < 2 ^ (bitlen m + (E + K))).
    { rewrite Z.pow_add_r by lia.
      assert (Zpos m * 2 ^ (E + K) < 2 ^ bitlen m * 2 ^ (E + K))
        by (apply Z.mul_lt_mono_pos_r; lia).
      assert (1 * 2 ^ K <= z * 2 ^ K) by (apply Z.mul_le_mono_nonneg_r; lia).
      lia. }
    apply Z.pow_lt_mono_r_iff in H0; lia.
  - assert (2 ^ (bitlen m - 1 + (E + K)) <= 2 ^ (53 + K)).
    { rewrite (Z.pow_add_r 2 (bitlen m - 1) (E + K)), (Z.pow_add_r 2 53 K) by lia.
      assert (2 ^ (bitlen m - 1) * 2 ^ (E + K) <= Zpos m * 2 ^ (E + K))
        by (apply Z.mul_le_mono_nonneg_r; lia).
      assert (z * 2 ^ K <= 2 ^ 53 * 2 ^ K) by (apply Z.mul_le_mono_nonneg_r; lia).
      lia. }
    apply Z.pow_le_mono_r_iff in H0; lia.
Qed.

Lemma repr_split m E z :
  0 < z <= 2 ^ 53 → repr (Zpos m) E z → 53 < bitlen m →
  ∃ q, 0 < q ∧ Zpos m = q * 2 ^ (bitlen m - 53) ∧ repr q (E + (bitlen m - 53)) z.
Proof.
  intros Hz H Hn. pose proof (repr_exp_bounds m E z Hz H) as Hb.
  pose proof (bitlen_bounds m) as [Hlo Hhi].
  set (sh := bitlen m - 53) in *.
  destruct (Z_le_gt_dec (E + sh) 0) as [Hle|Hgt].
  - assert (HE : E <= 0) by lia.
    pose proof (proj1 (repr_neg_exp _ _ _ HE) H) as HM.
    exists (z * 2 ^ (- (E + sh))).
    pose proof (pow2_pos' (- (E + sh)) ltac:(lia)).
    split; [nia|]. split.
    + rewrite HM. rewrite <- Z.mul_assoc, <- Z.pow_add_r by lia.
      f_equal. f_equal. lia.
    + apply repr_neg_exp; [lia|]. reflexivity.
  - assert (HE : E = 1 - sh) by lia.
    assert (HE0 : E <= 0) by lia.
    pose proof (proj1 (repr_neg_exp _ _ _ HE0) H) as HM.
    pose proof (pow2_pos' (- E) ltac:(lia)) as Hp.
    assert (Hz53 : z = 2 ^ 53).
    { assert (2 ^ (53 + - E) <= z * 2 ^ (- E)).
      { rewrite <- HM. replace (53 + - E) with (bitlen m - 1) by lia. exact Hlo. }
      rewrite Z.pow_add_r in H0 by lia. nia. }
    exists (2 ^ 52). split; [lia|]. split.
    + rewrite HM, Hz53. rewrite <- !Z.pow_add_r by lia. f_equal. lia.
    + replace (E + sh) with 1 by lia. apply repr_nonneg_exp; [lia|]. rewrite Hz53. reflexivity.
Qed.

Lemma round_exact neg m E z :
  0 < z <= 2 ^ 53 → repr (Zpos m) E z →
  int_value (round neg m E) = Some (signed neg z).
Proof.
  intros Hz H. pose proof (repr_exp_bounds m E z Hz H) as Hb.
  unfold round.
  replace (E + bitlen m <? MinExp) with false
    by (symmetry; apply Z.ltb_ge; unfold MinExp; lia).
  replace (MaxExp <? E + bitlen m) with false
    by (symmetry; apply Z.ltb_ge; unfold MaxExp; lia).
  unfold prec. destruct (Z.leb_spec (bitlen m) 53) as [Hn|Hn].
  { by apply int_value_repr. }
  destruct (repr_split m E z Hz H Hn) as (q & Hq & HM & Hr).
  set (sh := bitlen m - 53) in *.
  pose proof (pow2_pos' sh ltac:(lia)) as Hp.
  assert (Hshr : Z.shiftr (Zpos m) sh = q).
  { rewrite Z.shiftr_div_pow2 by lia. rewrite HM. apply Z.div_mul. lia. }
  assert (Hland : Z.land (Zpos m) (Z.ones sh) = 0).
  { rewrite Z.land_ones by lia. rewrite HM. apply Z.mod_mul. lia. }
  assert (Hhalf : 0 < Z.shiftl 1 (sh - 1)).
  { rewrite Z.shiftl_1_l. apply pow2_pos'. lia. }
  rewrite Hshr, Hland.
  replace (Z.shiftl 1 (sh - 1) <? 0) with false by (symmetry; apply Z.ltb_ge; lia).
  replace (0 =? Z.shiftl 1 (sh - 1)) with false by (symmetry; apply Z.eqb_neq; lia).
  cbn [orb andb]. destruct q as [|qp|qp]; try lia.
  cbn [mkFin]. by apply int_value_repr.
Qed.

Lemma roundZ_exact neg M E z :
  0 < M → 0 < z <= 2 ^ 53 → repr M E z →
  int_value (roundZ neg M E) = Some (signed neg z).
Proof.
  intros HM Hz H. destruct M as [|m|m]; try lia. by apply round_exact.
Qed.

Lemma int_value_SetInt z : Z.abs z <= 2 ^ 53 → int_value (SetInt z) = Some z.
Proof.
  intros Hz. destruct z as [|p|p]; [done| |].
  - change (Some (Zpos p)) with (Some (signed false (Zpos p))).
    apply round_exact; [lia|]. apply repr_nonneg_exp; [lia|]. cbn. lia.
  - change (Some (Zneg p)) with (Some (signed true (Zpos p))).
    apply round_exact; [lia|]. apply repr_nonneg_exp; [lia|]. cbn. lia.
Qed.

Lemma repr_align M E z e : repr M E z → e <= E → repr (M * 2 ^ (E - e)) e z.
Proof.
  intros H He. set (K := Z.max 0 (- e)).
  apply (repr_intro _ _ _ K); [lia|lia|].
  rewrite <- Z.mul_assoc, <- Z.pow_add_r by lia.
  replace (E - e + (e + K)) with (E + K) by lia.
  apply repr_shift; [done|lia|lia].
Qed.

Lemma repr_add M1 M2 e z1 z2 :
  repr M1 e z1 → repr M2 e z2 → repr (M1 + M2) e (z1 + z2).
Proof.
  intros H1 H2. set (K := Z.max 0 (- e)).
  apply (repr_intro _ _ _ K); [lia|lia|].
  pose proof (repr_shift _ _ _ K H1 ltac:(lia) ltac:(lia)).
  pose proof (repr_shift _ _ _ K H2 ltac:(lia) ltac:(lia)). lia.
Qed.

Lemma repr_sub M1 M2 e z1 z2 :
  repr M1 e z1 → repr M2 e z2 → repr (M1 - M2) e (z1 - z2).
Proof.
  intros H1 H2. set (K := Z.max 0 (- e)).
  apply (repr_intro _ _ _ K); [lia|lia|].
  pose proof (repr_shift _ _ _ K H1 ltac:(lia) ltac:(lia)).
  pose proof (repr_shift _ _ _ K H2 ltac:(lia) ltac:(lia)). lia.
Qed.

Lemma repr_mul M1 M2 e1 e2 z1 z2 :
  repr M1 e1 z1 → repr M2 e2 z2 → repr (M1 * M2) (e1 + e2) (z1 * z2).
Proof.
  intros H1 H2. set (K1 := Z.max 0 (- e1)). set (K2 := Z.max 0 (- e2)).
  apply (repr_intro _ _ _ (K1 + K2)); [lia|lia|].
  pose proof (repr_shift _ _ _ K1 H1 ltac:(lia) ltac:(lia)) as E1.
  pose proof (repr_shift _ _ _ K2 H2 ltac:(lia) ltac:(lia)) as E2.
  replace (e1 + e2 + (K1 + K2)) with ((e1 + K1) + (e2 + K2)) by lia.
  rewrite (Z.pow_add_r 2 (e1 + K1) (e2 + K2)), (Z.pow_add_r 2 K1 K2) by lia.
  transitivity ((M1 * 2 ^ (e1 + K1)) * (M2 * 2 ^ (e2 + K2))); [ring|].
  rewrite E1, E2. ring.
Qed.

Lemma repr_sign M e z : repr M e z → (0 < M → 0 < z) ∧ (M = 0 → z = 0).
Proof.
  intros H. set (K := Z.max 0 (- e)).
  pose proof (repr_shift _ _ _ K H ltac:(lia) ltac:(lia)) as Heq.
  pose proof (pow2_pos' (e + K) ltac:(lia)).
  pose proof (pow2_pos' K ltac:(lia)).
  split; intros; nia.
Qed.

Lemma roundZ_value neg M e z :
  0 <= M → Z.abs z <= 2 ^ 53 → repr M e z →
  int_value (roundZ neg M e) = Some (signed neg z).
Proof.
  intros HM Hz H. destruct (repr_sign _ _ _ H) as [Hpos Hzero].
  destruct M as [|m|m]; try lia.
  - rewrite Hzero by done. cbn. by destruct neg.
  - apply round_exact; [|done]. specialize (Hpos ltac:(lia)). lia.
Qed.

Lemma signed_negb n z : signed (negb n) z = - signed n z.
Proof. destruct n; cbn; lia. Qed.

Lemma uadd_value neg mx ex my ey zx zy :
  repr (Zpos mx) ex zx → repr (Zpos my) ey zy → Z.abs (zx + zy) <= 2 ^ 53 →
  int_value (uadd neg mx ex my ey) = Some (signed neg (zx + zy)).
Proof.
  intros Hx Hy Hb. unfold uadd.
  pose proof (pow2_pos' (ex - Z.min ex ey) ltac:(lia)).
  pose proof (pow2_pos' (ey - Z.min ex ey) ltac:(lia)).
  apply roundZ_value; [nia|done|].
  apply repr_add; apply repr_align; (done || lia).
Qed.

Lemma usub_value neg mx ex my ey zx zy :
  repr (Zpos mx) ex zx → repr (Zpos my) ey zy → Z.abs (zx - zy) <= 2 ^ 53 →
  Zpos my * 2 ^ (ey - Z.min ex ey) <= Zpos mx * 2 ^ (ex - Z.min ex ey) →
  int_value (usub neg mx ex my ey) = Some (signed neg (zx - zy)).
Proof.
  intros Hx Hy Hb Hle. unfold usub.
  apply roundZ_value; [lia|done|].
  apply repr_sub; apply repr_align; (done || lia).
Qed.

Lemma Add_FFin_value nx mx ex ny my ey zx zy :
  repr (Zpos mx) ex zx → repr (Zpos my) ey zy →
  Z.abs (signed nx zx + signed ny zy) <= 2 ^ 53 →
  ∃ r, Add (FFin nx mx ex) (FFin ny my ey) = Some r
       ∧ int_value r = Some (signed nx zx + signed ny zy).
Proof.
  intros Hx Hy Hb. cbn [Add].
  destruct (eqb nx ny) eqn:Hs.
  - apply eqb_prop in Hs. subst ny. eexists. split; [done|].
    rewrite (uadd_value _ _ _ _ _ zx zy) by (done || (destruct nx; cbn in *; lia)).
    f_equal. destruct nx; cbn; lia.
  - assert (ny = negb nx) as -> by (destruct nx, ny; cbn in *; congruence).
    rewrite signed_negb in *. unfold ucmp.
    destruct (Z.compare_spec (Zpos mx * 2 ^ (ex - Z.min ex ey))
                             (Zpos my * 2 ^ (ey - Z.min ex ey))) as [Hc|Hc|Hc].
    + eexists. split; [done|].
      rewrite (usub_value _ _ _ _ _ zy zx)
        by (done || (rewrite Z.min_comm; lia) || (destruct nx; cbn in *; lia)).
      rewrite signed_negb. f_equal. destruct nx; cbn; lia.
    + eexists. split; [done|].
      rewrite (usub_value _ _ _ _ _ zy zx)
        by (done || (rewrite Z.min_comm; lia) || (destruct nx; cbn in *; lia)).
      rewrite signed_negb. f_equal. destruct nx; cbn; lia.
    + eexists. split; [done|].
      rewrite (usub_value _ _ _ _ _ zx zy)
        by (done || lia || (destruct nx; cbn in *; lia)).
      f_equal. destruct nx; cbn; lia.
Qed.

Lemma int_value_FZero_or_FFin a x :
  int_value a = Some x →
  (∃ n, a = FZero n ∧ x = 0)
  ∨ (∃ n m e z, a = FFin n m e ∧ 0 < z ∧ repr (Zpos m) e z ∧ x = signed n z).
Proof.
  destruct a as [n|n|n m e]; intros H.
  - left. exists n. by inversion H.
  - done.
  - right. destruct (int_value_FFin _ _ _ _ H) as (z & ? & ? & ?). by exists n, m, e, z.
Qed.

Lemma Add_exact a b x y :
  int_value a = Some x → int_value b = Some y → Z.abs (x + y) <= 2 ^ 53 →
  ∃ r, Add a b = Some r ∧ int_value r = Some (x + y).
Proof.
  intros Ha Hb Hz.
  destruct (int_value_FZero_or_FFin _ _ Ha) as [(na & -> & ->)|(na & ma & ea & za & -> & Hza & Hra & ->)];
  destruct (int_value_FZero_or_FFin _ _ Hb) as [(nb & -> & ->)|(nb & mb & eb & zb & -> & Hzb & Hrb & ->)].
  - eexists. split; [done|]. done.
  - eexists. split; [done|]. by rewrite Hb.
  - eexists. split; [done|]. rewrite Ha. f_equal. lia.
  - by apply Add_FFin_value.
Qed.

Lemma Sub_Add_Neg a b : Sub a b = Add a (Neg b).
Proof.
  destruct a as [na|na|na ma ea], b as [nb|nb|nb mb eb]; cbn; try done.
  - by destruct na, nb.
  - by destruct na, nb.
Qed.

Lemma int_value_Neg a x : int_value a = Some x → int_value (Neg a) = Some (- x).
Proof.
  destruct a as [n|n|n m e]; cbn; try done.
  - by intros [= <-].
  - destruct (0 <=? e).
    + intros [= <-]. f_equal. destruct n; cbn; lia.
    + destruct (Zpos m mod 2 ^ (- e) =? 0); [|done].
      intros [= <-]. f_equal. destruct n; cbn; lia.
Qed.

Lemma Sub_exact a b x y :
  int_value a = Some x → int_value b = Some y → Z.abs (x - y) <= 2 ^ 53 →
  ∃ r, Sub a b = Some r ∧ int_value r = Some (x - y).
Proof.
  intros Ha Hb Hz. rewrite Sub_Add_Neg.
  apply int_value_Neg in Hb.
  replace (x - y) with (x + - y) in * by lia. by apply Add_exact.
Qed.

Lemma signed_mul nx ny zx zy :
  signed (xorb nx ny) (zx * zy) = signed nx zx * signed ny zy.
Proof. destruct nx, ny; cbn; lia. Qed.

Lemma Mul_exact a b x y :
  int_value a = Some x → int_value b = Some y → Z.abs (x * y) <= 2 ^ 53 →
  ∃ r, Mul a b = Some r ∧ int_value r = Some (x * y).
Proof.
  intros Ha Hb Hz.
  destruct (int_value_FZero_or_FFin _ _ Ha) as [(na & -> & ->)|(na & ma & ea & za & -> & Hza & Hra & ->)];
  destruct (int_value_FZero_or_FFin _ _ Hb) as [(nb & -> & ->)|(nb & mb & eb & zb & -> & Hzb & Hrb & ->)].
  - eexists. split; [done|]. done.
  - eexists. split; [done|]. done.
  - eexists. split; [done|]. cbn. f_equal. lia.
  - eexists. split; [done|]. unfold umul.
    rewrite <- signed_mul in *.
    apply roundZ_value; [lia| |by apply repr_mul].
    destruct (xorb na nb); cbn in Hz; lia.
Qed.

Lemma uquo_value neg mx ex my ey zx zy zq :
  repr (Zpos mx) ex zx → repr (Zpos my) ey zy →
  0 < zy → 0 < zq <= 2 ^ 53 → zx = zq * zy →
  int_value (uquo neg mx ex my ey) = Some (signed neg zq).
Proof.
  intros Hx Hy Hzy Hzq Hdiv. unfold uquo, prec.
  set (bl := bitlen my). set (k := 53 + 2 + bl).
  pose proof (bitlen_bounds my) as [_ Hhi]. fold bl in Hhi.
  pose proof (bitlen_pos my) as Hbl. fold bl in Hbl.
  set (K := Z.max 0 (Z.max (- ex) (- ey))).
  pose proof (repr_shift _ _ _ K Hx ltac:(lia) ltac:(lia)) as E1.
  pose proof (repr_shift _ _ _ K Hy ltac:(lia) ltac:(lia)) as E2.
  pose proof (pow2_pos' (ex + K) ltac:(lia)) as Pex.
  pose proof (pow2_pos' (ey + K) ltac:(lia)) as Pey.
  pose proof (pow2_pos' K ltac:(lia)) as PK.
  pose proof (pow2_pos' bl ltac:(lia)) as Pbl.
  assert (E3 : Zpos mx * 2 ^ (ex + K) = zq * Zpos my * 2 ^ (ey + K)).
  { rewrite E1, Hdiv. rewrite <- !Z.mul_assoc. f_equal. lia. }
  set (D := k - ex + ey).
  assert (HD : 1 <= D).
  { assert (2 ^ (ex + K) < 2 ^ (53 + bl + (ey + K))).
    { rewrite (Z.pow_add_r 2 (53 + bl) (ey + K)), (Z.pow_add_r 2 53 bl) by lia.
      assert (1 * 2 ^ (ex + K) <= Zpos mx * 2 ^ (ex + K))
        by (apply Z.mul_le_mono_nonneg_r; lia).
      assert (zq * Zpos my < 2 ^ 53 * 2 ^ bl).
      { assert (zq * Zpos my <= 2 ^ 53 * Zpos my) by (apply Z.mul_le_mono_nonneg_r; lia).
        assert (2 ^ 53 * Zpos my < 2 ^ 53 * 2 ^ bl) by (apply Z.mul_lt_mono_pos_l; lia).
        lia. }
      assert (zq * Zpos my * 2 ^ (ey + K) < 2 ^ 53 * 2 ^ bl * 2 ^ (ey + K))
        by (apply Z.mul_lt_mono_pos_r; lia).
      lia. }
    apply Z.pow_lt_mono_r_iff in H; lia. }
  pose proof (pow2_pos' D ltac:(lia)) as PD.
  pose proof (pow2_pos' k ltac:(lia)) as Pk.
  assert (E4 : Zpos mx * 2 ^ k = zq * 2 ^ D * Zpos my).
  { apply (Z.mul_reg_r _ _ (2 ^ (ex + K))); [lia|].
    transitivity (Zpos mx * 2 ^ (ex + K) * 2 ^ k); [ring|].
    rewrite E3.
    transitivity (zq * Zpos my * (2 ^ D * 2 ^ (ex + K))); [|ring].
    rewrite <- (Z.pow_add_r 2 D (ex + K)) by lia.
    rewrite <- !Z.mul_assoc, <- (Z.pow_add_r 2 (ey + K) k) by lia.
    do 3 f_equal. lia. }
  rewrite E4, Z.mod_mul, Z.div_mul by lia. cbn [Z.eqb].
  rewrite Z.add_0_r.
  apply roundZ_value; [nia|lia|].
  apply repr_neg_exp; [lia|].
  replace (- (ex - ey - k - 1)) with (Z.succ D) by lia.
  rewrite Z.pow_succ_r by lia. ring.
Qed.

Lemma Quo_exact a b x y z :
  int_value a = Some x → int_value b = Some y →
  y ≠ 0 → x = z * y → Z.abs z <= 2 ^ 53 →
  ∃ r, Quo a b = Some r ∧ int_value r = Some z.
Proof.
  intros Ha Hb Hy0 Hx Hz.
  destruct (int_value_FZero_or_FFin _ _ Hb) as [(nb & -> & ->)|(nb & mb & eb & zb & -> & Hzb & Hrb & ->)];
    [done|].
  destruct (int_value_FZero_or_FFin _ _ Ha) as [(na & -> & Hx0)|(na & ma & ea & za & -> & Hza & Hra & Hxa)].
  - eexists. split; [done|]. cbn. f_equal.
    assert (z * signed nb zb = 0) by lia.
    apply Z.mul_eq_0 in H. destruct H; [lia|]. destruct nb; cbn in *; lia.
  - eexists. split; [done|].
    assert (Hq : za = Z.abs z * zb ∧ z = signed (xorb na nb) (Z.abs z) ∧ 0 < Z.abs z).
    { subst x. destruct na, nb; cbn in *; nia. }
    destruct Hq as (Hq1 & Hq2 & Hq3).
    rewrite (uquo_value _ _ _ _ _ za zb (Z.abs z)) by (done || lia).
    by rewrite <- Hq2.
Qed.

(** ** Execution of the statements of [Eval] *)

Section Exec.
Context {R : Runtime}.

Lemma bind_run {A B} (m : M A) (f : A → M B) st :
  (m ≫= f) st = match m st with
                | (Ok a, st') => f a st'
                | (Panic msg, st') => (Panic msg, st')
                | (Fatal, st') => (Fatal, st')
                | (OutOfFuel, st') => (OutOfFuel, st')
                end.
Proof. reflexivity. Qed.

Lemma bind_ok {A B} (m : M A) (f : A → M B) st a st' :
  m st = (Ok a, st') → (m ≫= f) st = f a st'.
Proof. intros H. rewrite bind_run, H. reflexivity. Qed.

Lemma bind_panic {A B} (m : M A) (f : A → M B) st msg st' :
  m st = (Panic msg, st') → (m ≫= f) st = (Panic msg, st').
Proof. intros H. rewrite bind_run, H. reflexivity. Qed.

(** One statement of a monadic block, run with a known result. *)
Tactic Notation "run_with" uconstr(lem) := rewrite ?bind_run; rewrite lem; cbv beta iota.

Lemma holds_length st s l : holds st s l → length l = len s.
Proof. intros (_ & H & _). exact H. Qed.

Lemma readAt_ok st s l k n v :
  holds st s l → k = Z.of_nat n → l !! n = Some v →
  readAt s k st = (Ok v, st).
Proof.
  intros (He & Hl & _) -> Hv. unfold readAt, okb.
  apply lookup_lt_Some in Hv as Hn.
  replace ((0 <=? Z.of_nat n) && (Z.of_nat n <? Z.of_nat (len s))) with true
    by (symmetry; apply andb_true_iff; split; [apply Z.leb_le | apply Z.ltb_lt]; lia).
  rewrite bind_run. cbn. rewrite Nat2Z.id, He, Hv. reflexivity.
Qed.

Lemma readAt_oob st s k :
  k < 0 ∨ Z.of_nat (len s) <= k → readAt s k st = (Panic "index out of range", st).
Proof.
  intros H. unfold readAt, okb.
  replace ((0 <=? k) && (k <? Z.of_nat (len s))) with false; [done|].
  symmetry. apply andb_false_iff.
  destruct H; [left; apply Z.leb_gt | right; apply Z.ltb_ge]; lia.
Qed.

Lemma elems_poke st s n x :
  (n < len s)%nat → elems (poke s n x st) s = <[n := x]> (elems st s).
Proof.
  intros Hn. unfold elems, poke. cbn.
  rewrite list_lookup_alter_eq.
  destruct (arrays st !! arr s) as [a|]; cbn.
  - rewrite drop_insert_ge by lia. rewrite take_insert_lt by lia.
    f_equal. lia.
  - by rewrite drop_nil, take_nil.
Qed.

Lemma holds_poke st s l n x :
  holds st s l → (n < length l)%nat → holds (poke s n x st) s (<[n := x]> l).
Proof.
  intros (He & Hl & Hc) Hn. split; [|split].
  - rewrite elems_poke by lia. by rewrite He.
  - by rewrite length_insert.
  - done.
Qed.

Lemma updAt_ok st s l k n v f :
  holds st s l → k = Z.of_nat n → l !! n = Some v →
  updAt s k f st = (Ok tt, poke s n (f v) st).
Proof.
  intros H -> Hv. unfold updAt.
  rewrite (bind_ok _ _ _ _ _ (readAt_ok _ _ _ _ _ _ H eq_refl Hv)).
  unfold modify, poke. by rewrite Nat2Z.id.
Qed.

Lemma idx_ok st l k n v :
  holds st (stack st) l → k = Z.of_nat n → l !! n = Some v →
  idx k st = (Ok v, st).
Proof. intros. unfold idx. rewrite bind_run. cbn. eapply readAt_ok; eauto. Qed.

Lemma updIdx_ok st l k n v f :
  holds st (stack st) l → k = Z.of_nat n → l !! n = Some v →
  updIdx k f st = (Ok tt, poke (stack st) n (f v) st).
Proof. intros. unfold updIdx. rewrite bind_run. cbn. eapply updAt_ok; eauto. Qed.

Lemma setIdx_ok st l k n v x :
  holds st (stack st) l → k = Z.of_nat n → l !! n = Some v →
  setIdx k x st = (Ok tt, poke (stack st) n x st).
Proof.
  intros. unfold setIdx, writeAt. rewrite bind_run. cbn.
  by erewrite updAt_ok by eauto.
Qed.

Lemma dbg_pure {A} (m : M A) st a : m st = (Ok a, st) → dbg m st = (Ok tt, st).
Proof.
  intros H. unfold dbg. rewrite bind_run. cbn.
  destruct (debug st); [|done]. rewrite bind_run, H. done.
Qed.


Lemma take_inserts_mid (k rest : list Var) (p : nat) :
  (p + length k ≤ length rest)%nat →
  take (p + length k) (list_inserts p k rest) = (take p rest ++ k).
Proof.
  intros Hlen. apply list_eq. intros j.
  destruct (decide (j < p)%nat).
  - rewrite lookup_take_lt by lia. rewrite list_lookup_inserts_lt by lia.
    rewrite lookup_app_l by (rewrite length_take; lia).
    by rewrite lookup_take_lt by lia.
  - destruct (decide (j < p + length k)%nat).
    + rewrite lookup_take_lt by lia. rewrite list_lookup_inserts by lia.
      rewrite lookup_app_r by (rewrite length_take; lia).
      rewrite length_take. f_equal. lia.
    + rewrite lookup_take_ge by lia. symmetry. apply lookup_ge_None.
      rewrite length_app, length_take. lia.
Qed.

Lemma elems_spliced st s l p k :
  holds st s l → (p + length k ≤ length l)%nat →
  elems (spliced s p k st) (Slice (arr s) (off s) (p + length k) (cap s))
  = (take p l ++ k).
Proof.
  intros (He & Hl & Hc) Hk.
  destruct (decide (len s = 0%nat)) as [Hz|Hz].
  { destruct l; [|cbn in Hl; lia]. cbn in Hk.
    assert (p = 0%nat) as -> by lia. destruct k; [|cbn in Hk; lia].
    unfold elems. cbn. by rewrite take_0. }
  unfold elems, spliced in *. cbn in *.
  rewrite list_lookup_alter_eq.
  destruct (arrays st !! arr s) as [a|]; cbn in *.
  - assert (Ha : (off s + len s ≤ length a)%nat).
    { assert (Hl' := Hl). rewrite <- He, length_take, length_drop in Hl'. lia. }
    rewrite <- (take_drop (off s) a) at 1.
    replace (off s + p)%nat with (length (take (off s) a) + p)%nat
      by (rewrite length_take; lia).
    rewrite list_inserts_app_r.
    rewrite drop_app_length' by (rewrite length_take; lia).
    rewrite take_inserts_mid by (rewrite length_drop; lia).
    f_equal. rewrite <- He. rewrite take_take. f_equal. lia.
  - rewrite drop_nil, take_nil in He. subst l. cbn in Hl. lia.
Qed.

Lemma elems_from st s l q :
  holds st s l → (q ≤ length l)%nat →
  elems st (Slice (arr s) (off s + q) (len s - q) (cap s - q)) = drop q l.
Proof.
  intros (He & Hl & Hc) Hq. unfold elems in *. cbn.
  rewrite <- He. apply list_eq. intros j.
  rewrite lookup_drop.
  destruct (decide (j < len s - q)%nat).
  - rewrite !lookup_take_lt by lia. rewrite !lookup_drop. f_equal. lia.
  - by rewrite !lookup_take_ge by lia.
Qed.

Lemma remove_ok st s l pos n p q :
  holds st s l → pos - n = Z.of_nat p → pos = Z.of_nat q →
  (p ≤ q)%nat → (q ≤ length l)%nat →
  remove s pos n st
  = (Ok (Slice (arr s) (off s) (p + (len s - q)) (cap s)),
     spliced s p (drop q l) st).
Proof.
  intros H Hp Hq Hpq Hql. destruct H as (He & Hl & Hc).
  unfold remove, upto, from, sub. rewrite Hp. subst pos.
  replace ((0 <=? 0) && (0 <=? Z.of_nat p) && (Z.of_nat p <=? Z.of_nat (cap s)))
    with true by (symmetry; rewrite !andb_true_iff, !Z.leb_le; lia).
  rewrite bind_run. cbn -[Z.of_nat Z.to_nat].
  replace ((0 <=? Z.of_nat q) && (Z.of_nat q <=? Z.of_nat (len s))
           && (Z.of_nat (len s) <=? Z.of_nat (cap s)))
    with true by (symmetry; rewrite !andb_true_iff, !Z.leb_le; lia).
  rewrite bind_run. cbn -[Z.of_nat Z.to_nat].
  unfold append. rewrite bind_run. cbn -[Z.of_nat Z.to_nat].
  replace (Z.to_nat (Z.of_nat (len s) - Z.of_nat q)) with (len s - q)%nat by lia.
  rewrite Nat2Z.id, Z.sub_0_r, Nat2Z.id, Nat.sub_0_r, Nat.add_0_r.
  pose proof (elems_from st s l q (conj He (conj Hl Hc)) Hql) as E.
  unfold elems in E. cbn in E. rewrite E. clear E.
  unfold appendList. cbn. rewrite length_drop.
  replace (p + (length l - q) <=? cap s)%nat with true
    by (symmetry; apply Nat.leb_le; lia).
  rewrite bind_run. cbn. rewrite Hl. reflexivity.
Qed.

Lemma remove_holds st s l p q :
  holds st s l → (p ≤ q)%nat → (q ≤ length l)%nat →
  holds (spliced s p (drop q l) st)
        (Slice (arr s) (off s) (p + (len s - q)) (cap s))
        (take p l ++ drop q l).
Proof.
  intros H Hpq Hql. pose proof H as (He & Hl & Hc).
  split; [|split]; cbn.
  - replace (len s - q)%nat with (length (drop q l)) by (rewrite length_drop; lia).
    apply elems_spliced; [done|]. rewrite length_drop. lia.
  - rewrite length_app, length_take, length_drop. lia.
  - lia.
Qed.


Lemma NewFloat_run v st :
  NewFloat v st = (Ok (Some (length (floats st))), set_floats (floats st ++ [v]) st).
Proof. reflexivity. Qed.

Lemma isKeyword_true k st :
  is_Some (keyWords st !! k) → isKeyword k st = (Ok true, st).
Proof.
  intros H. unfold isKeyword. rewrite bind_run. cbn.
  by rewrite bool_decide_eq_true_2.
Qed.

Lemma gets_run {A} (f : State → A) st : gets f st = (Ok (f st), st).
Proof. reflexivity. Qed.

Lemma setCursor_run k st : setCursor k st = (Ok tt, set_cursor k st).
Proof. reflexivity. Qed.

Lemma switch_depth : switch "depth" cases op_default = op_depth.
Proof. reflexivity. Qed.


Lemma loadF_ok st l v : floats st !! l = Some v → loadF (Some l) st = (Ok v, st).
Proof. intros H. unfold loadF. rewrite bind_run. cbn. by rewrite H. Qed.

Lemma storeF_run st l v :
  storeF (Some l) v st = (Ok tt, set_floats (<[l := v]> (floats st)) st).
Proof. reflexivity. Qed.

Lemma Float_op_ok st op lz lx ly vz a b r :
  floats st !! lz = Some vz → floats st !! lx = Some a → floats st !! ly = Some b →
  op a b = Some r →
  Float_op op (Some lz) (Some lx) (Some ly) st
  = (Ok tt, set_floats (<[lz := r]> (floats st)) st).
Proof.
  intros Hz Hx Hy Hop. unfold Float_op.
  run_with (loadF_ok _ _ _ Hz). run_with (loadF_ok _ _ _ Hx).
  run_with (loadF_ok _ _ _ Hy). rewrite Hop. apply storeF_run.
Qed.

Lemma body_keyword st l n c :
  holds st (stack st) l → cursor st = Z.of_nat n → l !! n = Some c →
  Typ c = TCode → is_Some (keyWords st !! V c) →
  body st = switch (V c) cases op_default (opened st n c).
Proof.
  intros H Hi Hc Ht Hk. unfold body.
  run_with gets_run. run_with (idx_ok st _ _ _ _ H Hi Hc). rewrite Ht.
  run_with (isKeyword_true _ _ Hk). run_with NewFloat_run.
  set (st1 := set_floats (floats st ++ [FZero false]) st).
  run_with (updIdx_ok st1 _ _ _ _ (with_F (Some (length (floats st)))) H Hi Hc).
  fold (opened st n c).
  assert (H2 : holds (opened st n c) (stack (opened st n c))
                 (<[n := with_F (Some (length (floats st))) c]> l)).
  { apply holds_poke; [exact H|]. by eapply lookup_lt_Some. }
  assert (Hc2 : <[n := with_F (Some (length (floats st))) c]> l !! n
                = Some (with_F (Some (length (floats st))) c)).
  { apply list_lookup_insert_eq. by eapply lookup_lt_Some. }
  change (poke (stack st1) n (with_F (Some (length (floats st))) c) st1)
    with (opened st n c).
  run_with (idx_ok (opened st n c) _ _ _ _ H2 Hi Hc2). reflexivity.
Qed.

Lemma holds_opened st l n c :
  holds st (stack st) l → l !! n = Some c →
  holds (opened st n c) (stack (opened st n c))
        (<[n := with_F (Some (length (floats st))) c]> l).
Proof. intros H Hc. apply holds_poke; [exact H|]. by eapply lookup_lt_Some. Qed.

Lemma removeStack_ok st l pos n p q :
  holds st (stack st) l → pos - n = Z.of_nat p → pos = Z.of_nat q →
  (p ≤ q)%nat → (q ≤ length l)%nat →
  removeStack pos n st = (Ok tt, removed st l p q).
Proof.
  intros H Hp Hq Hpq Hql. unfold removeStack.
  run_with gets_run. run_with (remove_ok st _ _ _ _ _ _ H Hp Hq Hpq Hql).
  reflexivity.
Qed.

Lemma holds_removed st l p q :
  holds st (stack st) l → (p ≤ q)%nat → (q ≤ length l)%nat →
  holds (removed st l p q) (stack (removed st l p q)) (take p l ++ drop q l).
Proof.
  intros H Hpq Hql. pose proof (remove_holds st _ _ _ _ H Hpq Hql) as Hr.
  exact Hr.
Qed.

Lemma arith_run st op pre cx cy cz post lz lx ly vz a b r :
  holds st (stack st) (pre ++ cx :: cy :: cz :: post) →
  cursor st = Z.of_nat (length pre) + 2 →
  F cz = Some lz → F cx = Some lx → F cy = Some ly →
  floats st !! lz = Some vz → floats st !! lx = Some a → floats st !! ly = Some b →
  op a b = Some r →
  ∃ st', arith op st = (Ok tt, st')
         ∧ holds st' (stack st') (pre ++ with_Typ TNumber cz :: post)
         ∧ floats st' = <[lz := r]> (floats st)
         ∧ cursor st' = Z.of_nat (length pre)
         ∧ vars st' = vars st ∧ out st' = out st.
Proof.
  intros H Hi Hfz Hfx Hfy Hz Hx Hy Hop.
  set (l := pre ++ cx :: cy :: cz :: post) in *.
  assert (Hlx : l !! length pre = Some cx) by apply list_lookup_middle, eq_refl.
  assert (Hly : l !! S (length pre) = Some cy).
  { unfold l. rewrite lookup_app_r by lia.
    by replace (S (length pre) - length pre)%nat with 1%nat by lia. }
  assert (Hlz : l !! S (S (length pre)) = Some cz).
  { unfold l. rewrite lookup_app_r by lia.
    by replace (S (S (length pre)) - length pre)%nat with 2%nat by lia. }
  assert (Hi0 : cursor st - 2 = Z.of_nat (length pre)) by lia.
  assert (Hi1 : cursor st - 1 = Z.of_nat (S (length pre))) by lia.
  assert (Hi2 : cursor st = Z.of_nat (S (S (length pre)))) by lia.
  assert (Hlen : length l = (length pre + 3 + length post)%nat)
    by (unfold l; rewrite length_app; cbn; lia).
  set (st1 := set_floats (<[lz := r]> (floats st)) st).
  set (cz' := with_Typ TNumber cz).
  set (st2 := poke (stack st1) (S (S (length pre))) cz' st1).
  set (l2 := <[S (S (length pre)) := cz']> l).
  assert (H2 : holds st2 (stack st2) l2)
    by (apply holds_poke; [exact H | lia]).
  set (st3 := removed st2 l2 (length pre) (S (S (length pre)))).
  assert (H3 : holds st3 (stack st3) (take (length pre) l2 ++ drop (S (S (length pre))) l2)).
  { apply holds_removed; [exact H2|lia|]. unfold l2. rewrite length_insert. lia. }
  exists (set_cursor (cursor st - 2) st3).
  split; [|split; [|split; [|split; [|split]]]].
  - unfold arith. run_with gets_run.
    assert (Hdbg : (idx (cursor st - 2) ;; idx (cursor st - 1)) st = (Ok cy, st)).
    { run_with (idx_ok st _ _ _ _ H Hi0 Hlx). apply (idx_ok st _ _ _ _ H Hi1 Hly). }
    run_with (dbg_pure _ _ _ Hdbg).
    run_with (idx_ok st _ _ _ _ H Hi2 Hlz).
    run_with (idx_ok st _ _ _ _ H Hi0 Hlx).
    run_with (idx_ok st _ _ _ _ H Hi1 Hly).
    rewrite Hfz, Hfx, Hfy.
    run_with (Float_op_ok st op _ _ _ _ _ _ _ Hz Hx Hy Hop). fold st1.
    run_with (updIdx_ok st1 _ _ _ _ (with_Typ TNumber) H Hi2 Hlz). fold cz' st2.
    assert (Hp : cursor st - 2 = Z.of_nat (length pre)) by lia.
    run_with (removeStack_ok st2 l2 (cursor st) 2 (length pre) (S (S (length pre))) H2 Hp Hi2).
    + reflexivity.
    + lia.
    + unfold l2. rewrite length_insert. lia.
  - assert (Hl2 : take (length pre) l2 ++ drop (S (S (length pre))) l2
                  = pre ++ cz' :: post).
    { unfold l2, l.
      replace (S (S (length pre))) with (length pre + 2)%nat by lia.
      rewrite insert_app_r. cbn.
      rewrite take_app_length. rewrite drop_app_add. reflexivity. }
    rewrite <- Hl2. exact H3.
  - reflexivity.
  - cbn. lia.
  - reflexivity.
  - reflexivity.
Qed.

(** C9.  One round of [Eval] on a cell [depth] at cursor position
    [length pre] replaces that cell, and no other, by a Number whose float
    is the cursor position (the number of cells before the operator), not
    the length of the stack, which stays what it was: nothing is consumed.
    The float is [big.NewFloat(float64(i))], which holds [i] exactly for
    every position up to [2^53]. *)
Theorem depth_pushes_cursor st pre c post :
  holds st (stack st) (pre ++ c :: post) →
  cursor st = Z.of_nat (length pre) →
  Typ c = TCode → V c = "depth" → is_Some (keyWords st !! "depth") →
  ∃ st' p,
    step st = (Ok tt, st')
    ∧ holds st' (stack st') (pre ++ mkVar TNumber "depth" (Some p) (B c) (Code c) :: post)
    ∧ floats st' !! p = Some (SetInt (Z.of_nat (length pre)))
    ∧ (Z.of_nat (length pre) <= 2 ^ 53 →
       int_value (SetInt (Z.of_nat (length pre))) = Some (Z.of_nat (length pre)))
    ∧ cursor st' = Z.of_nat (length pre) + 1
    ∧ len (stack st') = len (stack st)
    ∧ vars st' = vars st.
Proof.
  intros H Hi Ht Hv Hk.
  assert (Hc : (pre ++ c :: post) !! length pre = Some c) by apply list_lookup_middle, eq_refl.
  assert (Hn : (length pre < length (pre ++ c :: post))%nat)
    by (rewrite length_app; cbn; lia).
  set (st1 := set_floats (floats st ++ [FZero false]) st).
  set (c1 := with_F (Some (length (floats st))) c).
  set (st2 := poke (stack st1) (length pre) c1 st1).
  assert (H2 : holds st2 (stack st2) (<[length pre := c1]> (pre ++ c :: post)))
    by (apply holds_poke; [exact H | exact Hn]).
  assert (Hc2 : <[length pre := c1]> (pre ++ c :: post) !! length pre = Some c1)
    by (apply list_lookup_insert_eq, Hn).
  set (st3 := set_floats (floats st2 ++ [SetInt (cursor st2)]) st2).
  set (c3 := with_F (Some (length (floats st2))) c1).
  set (st4 := poke (stack st3) (length pre) c3 st3).
  assert (H4 : holds st4 (stack st4) (<[length pre := c3]> (<[length pre := c1]> (pre ++ c :: post))))
    by (apply holds_poke; [exact H2 | rewrite length_insert; exact Hn]).
  assert (Hc4 : <[length pre := c3]> (<[length pre := c1]> (pre ++ c :: post)) !! length pre = Some c3)
    by (apply list_lookup_insert_eq; rewrite length_insert; exact Hn).
  set (c5 := with_Typ TNumber c3).
  set (st5 := poke (stack st4) (length pre) c5 st4).
  assert (Hrun : step st = (Ok tt, set_cursor (cursor st5 + 1) st5)).
  { unfold step, body.
    run_with gets_run.
    run_with (idx_ok st _ _ _ _ H Hi Hc).
    rewrite Ht, Hv.
    run_with (isKeyword_true _ _ Hk).
    run_with NewFloat_run. fold st1.
    run_with (updIdx_ok st1 _ _ _ _ (with_F (Some (length (floats st)))) H Hi Hc).
    fold c1 st2.
    run_with (idx_ok st2 _ _ _ _ H2 Hi Hc2).
    replace (V c1) with "depth" by (symmetry; exact Hv).
    rewrite switch_depth. unfold op_depth.
    run_with gets_run.
    run_with NewFloat_run. fold st3.
    assert (Hi2 : cursor st2 = Z.of_nat (length pre)) by exact Hi.
    run_with (updIdx_ok st3 _ _ _ _ (with_F (Some (length (floats st2)))) H2 Hi2 Hc2).
    fold c3 st4.
    run_with (updIdx_ok st4 _ _ _ _ (with_Typ TNumber) H4 Hi2 Hc4).
    fold c5 st5.
    run_with gets_run. reflexivity. }
  exists (set_cursor (cursor st5 + 1) st5), (length (floats st2)).
  split; [exact Hrun|]. split; [|split; [|split; [|split; [|split]]]].
  - assert (H5 : holds st5 (stack st5)
        (<[length pre := c5]> (<[length pre := c3]> (<[length pre := c1]> (pre ++ c :: post)))))
      by (apply holds_poke; [exact H4 | rewrite !length_insert; exact Hn]).
    rewrite !list_insert_insert_eq in H5.
    replace (length pre) with (length pre + 0)%nat in H5 at 1 by lia.
    rewrite insert_app_r in H5. cbn in H5.
    unfold c5, c3, c1, with_Typ, with_F in H5. cbn in H5. rewrite Hv in H5.
    exact H5.
  - cbn. rewrite Hi.
    rewrite lookup_app_r by (rewrite length_app; cbn; lia).
    rewrite length_app. cbn.
    by replace (length (floats st) + 1 - (length (floats st) + 1))%nat with 0%nat by lia.
  - intros Hle. apply int_value_SetInt. lia.
  - cbn. rewrite Hi. reflexivity.
  - reflexivity.
  - reflexivity.
Qed.


Lemma step_run st st' :
  body st = (Ok tt, st') → step st = (Ok tt, set_cursor (cursor st' + 1) st').
Proof. intros H. unfold step. run_with H. run_with gets_run. reflexivity. Qed.

Lemma float_of_Some st c a :
  float_of st c = Some a → ∃ l, F c = Some l ∧ floats st !! l = Some a.
Proof. unfold float_of. destruct (F c) as [l|]; [|done]. cbn. eauto. Qed.

(** Take two cells immediately before a cell [+], [-], [*] or [/], with
    floats [a] and [b] on which the operation of [big.Float] does not
    fault.  One round of [Eval] on the operator
    removes the two operand cells and leaves, in place of the operator, a
    Number whose float is the result [r] of [Add], [Sub], [Mul] or [Quo]
    at the 53 bits of [big.NewFloat]; the cursor then stands just after
    that cell and the variables are unchanged.  The result is exact on
    integers as far as 53 bits go: when [a] and [b] hold the integers [x]
    and [y], and the exact result [z] ([x+y], [x-y], [x*y], or the
    quotient of [x] by a non-zero [y] that divides it) has magnitude at
    most [2^53], then [r] holds exactly [z]. *)
Theorem arith_exact_on_integers st name op pre cx cy cz post a b r :
  holds st (stack st) (pre ++ cx :: cy :: cz :: post) →
  cursor st = Z.of_nat (length pre) + 2 →
  Typ cz = TCode → V cz = name → is_Some (keyWords st !! name) →
  arith_op name = Some op →
  float_of st cx = Some a → float_of st cy = Some b →
  op a b = Some r →
  ∃ st' res,
    step st = (Ok tt, st')
    ∧ holds st' (stack st') (pre ++ res :: post)
    ∧ Typ res = TNumber
    ∧ float_of st' res = Some r
    ∧ cursor st' = Z.of_nat (length pre) + 1
    ∧ vars st' = vars st
    ∧ (∀ x y z, int_value a = Some x → int_value b = Some y →
         exact_result name x y z → Z.abs z <= 2 ^ 53 → int_value r = Some z).
Proof.
  intros H Hi Ht Hv Hk Hname Hfa Hfb Hop.
  destruct (float_of_Some _ _ _ Hfa) as (lx & Hfx & Hx).
  destruct (float_of_Some _ _ _ Hfb) as (ly & Hfy & Hy).
  assert (Hsw : switch name cases op_default = arith op).
  { unfold arith_op in Hname.
    repeat match type of Hname with
           | (if String.eqb ?n ?k then _ else _) = _ =>
               destruct (String.eqb_spec n k) as [->|_]
           end; inversion Hname; subst; reflexivity. }
  set (l := pre ++ cx :: cy :: cz :: post) in *.
  set (n := S (S (length pre))).
  assert (Hlz : l !! n = Some cz).
  { unfold l, n. rewrite lookup_app_r by lia.
    by replace (S (S (length pre)) - length pre)%nat with 2%nat by lia. }
  assert (Hin : cursor st = Z.of_nat n) by (unfold n; lia).
  assert (Hk' : is_Some (keyWords st !! V cz)) by (by rewrite Hv).
  pose proof (body_keyword st l n cz H Hin Hlz Ht Hk') as Hbody.
  rewrite Hv, Hsw in Hbody.
  set (lz := length (floats st)) in *.
  set (cz1 := with_F (Some lz) cz).
  assert (H1 : holds (opened st n cz) (stack (opened st n cz))
                     (pre ++ cx :: cy :: cz1 :: post)).
  { pose proof (holds_opened st l n cz H Hlz) as Ho.
    unfold l, n in Ho.
    replace (S (S (length pre))) with (length pre + 2)%nat in Ho at 3 by lia.
    rewrite insert_app_r in Ho. exact Ho. }
  assert (Hfl : floats (opened st n cz) = floats st ++ [FZero false]) by reflexivity.
  destruct (arith_run (opened st n cz) op pre cx cy cz1 post lz lx ly (FZero false) a b r)
    as (st2 & Hrun & H2 & Hf2 & Hc2 & Hv2 & Ho2).
  { exact H1. }
  { exact Hi. }
  { reflexivity. }
  { exact Hfx. }
  { exact Hfy. }
  { rewrite Hfl. unfold lz. rewrite lookup_app_r by lia.
    by rewrite Nat.sub_diag. }
  { rewrite Hfl. apply lookup_app_l_Some, Hx. }
  { rewrite Hfl. apply lookup_app_l_Some, Hy. }
  { exact Hop. }
  rewrite Hrun in Hbody.
  exists (set_cursor (cursor st2 + 1) st2), (with_Typ TNumber cz1).
  split; [by apply step_run|].
  split; [exact H2|]. split; [reflexivity|].
  split; [|split; [cbn; lia|split; [exact Hv2|]]].
  - unfold float_of. cbn. rewrite Hf2, Hfl.
    apply list_lookup_insert_eq. rewrite length_app. cbn. lia.
  - intros x y z Ha Hb Hres Hz.
    assert (Hex : ∃ r', op a b = Some r' ∧ int_value r' = Some z).
    { unfold arith_op in Hname.
      destruct Hres as [[-> ->]|[[-> ->]|[[-> ->]|(-> & Hy0 & Hxz)]]];
        cbn in Hname; inversion Hname; subst op.
      - by apply Add_exact.
      - by apply Sub_exact.
      - by apply Mul_exact.
      - by eapply Quo_exact. }
    destruct Hex as (r' & Hr' & Hv'). congruence.
Qed.

Lemma varsGet_unbound st k :
  vars st ≫= (.!! k) = None → varsGet k st = (Ok (zeroVar, false), st).
Proof. intros H. unfold varsGet. run_with gets_run. by rewrite H. Qed.

(** C5, as the code behaves.  One round of [Eval] on a Variable cell
    whose name is not bound writes the diagnostic and advances, but the
    cell it leaves is not the reference: [prev] was read from the table,
    where the name is absent, so the cell becomes the zero value [Var{}],
    a Number with a nil float. *)
Theorem unbound_variable_is_zeroed st pre c post :
  holds st (stack st) (pre ++ c :: post) →
  cursor st = Z.of_nat (length pre) →
  Typ c = TVariable → vars st ≫= (.!! V c) = None →
  ∃ st',
    step st = (Ok tt, st')
    ∧ holds st' (stack st') (pre ++ zeroVar :: post)
    ∧ out st' = Stderr "The variable doesn't exist" :: out st
    ∧ cursor st' = Z.of_nat (length pre) + 1
    ∧ vars st' = vars st.
Proof.
  intros H Hi Ht Hu.
  set (l := pre ++ c :: post) in *.
  assert (Hc : l !! length pre = Some c) by apply list_lookup_middle, eq_refl.
  assert (Hn : (length pre < length l)%nat) by (by eapply lookup_lt_Some).
  set (st1 := poke (stack st) (length pre) zeroVar st).
  assert (H1 : holds st1 (stack st1) (<[length pre := zeroVar]> l))
    by (by apply holds_poke).
  assert (Hc1 : <[length pre := zeroVar]> l !! length pre = Some zeroVar)
    by (by apply list_lookup_insert_eq).
  set (st2 := poke (stack st1) (length pre) zeroVar st1).
  assert (H2 : holds st2 (stack st2) (<[length pre := zeroVar]> (<[length pre := zeroVar]> l))).
  { apply holds_poke; [exact H1|]. by rewrite length_insert. }
  set (st3 := set_out (Stderr "The variable doesn't exist" :: out st2) st2).
  exists (set_cursor (cursor st3 + 1) st3).
  split; [|split; [|split; [|split]]].
  - apply step_run. unfold body.
    run_with gets_run. run_with (idx_ok st _ _ _ _ H Hi Hc). rewrite Ht.
    run_with (varsGet_unbound st _ Hu). run_with (varsGet_unbound st _ Hu).
    run_with (setIdx_ok st _ _ _ _ zeroVar H Hi Hc). fold st1.
    run_with (setIdx_ok st1 _ _ _ _ zeroVar H1 Hi Hc1). fold st2.
    reflexivity.
  - rewrite list_insert_insert_eq in H2. unfold l in H2.
    replace (length pre) with (length pre + 0)%nat in H2 at 1 by lia.
    rewrite insert_app_r in H2. exact H2.
  - reflexivity.
  - cbn. lia.
  - reflexivity.
Qed.

Lemma switch_cla : switch "cla" cases op_default = op_cla.
Proof. reflexivity. Qed.

Lemma loop_run fuel st :
  loop fuel st =
    if cursor st <? Z.of_nat (len (stack st)) then
      match fuel with
      | O => (OutOfFuel, st)
      | S fuel' => (step ;; loop fuel') st
      end
    else (Ok tt, st).
Proof.
  destruct fuel; cbn [loop]; rewrite bind_run, gets_run; cbv beta iota;
    unfold lenStack; rewrite !bind_run, gets_run; cbv beta iota;
    unfold mret, M_ret; cbv beta iota;
    destruct (cursor st <? Z.of_nat (len (stack st))); reflexivity.
Qed.

(** C8.  Whatever the stack, the variable table and the position of the
    cell, [Eval] entered at a cell [cla] returns an empty stack, an empty
    variable table and the cursor 0. *)
Theorem cla_clears_everything fuel st stk vs l n c :
  holds st stk l → l !! n = Some c →
  Typ c = TCode → V c = "cla" → is_Some (keyWords st !! "cla") →
  ∃ st' s',
    Eval (S fuel) stk vs (Z.of_nat n) st = (Ok (s', Some ∅, 0), st')
    ∧ len s' = 0%nat ∧ elems st' s' = [].
Proof.
  intros H Hc Ht Hv Hk.
  set (st0 := set_cursor (Z.of_nat n) (set_vars vs (set_stack stk st))).
  assert (H0 : holds st0 (stack st0) l) by exact H.
  assert (Hi : cursor st0 = Z.of_nat n) by reflexivity.
  assert (Hk' : is_Some (keyWords st0 !! V c)) by (by rewrite Hv).
  pose proof (body_keyword st0 l n c H0 Hi Hc Ht Hk') as Hbody.
  rewrite Hv, switch_cla in Hbody.
  set (st1 := opened st0 n c) in *.
  set (s' := Slice (length (arrays st1)) 0 0 0).
  set (st2 := set_cursor 0 (set_vars (Some ∅) (set_stack s'
                (set_arrays (arrays st1 ++ [[]]) st1)))).
  assert (Hcla : op_cla st1 = (Ok tt, st2)) by reflexivity.
  rewrite Hcla in Hbody.
  exists (set_cursor 1 st2), s'. split; [|split; [reflexivity|]].
  - unfold Eval. fold st0. rewrite loop_run.
    assert (Hlt : (cursor st0 <? Z.of_nat (len (stack st0))) = true).
    { apply Z.ltb_lt. apply lookup_lt_Some in Hc.
      destruct H as (_ & Hl & _). cbn. lia. }
    rewrite Hlt. run_with (step_run _ _ Hbody).
    rewrite loop_run. reflexivity.
  - unfold elems. cbn. by rewrite take_0.
Qed.



Lemma Eval_after_fault fuel stk vs ip st msg st1 :
  loop fuel (set_cursor ip (set_vars vs (set_stack stk st))) = (Panic msg, st1) →
  (∃ st', Eval fuel stk vs ip st = (Ok (nil_slice, None, 0), st'))
  ∨ (∃ msg' st', Eval fuel stk vs ip st = (Panic msg', st')).
Proof.
  intros H. unfold Eval. rewrite H. unfold deferred.
  destruct ((i ← gets cursor; idx i) st1) as [[?|?| |] ?]; eauto.
Qed.

Lemma Cmp_range a b : Cmp a b = -1 ∨ Cmp a b = 0 ∨ Cmp a b = 1.
Proof.
  unfold Cmp. destruct (ord a <? ord b); [auto|].
  destruct (ord b <? ord a); [auto|].
  destruct a as [|?|[] ? ?], b as [|?|? ? ?]; auto;
    match goal with |- context [ucmp ?a ?b ?c ?d] => destruct (ucmp a b c d); cbn; auto end.
Qed.

Lemma compare_run st on_neg on_pos on_zero pre cx cy cz post lx ly a b :
  holds st (stack st) (pre ++ cx :: cy :: cz :: post) →
  cursor st = Z.of_nat (length pre) + 2 →
  F cx = Some lx → F cy = Some ly →
  floats st !! lx = Some a → floats st !! ly = Some b →
  ∃ st', compare on_neg on_pos on_zero st = (Ok tt, st')
         ∧ holds st' (stack st')
             (pre ++ with_Typ TNumber
                       (with_F (Some (picked on_neg on_pos on_zero (Cmp b a))) cz) :: post)
         ∧ floats st' = floats st
         ∧ cursor st' = Z.of_nat (length pre)
         ∧ vars st' = vars st ∧ out st' = out st.
Proof.
  intros H Hi Hfx Hfy Hx Hy.
  set (l := pre ++ cx :: cy :: cz :: post) in *.
  assert (Hlx : l !! length pre = Some cx) by apply list_lookup_middle, eq_refl.
  assert (Hly : l !! S (length pre) = Some cy).
  { unfold l. rewrite lookup_app_r by lia.
    by replace (S (length pre) - length pre)%nat with 1%nat by lia. }
  assert (Hlz : l !! S (S (length pre)) = Some cz).
  { unfold l. rewrite lookup_app_r by lia.
    by replace (S (S (length pre)) - length pre)%nat with 2%nat by lia. }
  assert (Hi0 : cursor st - 2 = Z.of_nat (length pre)) by lia.
  assert (Hi1 : cursor st - 1 = Z.of_nat (S (length pre))) by lia.
  assert (Hi2 : cursor st = Z.of_nat (S (S (length pre)))) by lia.
  assert (Hlen : length l = (length pre + 3 + length post)%nat)
    by (unfold l; rewrite length_app; cbn; lia).
  set (p := picked on_neg on_pos on_zero (Cmp b a)).
  set (cz1 := with_F (Some p) cz).
  set (st1 := poke (stack st) (S (S (length pre))) cz1 st).
  set (l1 := <[S (S (length pre)) := cz1]> l).
  assert (H1 : holds st1 (stack st1) l1) by (apply holds_poke; [exact H | lia]).
  assert (Hlz1 : l1 !! S (S (length pre)) = Some cz1)
    by (apply list_lookup_insert_eq; lia).
  set (cz2 := with_Typ TNumber cz1).
  set (st2 := poke (stack st1) (S (S (length pre))) cz2 st1).
  set (l2 := <[S (S (length pre)) := cz2]> l1).
  assert (H2 : holds st2 (stack st2) l2)
    by (apply holds_poke; [exact H1 | unfold l1; rewrite length_insert; lia]).
  assert (Hlen2 : length l2 = length l) by (unfold l2, l1; by rewrite !length_insert).
  set (st3 := removed st2 l2 (length pre) (S (S (length pre)))).
  assert (H3 : holds st3 (stack st3) (take (length pre) l2 ++ drop (S (S (length pre))) l2)).
  { apply holds_removed; [exact H2|lia|lia]. }
  assert (Hset : (if Cmp b a =? -1 then updIdx (cursor st) (with_F (Some on_neg))
                  else if Cmp b a =? 1 then updIdx (cursor st) (with_F (Some on_pos))
                  else if Cmp b a =? 0 then updIdx (cursor st) (with_F (Some on_zero))
                  else mret tt) st = (Ok tt, st1)).
  { unfold st1, cz1, p, picked.
    destruct (Cmp_range b a) as [Hc|[Hc|Hc]]; rewrite Hc; cbn [Z.eqb];
      apply (updIdx_ok st _ _ _ _ _ H Hi2 Hlz). }
  exists (set_cursor (cursor st - 2) st3).
  split; [|split; [|split; [|split; [|split]]]].
  - unfold compare. run_with gets_run.
    assert (Hdbg : (idx (cursor st - 1) ;; idx (cursor st - 2)) st = (Ok cx, st)).
    { run_with (idx_ok st _ _ _ _ H Hi1 Hly). apply (idx_ok st _ _ _ _ H Hi0 Hlx). }
    run_with (dbg_pure _ _ _ Hdbg).
    run_with (idx_ok st _ _ _ _ H Hi1 Hly).
    run_with (idx_ok st _ _ _ _ H Hi0 Hlx).
    rewrite Hfx, Hfy.
    run_with (loadF_ok _ _ _ Hy). run_with (loadF_ok _ _ _ Hx).
    run_with Hset.
    assert (Hi2' : cursor st = Z.of_nat (S (S (length pre)))) by exact Hi2.
    run_with (updIdx_ok st1 _ _ _ _ (with_Typ TNumber) H1 Hi2' Hlz1). fold cz2 st2.
    run_with (removeStack_ok st2 l2 (cursor st) 2 (length pre) (S (S (length pre))) H2 Hi0 Hi2).
    + reflexivity.
    + lia.
    + lia.
  - assert (Hl2 : take (length pre) l2 ++ drop (S (S (length pre))) l2
                  = pre ++ cz2 :: post).
    { unfold l2, l1, l. rewrite list_insert_insert_eq.
      replace (S (S (length pre))) with (length pre + 2)%nat by lia.
      rewrite insert_app_r. cbn.
      rewrite take_app_length. rewrite drop_app_add. reflexivity. }
    rewrite <- Hl2. exact H3.
  - reflexivity.
  - cbn. lia.
  - reflexivity.
  - reflexivity.
Qed.

Lemma switch_lt : switch "<" cases op_default = compare One Zero Zero.
Proof. reflexivity. Qed.

(** What [<] does for any two operands: the cell it leaves points to
    [One] exactly when [Cmp] of the second operand against the first is
    -1, that is when the second operand is the smaller one. *)
Lemma less_than_table st pre cx cy cz post a b :
  holds st (stack st) (pre ++ cx :: cy :: cz :: post) →
  cursor st = Z.of_nat (length pre) + 2 →
  Typ cz = TCode → V cz = "<" → is_Some (keyWords st !! "<") →
  float_of st cx = Some a → float_of st cy = Some b →
  ∃ st' res,
    step st = (Ok tt, st')
    ∧ holds st' (stack st') (pre ++ res :: post)
    ∧ Typ res = TNumber
    ∧ F res = Some (if Cmp b a =? -1 then One else Zero)
    ∧ cursor st' = Z.of_nat (length pre) + 1.
Proof.
  intros H Hi Ht Hv Hk Hfa Hfb.
  destruct (float_of_Some _ _ _ Hfa) as (lx & Hfx & Hx).
  destruct (float_of_Some _ _ _ Hfb) as (ly & Hfy & Hy).
  set (l := pre ++ cx :: cy :: cz :: post) in *.
  set (n := S (S (length pre))).
  assert (Hlz : l !! n = Some cz).
  { unfold l, n. rewrite lookup_app_r by lia.
    by replace (S (S (length pre)) - length pre)%nat with 2%nat by lia. }
  assert (Hin : cursor st = Z.of_nat n) by (unfold n; lia).
  assert (Hk' : is_Some (keyWords st !! V cz)) by (by rewrite Hv).
  pose proof (body_keyword st l n cz H Hin Hlz Ht Hk') as Hbody.
  rewrite Hv, switch_lt in Hbody.
  set (cz1 := with_F (Some (length (floats st))) cz).
  assert (H1 : holds (opened st n cz) (stack (opened st n cz))
                     (pre ++ cx :: cy :: cz1 :: post)).
  { pose proof (holds_opened st l n cz H Hlz) as Ho.
    unfold l, n in Ho.
    replace (S (S (length pre))) with (length pre + 2)%nat in Ho at 3 by lia.
    rewrite insert_app_r in Ho. exact Ho. }
  assert (Hfl : floats (opened st n cz) = floats st ++ [FZero false]) by reflexivity.
  destruct (compare_run (opened st n cz) One Zero Zero pre cx cy cz1 post lx ly a b)
    as (st2 & Hrun & H2 & Hf2 & Hc2 & Hv2 & Ho2).
  { exact H1. }
  { exact Hi. }
  { exact Hfx. }
  { exact Hfy. }
  { rewrite Hfl. apply lookup_app_l_Some, Hx. }
  { rewrite Hfl. apply lookup_app_l_Some, Hy. }
  rewrite Hrun in Hbody.
  eexists _, _. split; [by apply step_run|].
  split; [exact H2|]. split; [reflexivity|]. split; [|cbn; lia].
  cbn. unfold picked.
  destruct (Cmp_range b a) as [Hc|[Hc|Hc]]; rewrite Hc; reflexivity.
Qed.

(** C2, at its failing input.  The comparisons call
    [stack[i-1].F.Cmp(stack[i-2].F)], the top of the stack first, so the
    operands are compared in reverse: [3 4 <] leaves the float [Zero] (the
    false constant) and [4 3 <] leaves [One] (the true constant); only a
    symmetric case such as [3 3 ==] comes out as the claim has it.  In each
    case both operands are consumed and one Number cell is left. *)
Theorem less_than_is_reversed :
  outcome (Eval 3 (Slice 0 0 3 3) (Some ∅) 0
             (store_of heap [numCell 3; numCell 4; codeCell "<"] (Some ∅) 0))
  = Some ([(TNumber, Some Zero, Some (FZero false))], 1, [], Some ∅)
  ∧ outcome (Eval 3 (Slice 0 0 3 3) (Some ∅) 0
             (store_of heap [numCell 4; numCell 3; codeCell "<"] (Some ∅) 0))
  = Some ([(TNumber, Some One, Some (ofZ 1))], 1, [], Some ∅)
  ∧ outcome (Eval 3 (Slice 0 0 3 3) (Some ∅) 0
             (store_of heap [numCell 3; numCell 3; codeCell "=="] (Some ∅) 0))
  = Some ([(TNumber, Some One, Some (ofZ 1))], 1, [], Some ∅).
Proof. repeat split; vm_compute; reflexivity. Qed.

(** C4, at its failing input.  On the cells [+ 3 4 +] the first [+] reads
    [stack[-2]] and panics.  The closures deferred in the loop run when
    [Eval] unwinds, not at the end of the round: the panic is recovered,
    the diagnostic is written, and [Eval] returns the zero values of its
    results, a nil stack, a nil variable table and the cursor 0.  The cells
    [3 4 +] that follow are not reduced. *)
Theorem fault_aborts_the_line :
  outcome (Eval 5 (Slice 0 0 4 4) (Some ∅) 0
             (store_of heap [codeCell "+"; numCell 3; numCell 4; codeCell "+"] (Some ∅) 0))
  = Some ([], 0, [Stdout "Recovered in "], None).
Proof. vm_compute. reflexivity. Qed.

(** C7, at the example of the claim.  [dupn] copies
    [stack[i-2-n : i-2]] onto [stack[:i-2]]: on [1 2 3 2 dupn] it leaves
    [1 2 1 2], not [1 2 3 2 3]; the value just below the count is lost and
    the two values before it are the ones repeated. *)
Theorem dupn_drops_the_top :
  outcome (Eval 6 (Slice 0 0 5 5) (Some ∅) 0
             (store_of heap [numCell 1; numCell 2; numCell 3; numCell 2; codeCell "dupn"]
                       (Some ∅) 0))
  = Some ([(TNumber, Some 1%nat, Some (ofZ 1)); (TNumber, Some 2%nat, Some (ofZ 2));
           (TNumber, Some 1%nat, Some (ofZ 1)); (TNumber, Some 2%nat, Some (ofZ 2))],
          4, [], Some ∅).
Proof. vm_compute. reflexivity. Qed.

(** C3, at its failing input.  [Parse] tests
    [lex[i][:len(lex[i])-1] == "="], the lexeme without its last byte, so
    the lexeme [x=] is never classified as an Assignment and registers no
    name, whatever the library scanners answer and whatever the store. *)
Theorem assignment_suffix_is_not_recognised st :
  ∃ cells st',
    Parse ["x="] st = (Ok (cells, ∅), st')
    ∧ Forall (λ c, Typ c ≠ TAssignment) cells.
Proof.
  unfold Parse, parseLoop, parseLexeme.
  change (getBase "x=") with
    (if negb (Sscanf_f "x=") && negb (Sscanf_i "x=") then 0 else 10).
  destruct (negb (Sscanf_f "x=") && negb (Sscanf_i "x=")).
  - change (0 =? 0) with true. cbv iota.
    change (String.eqb (butlast "x=") "=") with false. cbv iota.
    rewrite !bind_run. unfold isKeyword. rewrite bind_run, gets_run. cbv beta iota.
    unfold mret, M_ret.
    destruct (bool_decide (is_Some (keyWords st !! "x="))); cbv beta iota;
      eexists _, _; (split; [reflexivity|]); repeat constructor; done.
  - change (10 =? 0) with false. cbv iota.
    rewrite !bind_run, NewFloat_run. cbv beta iota.
    destruct (Float_Parse "x=" 10); rewrite ?bind_run, ?storeF_run; cbv beta iota;
      unfold mret, M_ret; eexists _, _; (split; [reflexivity|]); repeat constructor; done.
Qed.

(** C6, at its failing inputs.  [getBase] compares the first byte with
    the number 0, not with the digit ['0'], so for a lexeme that starts
    with the digit zero (every [0x], [0d], [0o], [0b] prefix) the answer is
    0 or 10, never the base of the prefix; and for [0x1F] the only number
    [Parse] can push is what the library parses from the whole lexeme in
    base 10. *)
Theorem base_prefix_is_never_taken :
  (∀ c rest, getBase (String "0" (String c rest)) = 0
             ∨ getBase (String "0" (String c rest)) = 10)
  ∧ (∀ st, ∃ cells st',
       Parse ["0x1F"] st = (Ok (cells, ∅), st')
       ∧ (cells = []
          ∨ ∃ c, cells = [c]
                 ∧ (Typ c = TNumber → float_of st' c = Float_Parse "0x1F" 10))).
Proof.
  split.
  - intros c rest. unfold getBase.
    change (Ascii.eqb "0" Ascii.zero) with false. cbv iota. cbn [andb].
    destruct (negb _ && negb _); auto.
  - intros st. unfold Parse, parseLoop, parseLexeme.
    change (getBase "0x1F") with
      (if negb (Sscanf_f "0x1F") && negb (Sscanf_i "0x1F") then 0 else 10).
    destruct (negb (Sscanf_f "0x1F") && negb (Sscanf_i "0x1F")).
    + change (0 =? 0) with true. cbv iota.
      change (String.eqb (butlast "0x1F") "=") with false. cbv iota.
      rewrite !bind_run. unfold isKeyword. rewrite bind_run, gets_run. cbv beta iota.
      unfold mret, M_ret.
      destruct (bool_decide (is_Some (keyWords st !! "0x1F"))); cbv beta iota;
        eexists _, _; (split; [reflexivity|]); right; eexists; (split; [reflexivity|]);
        cbn; done.
    + change (10 =? 0) with false. cbv iota.
      rewrite !bind_run, NewFloat_run. cbv beta iota.
      destruct (Float_Parse "0x1F" 10) as [v|]; rewrite ?bind_run, ?storeF_run;
        cbv beta iota; unfold mret, M_ret; eexists _, _; (split; [reflexivity|]).
      * right. eexists. split; [reflexivity|]. intros _.
        unfold float_of. cbn. apply list_lookup_insert_eq.
        rewrite length_app. cbn. lia.
      * by left.
Qed.

End Exec.

(** ** The statements above at concrete inputs *)

Lemma arith_exact_witness :
  let st := store_of heap [numCell 3; numCell 4; codeCell "+"] (Some ∅) 2 in
  (holds st (stack st) [numCell 3; numCell 4; codeCell "+"]
   ∧ arith_op "+" = Some Add
   ∧ float_of st (numCell 3) = Some (ofZ 3) ∧ float_of st (numCell 4) = Some (ofZ 4)
   ∧ Add (ofZ 3) (ofZ 4) = Some (ofZ 7))
  ∧ ∃ st' res,
      step (R:=sample_runtime) st = (Ok tt, st')
      ∧ holds st' (stack st') [res]
      ∧ Typ res = TNumber
      ∧ float_of st' res = Some (ofZ 7)
      ∧ cursor st' = 1
      ∧ vars st' = Some ∅
      ∧ (∀ x y z, int_value (ofZ 3) = Some x → int_value (ofZ 4) = Some y →
           exact_result "+" x y z → Z.abs z <= 2 ^ 53 → int_value (ofZ 7) = Some z).
Proof.
  intros st.
  assert (H : holds st (stack st) ([] ++ [numCell 3; numCell 4; codeCell "+"]))
    by (repeat split; cbn; lia).
  split; [repeat split; (reflexivity || (cbn; lia))|].
  apply (arith_exact_on_integers (R:=sample_runtime) st "+" Add [] (numCell 3) (numCell 4)
           (codeCell "+") [] (ofZ 3) (ofZ 4) (ofZ 7)).
  - exact H.
  - reflexivity.
  - reflexivity.
  - reflexivity.
  - exists "x". vm_compute. reflexivity.
  - reflexivity.
  - reflexivity.
  - reflexivity.
  - reflexivity.
Defined.

(** C1, at its failing inputs.  The operands are integers that their
    floats hold exactly, and the operator cell is reached with both
    before it.  [9007199254740992 1 +] leaves 9007199254740992 and not
    the sum 9007199254740993; [-9007199254740992 1 -] leaves
    -9007199254740992 and not the difference; [134217729 134217729 *]
    leaves 18014398777917440 and not the product 18014398777917441.  In
    each case the two operands are removed and one Number is left, but
    its float is the result rounded to the 53 bits that [big.NewFloat]
    gives every float of the program. *)
Theorem integer_results_are_rounded_to_53_bits (R : Runtime) :
  let fl := [FZero false; ofZ 1; ofZ (2 ^ 53); ofZ (- 2 ^ 53); ofZ 134217729] in
  (int_value (ofZ 1) = Some 1
   ∧ int_value (ofZ (2 ^ 53)) = Some (2 ^ 53)
   ∧ int_value (ofZ (- 2 ^ 53)) = Some (- 2 ^ 53)
   ∧ int_value (ofZ 134217729) = Some 134217729)
  ∧ (outcome (Eval 3 (Slice 0 0 3 3) (Some ∅) 0
                (store_of fl [numCell 2; numCell 1; codeCell "+"] (Some ∅) 0))
     = Some ([(TNumber, Some 5%nat, Some (FFin false 4503599627370496 1))], 1, [], Some ∅)
     ∧ int_value (FFin false 4503599627370496 1) = Some (2 ^ 53)
     ∧ 2 ^ 53 ≠ 2 ^ 53 + 1)
  ∧ (outcome (Eval 3 (Slice 0 0 3 3) (Some ∅) 0
                (store_of fl [numCell 3; numCell 1; codeCell "-"] (Some ∅) 0))
     = Some ([(TNumber, Some 5%nat, Some (FFin true 4503599627370496 1))], 1, [], Some ∅)
     ∧ int_value (FFin true 4503599627370496 1) = Some (- 2 ^ 53)
     ∧ - 2 ^ 53 ≠ - 2 ^ 53 - 1)
  ∧ (outcome (Eval 3 (Slice 0 0 3 3) (Some ∅) 0
                (store_of fl [numCell 4; numCell 4; codeCell "*"] (Some ∅) 0))
     = Some ([(TNumber, Some 5%nat, Some (FFin false 4503599694479360 2))], 1, [], Some ∅)
     ∧ int_value (FFin false 4503599694479360 2) = Some 18014398777917440
     ∧ 18014398777917440 ≠ 134217729 * 134217729).
Proof.
  intros fl. repeat split; try (vm_compute; reflexivity); vm_compute; discriminate.
Qed.

Lemma depth_witness :
  let st := store_of heap [numCell 1; numCell 2; codeCell "depth"; numCell 3] (Some ∅) 2 in
  holds st (stack st) ([numCell 1; numCell 2] ++ codeCell "depth" :: [numCell 3])
  ∧ ∃ st' p,
    step (R:=sample_runtime) st = (Ok tt, st')
    ∧ holds st' (stack st')
        ([numCell 1; numCell 2] ++ mkVar TNumber "depth" (Some p) [] nil_slice :: [numCell 3])
    ∧ floats st' !! p = Some (SetInt 2)
    ∧ (2 <= 2 ^ 53 → int_value (SetInt 2) = Some 2)
    ∧ cursor st' = 3
    ∧ len (stack st') = 4%nat
    ∧ vars st' = Some ∅.
Proof.
  intros st.
  assert (H : holds st (stack st) ([numCell 1; numCell 2] ++ codeCell "depth" :: [numCell 3]))
    by (repeat split; cbn; lia).
  split; [exact H|].
  apply (depth_pushes_cursor (R:=sample_runtime) st [numCell 1; numCell 2]
           (codeCell "depth") [numCell 3]).
  - exact H.
  - reflexivity.
  - reflexivity.
  - reflexivity.
  - exists "x". vm_compute. reflexivity.
Defined.

Lemma unbound_variable_witness :
  let st := store_of heap [numCell 1; varCell "y"] (Some ∅) 1 in
  (holds st (stack st) ([numCell 1] ++ varCell "y" :: [])
   ∧ vars st ≫= (.!! "y") = None)
  ∧ ∃ st',
    step (R:=sample_runtime) st = (Ok tt, st')
    ∧ holds st' (stack st') ([numCell 1] ++ zeroVar :: [])
    ∧ out st' = [Stderr "The variable doesn't exist"]
    ∧ cursor st' = 2
    ∧ vars st' = Some ∅.
Proof.
  intros st.
  assert (H : holds st (stack st) ([numCell 1] ++ varCell "y" :: []))
    by (repeat split; cbn; lia).
  split; [split; [exact H|reflexivity]|].
  apply (unbound_variable_is_zeroed (R:=sample_runtime) st [numCell 1] (varCell "y") []).
  - exact H.
  - reflexivity.
  - reflexivity.
  - reflexivity.
Defined.

Lemma cla_witness :
  let cells := [numCell 1; codeCell "cla"; numCell 2] in
  let st := store_of heap cells (Some ∅) 0 in
  (holds st (Slice 0 0 3 3) cells ∧ cells !! 1%nat = Some (codeCell "cla"))
  ∧ ∃ st' s',
    Eval (R:=sample_runtime) 1 (Slice 0 0 3 3) (Some (<["x" := numCell 2]> ∅)) 1 st
    = (Ok (s', Some ∅, 0), st')
    ∧ len s' = 0%nat ∧ elems st' s' = [].
Proof.
  intros cells st.
  assert (H : holds st (Slice 0 0 3 3) cells) by (repeat split; cbn; lia).
  split; [split; [exact H|reflexivity]|].
  apply (cla_clears_everything (R:=sample_runtime) 0 st (Slice 0 0 3 3)
           (Some (<["x" := numCell 2]> ∅)) cells 1 (codeCell "cla")).
  - exact H.
  - reflexivity.
  - reflexivity.
  - reflexivity.
  - exists "x". vm_compute. reflexivity.
Defined.

(** Whole lines, with the sample runtime. *)
Example assignment_round_trip_fails :
  outcome (session 10 [["1024"; "x="]; ["x"]])
  = Some ([(TNumber, Some 2%nat, Some (ofZ 1024)); (TNumber, None, None);
           (TNumber, None, None)], 3,
          [Stderr "The variable doesn't exist"; Stderr "The variable doesn't exist"],
          Some ∅).
Proof. vm_compute. reflexivity. Qed.

(** [3 4 +] typed on a line leaves 7. *)
Example three_four_plus :
  outcome (session 10 [["3"; "4"; "+"]])
  = Some ([(TNumber, Some 4%nat, Some (ofZ 7))], 1, [], Some ∅).
Proof. vm_compute. reflexivity. Qed.

(** [1 3 /] leaves the nearest float of 53 bits, which is no integer and
    not a third. *)
Example one_third_is_rounded :
  outcome (session 10 [["1"; "3"; "/"]])
  = Some ([(TNumber, Some 4%nat, Some (FFin false 6004799503160661 (-54)))], 1, [], Some ∅)
  ∧ 3 * 6004799503160661 ≠ 2 ^ 54.
Proof. split; [vm_compute; reflexivity | vm_compute; discriminate]. Qed.

(** The lexeme [==] is taken for an assignment to the name [=]: the line
    [3 3 ==] binds it to the second 3 and leaves the first. *)
Example double_equals_is_an_assignment :
  outcome (session 10 [["3"; "3"; "=="]])
  = Some ([(TNumber, Some 2%nat, Some (ofZ 3))], 1, [],
          Some {["=" := mkVar TNumber "" (Some 3%nat) [] nil_slice]}).
Proof. vm_compute. reflexivity. Qed.

(** * More facts: the other cases of [Eval], [remove], [Parse] and [getBase] *)

Section Operators.
Context {R : Runtime}.

Tactic Notation "run_with" uconstr(lem) := rewrite ?bind_run; rewrite lem; cbv beta iota.

(** ** Shared steps *)

Lemma lookup_at (pre : list Var) c post : (pre ++ c :: post) !! length pre = Some c.
Proof. apply list_lookup_middle, eq_refl. Qed.

Lemma lookup_before (pre : list Var) a c post :
  (pre ++ a :: c :: post) !! S (length pre) = Some c.
Proof.
  rewrite lookup_app_r by lia.
  by replace (S (length pre) - length pre)%nat with 1%nat by lia.
Qed.

Lemma lookup_before2 (pre : list Var) a b c post :
  (pre ++ a :: b :: c :: post) !! S (S (length pre)) = Some c.
Proof.
  rewrite lookup_app_r by lia.
  by replace (S (S (length pre)) - length pre)%nat with 2%nat by lia.
Qed.

Lemma insert_at (pre : list Var) c x post :
  <[length pre := x]> (pre ++ c :: post) = pre ++ x :: post.
Proof.
  replace (length pre) with (length pre + 0)%nat at 1 by lia.
  by rewrite insert_app_r.
Qed.

Lemma holds_opened_at st pre c post :
  holds st (stack st) (pre ++ c :: post) →
  holds (opened st (length pre) c) (stack (opened st (length pre) c))
        (pre ++ with_F (Some (length (floats st))) c :: post).
Proof.
  intros H. pose proof (holds_opened st _ _ c H (lookup_at pre c post)) as Ho.
  by rewrite insert_at in Ho.
Qed.

(** A round on a keyword: the statements of its [case] run in the store
    [opened], and [i++] follows. *)
Lemma keyword_step st pre c post name m st' :
  holds st (stack st) (pre ++ c :: post) →
  cursor st = Z.of_nat (length pre) →
  Typ c = TCode → V c = name → is_Some (keyWords st !! name) →
  switch name cases op_default = m →
  m (opened st (length pre) c) = (Ok tt, st') →
  step st = (Ok tt, set_cursor (cursor st' + 1) st').
Proof.
  intros H Hi Ht Hv Hk Hs Hm. apply step_run.
  rewrite (body_keyword st _ _ c H Hi (lookup_at pre c post) Ht) by (by rewrite Hv).
  by rewrite Hv, Hs.
Qed.

(** [stack = remove(stack, pos, k)] when the [k] cells before [pos] are
    [mid]. *)
Lemma removeStack_mid st pre mid post pos k :
  holds st (stack st) (pre ++ mid ++ post) →
  pos = Z.of_nat (length pre + length mid) → k = Z.of_nat (length mid) →
  removeStack pos k st
  = (Ok tt, removed st (pre ++ mid ++ post) (length pre) (length pre + length mid)).
Proof.
  intros H -> ->. apply removeStack_ok; try done; try lia.
  rewrite !length_app. lia.
Qed.

Lemma holds_removed_mid st pre mid post :
  holds st (stack st) (pre ++ mid ++ post) →
  holds (removed st (pre ++ mid ++ post) (length pre) (length pre + length mid))
        (stack (removed st (pre ++ mid ++ post) (length pre) (length pre + length mid)))
        (pre ++ post).
Proof.
  intros H.
  pose proof (holds_removed st _ (length pre) (length pre + length mid) H) as Hr.
  rewrite take_app_length in Hr. rewrite drop_app_add in Hr.
  rewrite drop_app_length in Hr. apply Hr; [lia|]. rewrite !length_app. lia.
Qed.

Lemma idx_at st pre c post k :
  holds st (stack st) (pre ++ c :: post) → k = Z.of_nat (length pre) →
  idx k st = (Ok c, st).
Proof. intros H Hk. exact (idx_ok st _ _ _ _ H Hk (lookup_at pre c post)). Qed.

Lemma updIdx_at st pre c post k f :
  holds st (stack st) (pre ++ c :: post) → k = Z.of_nat (length pre) →
  updIdx k f st = (Ok tt, poke (stack st) (length pre) (f c) st).
Proof. intros H Hk. exact (updIdx_ok st _ _ _ _ f H Hk (lookup_at pre c post)). Qed.

Lemma setIdx_at st pre c post k x :
  holds st (stack st) (pre ++ c :: post) → k = Z.of_nat (length pre) →
  setIdx k x st = (Ok tt, poke (stack st) (length pre) x st).
Proof. intros H Hk. exact (setIdx_ok st _ _ _ _ x H Hk (lookup_at pre c post)). Qed.

Lemma holds_poke_at st pre c post x :
  holds st (stack st) (pre ++ c :: post) →
  holds (poke (stack st) (length pre) x st) (stack st) (pre ++ x :: post).
Proof.
  intros H. rewrite <- (insert_at pre c x post).
  apply (holds_poke st (stack st) _ (length pre) x H).
  rewrite length_app. cbn. lia.
Qed.

Lemma dbg_idx st l k n v :
  holds st (stack st) l → k = Z.of_nat n → l !! n = Some v →
  dbg (idx k) st = (Ok tt, st).
Proof. intros H Hk Hl. exact (dbg_pure _ _ _ (idx_ok st _ _ _ _ H Hk Hl)). Qed.

Lemma dbg_idx2 st l k1 k2 n1 n2 v1 v2 :
  holds st (stack st) l →
  k1 = Z.of_nat n1 → l !! n1 = Some v1 →
  k2 = Z.of_nat n2 → l !! n2 = Some v2 →
  dbg (idx k1 ;; idx k2) st = (Ok tt, st).
Proof.
  intros H Hk1 Hl1 Hk2 Hl2. apply (dbg_pure _ _ v2).
  run_with (idx_ok st _ _ _ _ H Hk1 Hl1). exact (idx_ok st _ _ _ _ H Hk2 Hl2).
Qed.

Lemma Float_Neg_ok st l a :
  floats st !! l = Some a →
  Float_Neg (Some l) (Some l) st = (Ok tt, set_floats (<[l := Neg a]> (floats st)) st).
Proof.
  intros Ha. unfold Float_Neg.
  run_with (loadF_ok _ _ _ Ha). run_with (loadF_ok _ _ _ Ha). apply storeF_run.
Qed.

Lemma dbg_idx2_at st pre a b post k1 k2 :
  holds st (stack st) (pre ++ a :: b :: post) →
  k1 = Z.of_nat (length pre) ∨ k1 = Z.of_nat (length pre) + 1 →
  k2 = Z.of_nat (length pre) ∨ k2 = Z.of_nat (length pre) + 1 →
  dbg (idx k1 ;; idx k2) st = (Ok tt, st).
Proof.
  intros H [Hk1|Hk1] [Hk2|Hk2].
  - exact (dbg_idx2 st _ _ _ _ _ _ _ H Hk1 (lookup_at _ _ _) Hk2 (lookup_at _ _ _)).
  - assert (Hk2' : k2 = Z.of_nat (S (length pre))) by lia.
    exact (dbg_idx2 st _ _ _ _ _ _ _ H Hk1 (lookup_at _ _ _) Hk2' (lookup_before _ _ _ _)).
  - assert (Hk1' : k1 = Z.of_nat (S (length pre))) by lia.
    exact (dbg_idx2 st _ _ _ _ _ _ _ H Hk1' (lookup_before _ _ _ _) Hk2 (lookup_at _ _ _)).
  - assert (Hk1' : k1 = Z.of_nat (S (length pre))) by lia.
    assert (Hk2' : k2 = Z.of_nat (S (length pre))) by lia.
    exact (dbg_idx2 st _ _ _ _ _ _ _ H Hk1' (lookup_before _ _ _ _) Hk2' (lookup_before _ _ _ _)).
Qed.

Lemma dbg_idx_at st pre c post k :
  holds st (stack st) (pre ++ c :: post) → k = Z.of_nat (length pre) →
  dbg (idx k) st = (Ok tt, st).
Proof. intros H Hk. exact (dbg_idx st _ _ _ _ H Hk (lookup_at pre c post)). Qed.

(** The same cells under two bracketings. *)
Ltac reshape H :=
  first [exact H | rewrite <- ?app_assoc; rewrite <- ?app_assoc in H; exact H].

(** Positions: the cursor against the length of the cells before it. *)
Ltac pos := cbn; rewrite ?length_app; cbn; lia.

Lemma Float_Int64_ok st l a :
  floats st !! l = Some a → Float_Int64 (Some l) st = (Ok (Int64 a), st).
Proof. intros Ha. unfold Float_Int64. by run_with (loadF_ok _ _ _ Ha). Qed.

Lemma Float_Uint64_ok st l a :
  floats st !! l = Some a → Float_Uint64 (Some l) st = (Ok (Uint64 a), st).
Proof. intros Ha. unfold Float_Uint64. by run_with (loadF_ok _ _ _ Ha). Qed.

Lemma varsGet_bound st k v :
  vars st ≫= (.!! k) = Some v → varsGet k st = (Ok (v, true), st).
Proof. intros Hv. unfold varsGet. run_with gets_run. by rewrite Hv. Qed.

Lemma modify_run f st : modify f st = (Ok tt, f st).
Proof. reflexivity. Qed.

Lemma Float_Int_ok st l a z :
  floats st !! l = Some a → Int a = Some z → Float_Int (Some l) st = (Ok z, st).
Proof. intros Ha Hz. unfold Float_Int. run_with (loadF_ok _ _ _ Ha). by rewrite Hz. Qed.

Lemma Float_SetInt_ok st l a z :
  floats st !! l = Some a →
  Float_SetInt (Some l) z st = (Ok tt, set_floats (<[l := SetInt z]> (floats st)) st).
Proof. intros Ha. unfold Float_SetInt. run_with (loadF_ok _ _ _ Ha). apply storeF_run. Qed.

(** The statements that close most cases: the operator cell becomes a
    Number, the operands [mid] before it are removed, and the cursor moves
    back by their number. *)
Lemma finish_op st pre mid c post i k :
  holds st (stack st) (pre ++ mid ++ c :: post) →
  i = Z.of_nat (length pre + length mid) → k = Z.of_nat (length mid) →
  ∃ st',
    (updIdx i (with_Typ TNumber) ;; removeStack i k ;; setCursor (i - k)) st = (Ok tt, st')
    ∧ holds st' (stack st') (pre ++ with_Typ TNumber c :: post)
    ∧ cursor st' = Z.of_nat (length pre)
    ∧ floats st' = floats st ∧ vars st' = vars st ∧ keyWords st' = keyWords st.
Proof.
  intros H Hi Hk.
  assert (H' : holds st (stack st) ((pre ++ mid) ++ c :: post)) by reshape H.
  pose proof (holds_poke_at _ _ c _ (with_Typ TNumber c) H') as H1.
  assert (H1' : holds (poke (stack st) (length (pre ++ mid)) (with_Typ TNumber c) st)
                  (stack (poke (stack st) (length (pre ++ mid)) (with_Typ TNumber c) st))
                  (pre ++ mid ++ with_Typ TNumber c :: post)) by reshape H1.
  eexists. split; [|split; [|split; [|split; [|split]]]].
  - run_with (updIdx_at _ _ _ _ _ (with_Typ TNumber) H'); [|pos].
    run_with (removeStack_mid _ _ _ _ _ _ H1'); [apply setCursor_run|pos|pos].
  - exact (holds_removed_mid _ _ _ _ H1').
  - pos.
  - reflexivity.
  - reflexivity.
  - reflexivity.
Qed.

(** ** [remove] *)

(** [remove(stack, pos, n)] with the [n] cells before [pos] inside the
    stack: they are cut out, and the result lives in the array of the
    argument, whose cells after the cut have been moved down. *)
Theorem remove_cuts_a_window st s pre mid post :
  holds st s (pre ++ mid ++ post) →
  ∃ s' st',
    remove s (Z.of_nat (length pre + length mid)) (Z.of_nat (length mid)) st = (Ok s', st')
    ∧ holds st' s' (pre ++ post)
    ∧ arr s' = arr s ∧ off s' = off s ∧ cap s' = cap s
    ∧ floats st' = floats st.
Proof.
  intros H.
  pose proof (remove_ok st s _ (Z.of_nat (length pre + length mid)) (Z.of_nat (length mid))
                (length pre) (length pre + length mid) H) as Hr.
  pose proof (remove_holds st s _ (length pre) (length pre + length mid) H) as Hh.
  assert (Hd : drop (length pre + length mid) (pre ++ mid ++ post) = post)
    by (by rewrite drop_app_add, drop_app_length).
  rewrite take_app_length, Hd in Hh. rewrite Hd in Hr.
  eexists _, _. split; [apply Hr; try lia; rewrite !length_app; lia|].
  split; [apply Hh; [lia|rewrite !length_app; lia]|]. done.
Qed.

(** [remove] faults exactly when the start of the cut is outside
    [0..cap] or its end outside [0..len]; a negative count is no fault by
    itself.  The store is untouched by the fault. *)
Theorem remove_faults_outside_the_stack st s pos n :
  (len s ≤ cap s)%nat →
  (∃ msg, remove s pos n st = (Panic msg, st))
  ↔ (pos - n < 0 ∨ Z.of_nat (cap s) < pos - n ∨ pos < 0 ∨ Z.of_nat (len s) < pos).
Proof.
  intros Hc. unfold remove, upto, from, sub. rewrite bind_run.
  destruct ((0 <=? 0) && (0 <=? pos - n) && (pos - n <=? Z.of_nat (cap s))) eqn:E1.
  - apply andb_prop in E1 as [E1 E1c]. apply andb_prop in E1 as [_ E1b].
    apply Z.leb_le in E1b, E1c.
    unfold mret at 1, M_ret at 1. cbv beta iota. rewrite bind_run.
    destruct ((0 <=? pos) && (pos <=? Z.of_nat (len s))
              && (Z.of_nat (len s) <=? Z.of_nat (cap s))) eqn:E2.
    + apply andb_prop in E2 as [E2 _]. apply andb_prop in E2 as [E2a E2b].
      apply Z.leb_le in E2a, E2b.
      unfold mret at 1, M_ret at 1. cbv beta iota.
      split; [|lia]. intros [msg Hp]. exfalso. revert Hp.
      unfold append. rewrite bind_run. unfold get at 1. cbv beta iota.
      unfold appendList.
      match goal with |- context [if ?b then _ else _] => destruct b end;
        rewrite bind_run; cbn; discriminate.
    + split; [intros _|intros _; by eexists].
      apply andb_false_iff in E2 as [E2|E2];
        [apply andb_false_iff in E2 as [E2|E2]|]; apply Z.leb_gt in E2; lia.
  - split; [intros _|intros _; by eexists].
    apply andb_false_iff in E1 as [E1|E1];
      [apply andb_false_iff in E1 as [E1|E1]|]; apply Z.leb_gt in E1; lia.
Qed.

(** ** Cells dropped, exchanged and copied *)

Lemma switch_drop : switch "drop" cases op_default = op_drop.
Proof. reflexivity. Qed.

(** [drop] removes the cell before it and itself, and moves the cursor
    back by one only: the round after it starts one cell too far, at the
    second cell that followed the operator. *)
Theorem drop_skips_the_next_cell st pre a c post :
  holds st (stack st) (pre ++ a :: c :: post) →
  cursor st = Z.of_nat (length pre) + 1 →
  Typ c = TCode → V c = "drop" → is_Some (keyWords st !! "drop") →
  ∃ st',
    step st = (Ok tt, st')
    ∧ holds st' (stack st') (pre ++ post)
    ∧ cursor st' = Z.of_nat (length pre) + 1
    ∧ vars st' = vars st
    ∧ floats st' = floats st ++ [FZero false].
Proof.
  intros H Hi Ht Hv Hk.
  assert (H' : holds st (stack st) ((pre ++ [a]) ++ c :: post))
    by (by rewrite <- app_assoc).
  assert (Hi' : cursor st = Z.of_nat (length (pre ++ [a])))
    by (rewrite length_app; cbn; lia).
  pose proof (holds_opened_at st _ c post H') as Ho.
  set (st1 := opened st (length (pre ++ [a])) c) in *.
  set (c1 := with_F _ c) in Ho.
  assert (Ho' : holds st1 (stack st1) (pre ++ [a; c1] ++ post))
    by (rewrite <- app_assoc in Ho; exact Ho).
  eexists. split; [|split; [|split; [|split]]].
  - eapply (keyword_step st _ c post "drop" op_drop);
      [exact H'|exact Hi'|done|done|done|reflexivity|].
    fold st1. unfold op_drop. run_with gets_run.
    run_with (removeStack_mid st1 pre [a; c1] post _ _ Ho').
    + apply setCursor_run.
    + change (cursor st1) with (cursor st). cbn. lia.
    + reflexivity.
  - exact (holds_removed_mid st1 pre [a; c1] post Ho').
  - change (cursor st - 1 + 1 = Z.of_nat (length pre) + 1). lia.
  - reflexivity.
  - reflexivity.
Qed.

Lemma switch_swap : switch "swap" cases op_default = op_swap.
Proof. reflexivity. Qed.

(** [swap] exchanges the two cells before it and removes itself, without
    moving the cursor back: the cell that followed the operator is
    skipped. *)
Theorem swap_skips_the_next_cell st pre a b c post :
  holds st (stack st) (pre ++ a :: b :: c :: post) →
  cursor st = Z.of_nat (length pre) + 2 →
  Typ c = TCode → V c = "swap" → is_Some (keyWords st !! "swap") →
  ∃ st',
    step st = (Ok tt, st')
    ∧ holds st' (stack st') (pre ++ b :: a :: post)
    ∧ cursor st' = Z.of_nat (length pre) + 3
    ∧ vars st' = vars st
    ∧ floats st' = floats st ++ [FZero false].
Proof.
  intros H Hi Ht Hv Hk.
  assert (H' : holds st (stack st) ((pre ++ [a; b]) ++ c :: post)) by reshape H.
  pose proof (holds_opened_at st _ c post H') as Ho.
  set (c1 := with_F _ c) in Ho.
  assert (H1 : holds _ _ (pre ++ a :: b :: c1 :: post)) by reshape Ho.
  assert (H1b : holds _ _ ((pre ++ [a]) ++ b :: c1 :: post)) by reshape Ho.
  pose proof (holds_poke_at _ pre a _ b H1) as H2.
  assert (H2b : holds _ _ ((pre ++ [b]) ++ b :: c1 :: post)) by reshape H2.
  pose proof (holds_poke_at _ _ b _ a H2b) as H3.
  assert (H3b : holds _ _ ((pre ++ [b; a]) ++ [c1] ++ post)) by reshape H3.
  eexists. split; [|split; [|split; [|split]]].
  - eapply (keyword_step st _ c post "swap" op_swap);
      [exact H'|pos|done|done|done|reflexivity|].
    unfold op_swap. run_with gets_run.
    run_with (dbg_idx2_at _ _ _ _ _ _ _ H1); [|pos|pos].
    run_with (idx_at _ _ _ _ _ H1); [|pos].
    run_with (idx_at _ _ _ _ _ H1b); [|pos].
    run_with (setIdx_at _ _ _ _ _ b H1); [|pos].
    run_with (setIdx_at _ _ _ _ _ a H2b); [|pos].
    rewrite (removeStack_mid _ _ _ _ _ _ H3b); [reflexivity|pos|pos].
  - pose proof (holds_removed_mid _ _ _ _ H3b) as Hr. reshape Hr.
  - pos.
  - reflexivity.
  - reflexivity.
Qed.

Lemma switch_dup : switch "dup" cases op_default = op_dup.
Proof. reflexivity. Qed.

(** [dup] overwrites its own cell with the cell before it: the copy is
    the same cell, with the same pointer to the same float. *)
Theorem dup_copies_the_cell st pre a c post :
  holds st (stack st) (pre ++ a :: c :: post) →
  cursor st = Z.of_nat (length pre) + 1 →
  Typ c = TCode → V c = "dup" → is_Some (keyWords st !! "dup") →
  ∃ st',
    step st = (Ok tt, st')
    ∧ holds st' (stack st') (pre ++ a :: a :: post)
    ∧ cursor st' = Z.of_nat (length pre) + 2
    ∧ vars st' = vars st
    ∧ floats st' = floats st ++ [FZero false].
Proof.
  intros H Hi Ht Hv Hk.
  assert (H' : holds st (stack st) ((pre ++ [a]) ++ c :: post)) by reshape H.
  pose proof (holds_opened_at st _ c post H') as Ho.
  set (c1 := with_F _ c) in Ho.
  assert (H1 : holds _ _ (pre ++ a :: c1 :: post)) by reshape Ho.
  pose proof (holds_poke_at _ _ c1 _ a Ho) as H2.
  eexists. split; [|split; [|split; [|split]]].
  - eapply (keyword_step st _ c post "dup" op_dup);
      [exact H'|pos|done|done|done|reflexivity|].
    unfold op_dup. run_with gets_run.
    run_with (dbg_idx2_at _ _ _ _ _ _ _ H1); [|pos|pos].
    run_with (idx_at _ _ _ _ _ H1); [|pos].
    rewrite (setIdx_at _ _ _ _ _ a Ho); [reflexivity|pos].
  - reshape H2.
  - pos.
  - reflexivity.
  - reflexivity.
Qed.

Lemma switch_dropn : switch "dropn" cases op_default = op_dropn.
Proof. reflexivity. Qed.

(** [dropn] removes the [n] cells before the count, the count and
    itself, and moves the cursor back by [n] only: the two cells that
    followed the operator are skipped. *)
Theorem dropn_skips_two_cells st pre vals cnt c post f :
  holds st (stack st) (pre ++ vals ++ cnt :: c :: post) →
  cursor st = Z.of_nat (length pre + length vals) + 1 →
  Typ c = TCode → V c = "dropn" → is_Some (keyWords st !! "dropn") →
  float_of st cnt = Some f → Int64 f = Z.of_nat (length vals) →
  ∃ st',
    step st = (Ok tt, st')
    ∧ holds st' (stack st') (pre ++ post)
    ∧ cursor st' = Z.of_nat (length pre) + 2
    ∧ vars st' = vars st
    ∧ floats st' = floats st ++ [FZero false].
Proof.
  intros H Hi Ht Hv Hk Hf Hn.
  destruct (float_of_Some _ _ _ Hf) as (l & Hl & Hx).
  assert (H' : holds st (stack st) ((pre ++ vals ++ [cnt]) ++ c :: post)) by reshape H.
  pose proof (holds_opened_at st _ c post H') as Ho.
  set (c1 := with_F _ c) in Ho.
  assert (H1 : holds _ _ ((pre ++ vals) ++ cnt :: c1 :: post)) by reshape Ho.
  assert (H1b : holds _ _ (pre ++ (vals ++ [cnt; c1]) ++ post)) by reshape Ho.
  eexists. split; [|split; [|split; [|split]]].
  - eapply (keyword_step st _ c post "dropn" op_dropn);
      [exact H'|pos|done|done|done|reflexivity|].
    unfold op_dropn. run_with gets_run.
    run_with (dbg_idx_at _ _ _ _ _ H1); [|pos].
    run_with (idx_at _ _ _ _ _ H1); [|pos].
    rewrite Hl.
    assert (Hx1 : floats (opened st (length (pre ++ vals ++ [cnt])) c) !! l = Some f)
      by (by apply lookup_app_l_Some).
    run_with (Float_Int64_ok _ _ _ Hx1). rewrite Hn.
    run_with (removeStack_mid _ _ _ _ _ _ H1b); [apply setCursor_run|pos|pos].
  - exact (holds_removed_mid _ _ _ _ H1b).
  - pos.
  - reflexivity.
  - reflexivity.
Qed.

(** ** Operators that work in place *)

Lemma switch_mode name :
  name ∈ ["hex"; "dec"; "bin"; "oct"] → switch name cases op_default = modeop name.
Proof. intros Hn. repeat (apply elem_of_cons in Hn as [->|Hn]; [reflexivity|]).
  by apply elem_of_nil in Hn. Qed.

(** [hex], [dec], [bin] and [oct] set [Mode] to their own name and remove
    only their own cell; the round after them looks at the cell that
    followed. *)
Theorem mode_switch_sets_Mode st name pre c post :
  holds st (stack st) (pre ++ c :: post) →
  cursor st = Z.of_nat (length pre) →
  Typ c = TCode → V c = name → is_Some (keyWords st !! name) →
  name ∈ ["hex"; "dec"; "bin"; "oct"] →
  ∃ st',
    step st = (Ok tt, st')
    ∧ Mode st' = name
    ∧ holds st' (stack st') (pre ++ post)
    ∧ cursor st' = Z.of_nat (length pre)
    ∧ vars st' = vars st.
Proof.
  intros H Hi Ht Hv Hk Hn.
  pose proof (holds_opened_at st _ c post H) as Ho.
  set (c1 := with_F _ c) in Ho.
  assert (H1 : holds (set_Mode name (opened st (length pre) c))
                 (stack (set_Mode name (opened st (length pre) c)))
                 (pre ++ [c1] ++ post)) by exact Ho.
  eexists. split; [|split; [|split; [|split]]].
  - eapply (keyword_step st _ c post name (modeop name));
      [exact H|pos|done|done|done|by apply switch_mode|].
    unfold modeop. run_with gets_run.
    run_with modify_run.
    run_with (removeStack_mid _ _ _ _ _ _ H1); [apply setCursor_run|pos|pos].
  - reflexivity.
  - exact (holds_removed_mid _ _ _ _ H1).
  - pos.
  - reflexivity.
Qed.

Lemma switch_not : switch "!" cases op_default = op_not.
Proof. reflexivity. Qed.

(** [!] negates the float of the cell before it, through the pointer:
    every cell that shares the float sees the negated value.  It is the
    arithmetic negation: an integer [z] becomes [-z]. *)
Theorem not_negates_in_place st pre a c post l x :
  holds st (stack st) (pre ++ a :: c :: post) →
  cursor st = Z.of_nat (length pre) + 1 →
  Typ c = TCode → V c = "!" → is_Some (keyWords st !! "!") →
  F a = Some l → floats st !! l = Some x →
  ∃ st',
    step st = (Ok tt, st')
    ∧ holds st' (stack st') (pre ++ a :: post)
    ∧ floats st' = <[l := Neg x]> (floats st ++ [FZero false])
    ∧ (∀ c', F c' = Some l → float_of st' c' = Some (Neg x))
    ∧ (∀ z, int_value x = Some z → int_value (Neg x) = Some (- z))
    ∧ cursor st' = Z.of_nat (length pre) + 1
    ∧ vars st' = vars st.
Proof.
  intros H Hi Ht Hv Hk Hl Hx.
  assert (H' : holds st (stack st) ((pre ++ [a]) ++ c :: post)) by reshape H.
  pose proof (holds_opened_at st _ c post H') as Ho.
  set (c1 := with_F _ c) in Ho. set (st1 := opened st (length (pre ++ [a])) c) in *.
  assert (H1 : holds st1 (stack st1) (pre ++ a :: c1 :: post)) by reshape Ho.
  assert (Hx1 : floats st1 !! l = Some x) by (by apply lookup_app_l_Some).
  set (st2 := set_floats (<[l := Neg x]> (floats st1)) st1).
  assert (H2 : holds st2 (stack st2) ((pre ++ [a]) ++ [c1] ++ post)) by reshape Ho.
  eexists. split; [|split; [|split; [|split; [|split; [|split]]]]].
  - eapply (keyword_step st _ c post "!" op_not);
      [exact H'|pos|done|done|done|reflexivity|].
    fold st1. unfold op_not. run_with gets_run.
    run_with (dbg_idx_at _ _ _ _ _ H1); [|pos].
    run_with (idx_at _ _ _ _ _ H1); [|pos].
    rewrite Hl. run_with (Float_Neg_ok _ _ _ Hx1). fold st2.
    run_with (removeStack_mid _ _ _ _ _ _ H2); [apply setCursor_run|pos|pos].
  - pose proof (holds_removed_mid _ _ _ _ H2) as Hr. reshape Hr.
  - reflexivity.
  - intros c' Hc'. unfold float_of. rewrite Hc'. cbn.
    apply list_lookup_insert_eq. by eapply lookup_lt_Some.
  - apply int_value_Neg.
  - pos.
  - reflexivity.
Qed.

Lemma switch_incdec name op :
  incdec_op name = Some op → switch name cases op_default = incdec op.
Proof.
  unfold incdec_op.
  destruct (String.eqb_spec name "++") as [->|_]; [by intros [= <-]|].
  destruct (String.eqb_spec name "--") as [->|_]; [by intros [= <-]|done].
Qed.

(** [++] and [--] add and subtract one in the float of the cell before
    them, through the pointer; the cell stays where it is, and every cell
    or variable that shares the float (a copy made by [dup], the value of
    a variable, the constants [Zero] and [One]) sees the new value. *)
Theorem incdec_changes_the_float_in_place st name op pre a c post l x r :
  holds st (stack st) (pre ++ a :: c :: post) →
  cursor st = Z.of_nat (length pre) + 1 →
  Typ c = TCode → V c = name → is_Some (keyWords st !! name) →
  incdec_op name = Some op →
  F a = Some l → floats st !! l = Some x → op x (ofZ 1) = Some r →
  ∃ st',
    step st = (Ok tt, st')
    ∧ holds st' (stack st') (pre ++ a :: post)
    ∧ floats st' = <[l := r]> (floats st ++ [FZero false; ofZ 1])
    ∧ (∀ c', F c' = Some l → float_of st' c' = Some r)
    ∧ cursor st' = Z.of_nat (length pre) + 1
    ∧ vars st' = vars st.
Proof.
  intros H Hi Ht Hv Hk Hop Hl Hx Hr.
  assert (H' : holds st (stack st) ((pre ++ [a]) ++ c :: post)) by reshape H.
  pose proof (holds_opened_at st _ c post H') as Ho.
  set (c1 := with_F _ c) in Ho. set (st1 := opened st (length (pre ++ [a])) c) in *.
  assert (H1 : holds st1 (stack st1) (pre ++ a :: c1 :: post)) by reshape Ho.
  set (st2 := set_floats (floats st1 ++ [ofZ 1]) st1).
  assert (Hx2 : floats st2 !! l = Some x) by (by do 2 apply lookup_app_l_Some).
  assert (H1' : floats st2 !! length (floats st1) = Some (ofZ 1)).
  { cbn. rewrite lookup_app_r by lia. by rewrite Nat.sub_diag. }
  set (st3 := set_floats (<[l := r]> (floats st2)) st2).
  assert (H3 : holds st3 (stack st3) ((pre ++ [a]) ++ [c1] ++ post)) by reshape Ho.
  eexists. split; [|split; [|split; [|split; [|split]]]].
  - eapply (keyword_step st _ c post name (incdec op));
      [exact H'|pos|done|done|done|by apply switch_incdec|].
    fold st1. unfold incdec. run_with gets_run.
    run_with (dbg_idx_at _ _ _ _ _ H1); [|pos].
    run_with (idx_at _ _ _ _ _ H1); [|pos].
    run_with NewFloat_run. fold st2.
    rewrite Hl. run_with (Float_op_ok st2 op l l _ x x (ofZ 1) r Hx2 Hx2 H1' Hr). fold st3.
    run_with (removeStack_mid _ _ _ _ _ _ H3); [apply setCursor_run|pos|pos].
  - pose proof (holds_removed_mid _ _ _ _ H3) as Hr'. reshape Hr'.
  - cbn. by rewrite <- app_assoc.
  - intros c' Hc'. unfold float_of. rewrite Hc'. cbn.
    apply list_lookup_insert_eq. rewrite !length_app. apply lookup_lt_Some in Hx. lia.
  - pos.
  - reflexivity.
Qed.

(** ** Names and the variable table *)

(** An Assignment cell binds its name to the cell before it and removes
    both, without moving the cursor back: the two cells that followed are
    skipped.  On a nil table the round faults. *)
Theorem assignment_binds_and_skips st pre v c post :
  holds st (stack st) (pre ++ v :: c :: post) →
  cursor st = Z.of_nat (length pre) + 1 →
  Typ c = TAssignment →
  match vars st with
  | Some m =>
      ∃ st',
        step st = (Ok tt, st')
        ∧ vars st' = Some (<[V c := v]> m)
        ∧ holds st' (stack st') (pre ++ post)
        ∧ cursor st' = Z.of_nat (length pre) + 2
        ∧ floats st' = floats st
  | None => step st = (Panic "assignment to entry in nil map", st)
  end.
Proof.
  intros H Hi Ht.
  assert (H' : holds st (stack st) ((pre ++ [v]) ++ c :: post)) by reshape H.
  assert (Hb : body st = (x ← idx (cursor st - 1); varsSet (V c) x ;;
                          removeStack (cursor st + 1) 2) st).
  { unfold body. run_with gets_run. run_with (idx_at _ _ _ _ _ H'); [|pos].
    by rewrite Ht. }
  destruct (vars st) as [m|] eqn:Hm.
  - set (st1 := set_vars (Some (<[V c := v]> m)) st).
    assert (H1 : holds st1 (stack st1) (pre ++ [v; c] ++ post)) by exact H.
    eexists. split; [|split; [|split; [|split]]].
    + apply step_run. rewrite Hb.
      run_with (idx_at _ _ _ _ _ H); [|pos].
      unfold varsSet. run_with gets_run. rewrite Hm. run_with modify_run. fold st1.
      rewrite (removeStack_mid _ _ _ _ _ _ H1); [reflexivity|pos|pos].
    + reflexivity.
    + exact (holds_removed_mid _ _ _ _ H1).
    + pos.
    + reflexivity.
  - unfold step. rewrite bind_run, Hb.
    run_with (idx_at _ _ _ _ _ H); [|pos].
    unfold varsSet. run_with gets_run. by rewrite Hm.
Qed.

(** A Variable cell, or a Code cell whose name is no keyword, is replaced
    by the cell bound to its name, and the cursor stays: the next round
    examines the cell put there.  The cell is the one stored in the table,
    with its pointer to the same float. *)
Theorem bound_name_is_replaced st pre c post v :
  holds st (stack st) (pre ++ c :: post) →
  cursor st = Z.of_nat (length pre) →
  Typ c = TVariable ∨ (Typ c = TCode ∧ keyWords st !! V c = None) →
  vars st ≫= (.!! V c) = Some v →
  ∃ st',
    step st = (Ok tt, st')
    ∧ holds st' (stack st') (pre ++ v :: post)
    ∧ cursor st' = Z.of_nat (length pre)
    ∧ vars st' = vars st
    ∧ floats st' = floats st.
Proof.
  intros H Hi Ht Hv.
  pose proof (holds_poke_at _ _ c _ v H) as H1.
  eexists. split; [|split; [|split; [|split]]].
  - apply step_run. unfold body. run_with gets_run.
    run_with (idx_at _ _ _ _ _ H); [|pos].
    destruct Ht as [Ht|[Ht Hk]]; rewrite Ht.
    + run_with (varsGet_bound _ _ _ Hv). run_with (varsGet_bound _ _ _ Hv).
      run_with (setIdx_at _ _ _ _ _ v H); [|pos]. apply setCursor_run.
    + unfold isKeyword. run_with gets_run. rewrite Hk.
      rewrite bool_decide_eq_false_2 by (by intros [? ?]).
      unfold mret, M_ret. cbv beta iota.
      run_with (varsGet_bound _ _ _ Hv).
      run_with (setIdx_at _ _ _ _ _ v H); [|pos]. apply setCursor_run.
  - exact H1.
  - pos.
  - reflexivity.
  - reflexivity.
Qed.

(** A Code cell whose name is neither a keyword nor bound ends the
    process: [log.Fatal] after the message, and no deferred call runs, so
    [Eval] does not return. *)
Theorem unknown_name_is_fatal fuel st stk vs pre c post :
  holds st stk (pre ++ c :: post) →
  Typ c = TCode → keyWords st !! V c = None → vs ≫= (.!! V c) = None →
  Eval (S fuel) stk vs (Z.of_nat (length pre)) st
  = (Fatal, set_out (Stderr (String.append "TODO " (V c)) :: out st)
              (set_cursor (Z.of_nat (length pre)) (set_vars vs (set_stack stk st)))).
Proof.
  intros H Ht Hk Hv. unfold Eval.
  set (st0 := set_cursor _ _).
  assert (H0 : holds st0 (stack st0) (pre ++ c :: post)) by exact H.
  rewrite loop_run.
  assert (Hlt : (cursor st0 <? Z.of_nat (len (stack st0))) = true).
  { apply Z.ltb_lt. destruct H as (_ & Hl & _). cbn. rewrite <- Hl, length_app. cbn. lia. }
  rewrite Hlt. unfold step, body. rewrite !bind_run. rewrite gets_run. cbv beta iota.
  run_with (idx_at _ _ _ _ _ H0); [|pos]. rewrite Ht.
  unfold isKeyword. run_with gets_run.
  change (keyWords st0) with (keyWords st). rewrite Hk.
  rewrite bool_decide_eq_false_2 by (by intros [? ?]).
  unfold mret, M_ret. cbv beta iota.
  run_with (varsGet_unbound st0 _ Hv). reflexivity.
Qed.

Lemma switch_clv : switch "clv" cases op_default = op_clv.
Proof. reflexivity. Qed.

(** [clv] empties the variable table and nothing else: its own cell
    stays on the stack as a Code cell, and the cursor moves on. *)
Theorem clv_clears_the_variables st pre c post :
  holds st (stack st) (pre ++ c :: post) →
  cursor st = Z.of_nat (length pre) →
  Typ c = TCode → V c = "clv" → is_Some (keyWords st !! "clv") →
  ∃ st',
    step st = (Ok tt, st')
    ∧ vars st' = Some ∅
    ∧ holds st' (stack st') (pre ++ with_F (Some (length (floats st))) c :: post)
    ∧ cursor st' = Z.of_nat (length pre) + 1.
Proof.
  intros H Hi Ht Hv Hk.
  pose proof (holds_opened_at st _ c post H) as Ho.
  eexists. split; [|split; [|split]].
  - eapply (keyword_step st _ c post "clv" op_clv);
      [exact H|pos|done|done|done|reflexivity|]. reflexivity.
  - reflexivity.
  - exact Ho.
  - pos.
Qed.

(** ** Whole passes of [Eval] *)

Lemma set_cursor_same st : set_cursor (cursor st) st = st.
Proof. by destruct st. Qed.

Lemma step_inert st pre c post :
  holds st (stack st) (pre ++ c :: post) →
  cursor st = Z.of_nat (length pre) →
  Typ c = TNumber ∨ Typ c = TString →
  step st = (Ok tt, set_cursor (cursor st + 1) st).
Proof.
  intros H Hi Ht. apply step_run. unfold body. run_with gets_run.
  run_with (idx_at _ _ _ _ _ H); [|pos]. by destruct Ht as [-> | ->].
Qed.

Lemma loop_inert fuel : ∀ st pre post,
  holds st (stack st) (pre ++ post) →
  cursor st = Z.of_nat (length pre) →
  Forall (λ c, Typ c = TNumber ∨ Typ c = TString) post →
  (length post ≤ fuel)%nat →
  loop fuel st = (Ok tt, set_cursor (Z.of_nat (len (stack st))) st).
Proof.
  induction fuel as [|fuel IH]; intros st pre post H Hi Hp Hf.
  - destruct post; [|cbn in Hf; lia]. rewrite loop_run.
    pose proof (holds_length _ _ _ H) as Hl. rewrite length_app in Hl. cbn in Hl.
    rewrite (proj2 (Z.ltb_ge _ _)) by lia.
    replace (Z.of_nat (len (stack st))) with (cursor st) by lia.
    by rewrite set_cursor_same.
  - pose proof (holds_length _ _ _ H) as Hl. rewrite length_app in Hl.
    rewrite loop_run. destruct post as [|c post].
    + cbn in Hl. rewrite (proj2 (Z.ltb_ge _ _)) by lia.
      replace (Z.of_nat (len (stack st))) with (cursor st) by lia.
      by rewrite set_cursor_same.
    + cbn in Hl. rewrite (proj2 (Z.ltb_lt _ _)) by lia.
      apply Forall_cons in Hp as [Hc Hp].
      run_with (step_inert _ _ _ _ H Hi Hc).
      rewrite (IH _ (pre ++ [c]) post); [reflexivity| |pos|done|cbn in Hf; lia].
      reshape H.
Qed.

(** A pass over Number and String cells changes nothing: with fuel for
    the cells from [ip] on, [Eval] returns the stack and the variables it
    was given and the length of the stack. *)
Theorem Eval_leaves_numbers_alone fuel st stk vs pre post :
  holds st stk (pre ++ post) →
  Forall (λ c, Typ c = TNumber ∨ Typ c = TString) post →
  (length post ≤ fuel)%nat →
  Eval fuel stk vs (Z.of_nat (length pre)) st
  = (Ok (stk, vs, Z.of_nat (len stk)),
     set_cursor (Z.of_nat (len stk)) (set_vars vs (set_stack stk st))).
Proof.
  intros H Hp Hf. unfold Eval.
  set (st0 := set_cursor _ _).
  assert (H0 : holds st0 (stack st0) (pre ++ post)) by exact H.
  by rewrite (loop_inert fuel st0 pre post H0 eq_refl Hp Hf).
Qed.

Lemma switch_exit : switch "exit" cases op_default = op_exit.
Proof. reflexivity. Qed.

(** [exit] sets [Exit] and ends the pass at once: the cells after it are
    not evaluated, and its own cell stays on the stack that [Eval]
    returns. *)
Theorem exit_ends_the_pass fuel st stk vs pre c post :
  holds st stk (pre ++ c :: post) →
  Typ c = TCode → V c = "exit" → is_Some (keyWords st !! "exit") →
  ∃ st',
    Eval (S fuel) stk vs (Z.of_nat (length pre)) st
    = (Ok (stk, vs, Z.of_nat (len stk)), st')
    ∧ Exit st' = true
    ∧ holds st' stk (pre ++ with_F (Some (length (floats st))) c :: post).
Proof.
  intros H Ht Hv Hk. unfold Eval.
  set (st0 := set_cursor _ _).
  assert (H0 : holds st0 (stack st0) (pre ++ c :: post)) by exact H.
  pose proof (holds_opened_at st0 _ c post H0) as Ho.
  pose proof (holds_length _ _ _ H) as Hl. rewrite length_app in Hl. cbn in Hl.
  assert (Hstep : step st0 = (Ok tt, set_cursor (Z.of_nat (len stk) + 1)
                    (set_Exit true (opened st0 (length pre) c)))).
  { rewrite (keyword_step st0 pre c post "exit" op_exit
               (set_cursor (Z.of_nat (len stk)) (set_Exit true (opened st0 (length pre) c))));
      [reflexivity|exact H0|reflexivity|done|done|done|reflexivity|].
    unfold op_exit. run_with gets_run. run_with modify_run.
    unfold lenStack. run_with gets_run. unfold mret, M_ret. cbv beta iota.
    rewrite setCursor_run. do 2 f_equal. cbn. lia. }
  eexists. split; [|split].
  - rewrite loop_run. rewrite (proj2 (Z.ltb_lt _ _)) by (cbn; lia).
    run_with Hstep. rewrite loop_run.
    rewrite (proj2 (Z.ltb_ge _ _)) by (cbn; lia). reflexivity.
  - reflexivity.
  - exact Ho.
Qed.

Lemma switch_clr : switch "clr" cases op_default = op_clr.
Proof. reflexivity. Qed.

(** [clr] replaces the stack by an empty one and ends the pass: [Eval]
    returns the empty stack, the variables as they were and 0, and the
    cells that followed [clr] on the line are gone with the rest. *)
Theorem clr_clears_the_stack_only fuel st stk vs pre c post :
  holds st stk (pre ++ c :: post) →
  Typ c = TCode → V c = "clr" → is_Some (keyWords st !! "clr") →
  ∃ st' s',
    Eval (S fuel) stk vs (Z.of_nat (length pre)) st = (Ok (s', vs, 0), st')
    ∧ len s' = 0%nat ∧ elems st' s' = [].
Proof.
  intros H Ht Hv Hk. unfold Eval.
  set (st0 := set_cursor _ _).
  assert (H0 : holds st0 (stack st0) (pre ++ c :: post)) by exact H.
  pose proof (holds_length _ _ _ H) as Hl. rewrite length_app in Hl. cbn in Hl.
  set (st1 := opened st0 (length pre) c).
  set (s' := Slice (length (arrays st1)) 0 0 0).
  set (st2 := set_cursor 0 (set_stack s' (set_arrays (arrays st1 ++ [[]]) st1))).
  assert (Hstep : step st0 = (Ok tt, set_cursor 1 st2)).
  { rewrite (keyword_step st0 pre c post "clr" op_clr st2);
      [reflexivity|exact H0|reflexivity|done|done|done|reflexivity|reflexivity]. }
  exists (set_cursor 1 st2), s'. split; [|split].
  - rewrite loop_run. rewrite (proj2 (Z.ltb_lt _ _)) by (cbn; lia).
    run_with Hstep. rewrite loop_run. reflexivity.
  - reflexivity.
  - unfold elems. cbn. by rewrite take_0.
Qed.

(** ** [debug]: the result of [remove] is dropped *)

Lemma take_inserts_full (k rest : list Var) (p n : nat) :
  (p + length k ≤ n)%nat → (n ≤ length rest)%nat →
  take n (list_inserts p k rest)
  = take p rest ++ k ++ drop (p + length k) (take n rest).
Proof.
  intros Hk Hn. apply list_eq. intros j.
  destruct (decide (j < p)%nat).
  - rewrite lookup_take_lt by lia. rewrite list_lookup_inserts_lt by lia.
    rewrite lookup_app_l by (rewrite length_take; lia).
    by rewrite lookup_take_lt by lia.
  - rewrite (lookup_app_r (take p rest)) by (rewrite length_take; lia).
    rewrite length_take, Nat.min_l by lia.
    destruct (decide (j < p + length k)%nat).
    + rewrite lookup_take_lt by lia. rewrite list_lookup_inserts by lia.
      by rewrite lookup_app_l by lia.
    + rewrite lookup_app_r by lia. rewrite lookup_drop.
      replace (p + length k + (j - p - length k))%nat with j by lia.
      destruct (decide (j < n)%nat).
      * rewrite !lookup_take_lt by lia. by rewrite list_lookup_inserts_ge by lia.
      * by rewrite !lookup_take_ge by lia.
Qed.

(** What a slice shows after [append] wrote [k] into its array from
    position [p], when the slice header itself is kept. *)
Lemma elems_spliced_full st s l p k :
  holds st s l → (p + length k ≤ length l)%nat →
  elems (spliced s p k st) s = take p l ++ k ++ drop (p + length k) l.
Proof.
  intros (He & Hl & Hc) Hk.
  destruct (decide (len s = 0%nat)) as [Hz|Hz].
  { destruct l; [|cbn in Hl; lia]. cbn in Hk.
    assert (p = 0%nat) as -> by lia. destruct k; [|cbn in Hk; lia].
    unfold elems. cbn. by rewrite Hz, take_0. }
  unfold elems, spliced in *. cbn in *.
  rewrite list_lookup_alter_eq.
  destruct (arrays st !! arr s) as [a|]; cbn in *.
  - assert (Ha : (off s + len s ≤ length a)%nat).
    { assert (Hl' := Hl). rewrite <- He, length_take, length_drop in Hl'. lia. }
    rewrite <- (take_drop (off s) a) at 1.
    replace (off s + p)%nat with (length (take (off s) a) + p)%nat
      by (rewrite length_take; lia).
    rewrite list_inserts_app_r.
    rewrite drop_app_length' by (rewrite length_take; lia).
    rewrite take_inserts_full by (rewrite ?length_drop; lia).
    rewrite He. f_equal. rewrite <- He. rewrite take_take. f_equal. lia.
  - rewrite drop_nil, take_nil in He. subst l. cbn in Hl. lia.
Qed.

Lemma drop_all_but_last (l : list Var) d :
  l ≠ [] → drop (length l - 1) l = [List.last l d].
Proof.
  induction l as [|x l IH]; [done|]. intros _. destruct l as [|y l].
  - reflexivity.
  - cbn [length]. replace (S (S (length l)) - 1)%nat with (S (length (y :: l) - 1))
      by (cbn; lia).
    cbn [drop]. rewrite IH by done. reflexivity.
Qed.

Lemma last_cons_default (l : list Var) c d : List.last (c :: l) d = List.last l c.
Proof.
  revert c d. induction l as [|y l IH]; intros c d; [done|].
  change (List.last (c :: y :: l) d) with (List.last (y :: l) d).
  by rewrite !(IH y).
Qed.

Lemma last_app_cons (pre : list Var) c post d :
  List.last (pre ++ c :: post) d = List.last post c.
Proof.
  revert d. induction pre as [|x pre IH]; intros d; [apply last_cons_default|].
  change ((x :: pre) ++ c :: post) with (x :: (pre ++ c :: post)).
  by rewrite last_cons_default, IH.
Qed.

Lemma switch_debug : switch "debug" cases op_default = op_debug.
Proof. reflexivity. Qed.

(** A round on [debug]: the flag is toggled; [remove] shifts the cells
    after the operator one place down in the array, but its result is
    dropped, so the stack keeps its length and shows its last cell twice;
    the cursor stays where the operator was. *)
Lemma debug_round st pre c post :
  holds st (stack st) (pre ++ c :: post) →
  cursor st = Z.of_nat (length pre) →
  Typ c = TCode → V c = "debug" → is_Some (keyWords st !! "debug") →
  ∃ st',
    step st = (Ok tt, st')
    ∧ debug st' = negb (debug st)
    ∧ holds st' (stack st')
        (pre ++ post ++ [List.last post (with_F (Some (length (floats st))) c)])
    ∧ cursor st' = Z.of_nat (length pre)
    ∧ stack st' = stack st
    ∧ keyWords st' = keyWords st.
Proof.
  intros H Hi Ht Hv Hk.
  pose proof (holds_opened_at st _ c post H) as Ho.
  set (c1 := with_F _ c) in *.
  set (st1 := set_debug (negb (debug st))
                (set_out (Stderr "Toggling debug mode" :: out st)
                   (opened st (length pre) c))).
  assert (H1 : holds st1 (stack st1) (pre ++ c1 :: post)) by exact Ho.
  pose proof (holds_length _ _ _ H1) as Hl. rewrite length_app in Hl. cbn in Hl.
  set (l1 := pre ++ c1 :: post) in *.
  assert (Hd : drop (S (length pre)) l1 = post).
  { unfold l1. replace (S (length pre)) with (length pre + 1)%nat by lia.
    by rewrite drop_app_add. }
  eexists. split; [|split; [|split; [|split; [|split]]]].
  - eapply (keyword_step st _ c post "debug" op_debug);
      [exact H|pos|done|done|done|reflexivity|].
    unfold op_debug. run_with gets_run. unfold emit. run_with modify_run.
    run_with modify_run. run_with gets_run.
    change (set_debug _ _) with st1.
    run_with (remove_ok st1 (stack st1) l1 (cursor st + 1) 1 (length pre) (S (length pre)) H1).
    + apply setCursor_run.
    + lia.
    + lia.
    + lia.
    + unfold l1. rewrite length_app. cbn. lia.
  - reflexivity.
  - split; [|split].
    + cbn [stack set_cursor]. change (stack (spliced _ _ _ _)) with (stack st1).
      change (elems (spliced (stack st1) (length pre) (drop (S (length pre)) l1) st1)
                (stack st1) = pre ++ post ++ [List.last post c1]).
      rewrite (elems_spliced_full st1 (stack st1) l1 _ _ H1)
        by (rewrite Hd; unfold l1; rewrite length_app; cbn; lia).
      rewrite Hd. unfold l1 at 1. rewrite take_app_length. do 2 f_equal.
      replace (length pre + length post)%nat with (length l1 - 1)%nat
        by (unfold l1; rewrite length_app; cbn; lia).
      rewrite (drop_all_but_last l1 c1) by (unfold l1; by destruct pre).
      f_equal. unfold l1. apply last_app_cons.
    + rewrite !length_app. cbn. lia.
    + destruct H1 as (_ & _ & Hc). exact Hc.
  - pos.
  - reflexivity.
  - reflexivity.
Qed.

(** [debug] with cells after it: they move one place down over the
    operator, and the last of them is on the stack twice. *)
Theorem debug_repeats_the_last_cell st pre c x post :
  holds st (stack st) (pre ++ c :: post ++ [x]) →
  cursor st = Z.of_nat (length pre) →
  Typ c = TCode → V c = "debug" → is_Some (keyWords st !! "debug") →
  ∃ st',
    step st = (Ok tt, st')
    ∧ debug st' = negb (debug st)
    ∧ holds st' (stack st') (pre ++ post ++ [x; x])
    ∧ cursor st' = Z.of_nat (length pre).
Proof.
  intros H Hi Ht Hv Hk.
  destruct (debug_round st pre c (post ++ [x]) H Hi Ht Hv Hk)
    as (st' & Hs & Hd & Hh & Hc & _ & _).
  exists st'. split; [done|]. split; [done|]. split; [|done].
  rewrite last_last in Hh. by rewrite <- app_assoc in Hh.
Qed.

(** [debug] as the last cell of the stack: nothing is removed and the
    cursor comes back to the operator, so the loop of [Eval] evaluates it
    again and again; no amount of fuel lets the pass end. *)
Theorem debug_at_the_end_never_returns fuel st stk vs pre c :
  holds st stk (pre ++ [c]) →
  Typ c = TCode → V c = "debug" → is_Some (keyWords st !! "debug") →
  ∃ st', Eval fuel stk vs (Z.of_nat (length pre)) st = (OutOfFuel, st').
Proof.
  intros H Ht Hv Hk. unfold Eval.
  set (st0 := set_cursor _ _).
  assert (H0 : holds st0 (stack st0) (pre ++ [c])) by exact H.
  assert (Hi0 : cursor st0 = Z.of_nat (length pre)) by reflexivity.
  assert (Hk0 : is_Some (keyWords st0 !! "debug")) by exact Hk.
  clearbody st0. clear H Hk.
  assert (Hloop : ∃ st', loop fuel st0 = (OutOfFuel, st')).
  { revert st0 c H0 Hi0 Hk0 Ht Hv.
    induction fuel as [|fuel IH]; intros st0 c H0 Hi0 Hk0 Ht Hv;
      pose proof (holds_length _ _ _ H0) as Hl; rewrite length_app in Hl; cbn in Hl;
      rewrite loop_run, (proj2 (Z.ltb_lt _ _)) by lia.
    - by eexists.
    - destruct (debug_round st0 pre c [] H0 Hi0 Ht Hv Hk0)
        as (st1 & Hs & _ & Hh & Hc & _ & Hkw).
      run_with Hs.
      apply (IH st1 (with_F (Some (length (floats st0))) c)); try done.
      by rewrite Hkw. }
  destruct Hloop as (st' & ->). by eexists.
Qed.

(** ** Comparisons and boolean operators *)

Lemma switch_compare name c t :
  truth name c = Some t → c = -1 ∨ c = 0 ∨ c = 1 →
  ∃ n p z, switch name cases op_default = compare n p z
           ∧ picked n p z c = if t then One else Zero.
Proof.
  unfold truth. intros Ht Hc.
  destruct (String.eqb_spec name "!=") as [->|_].
  { injection Ht as Ht; subst t. exists One, One, Zero. split; [reflexivity|].
    destruct Hc as [-> | [-> | ->]]; reflexivity. }
  destruct (String.eqb_spec name "==") as [->|_].
  { injection Ht as Ht; subst t. exists Zero, Zero, One. split; [reflexivity|].
    destruct Hc as [-> | [-> | ->]]; reflexivity. }
  destruct (String.eqb_spec name "<") as [->|_].
  { injection Ht as Ht; subst t. exists One, Zero, Zero. split; [reflexivity|].
    destruct Hc as [-> | [-> | ->]]; reflexivity. }
  destruct (String.eqb_spec name "<=") as [->|_].
  { injection Ht as Ht; subst t. exists One, Zero, One. split; [reflexivity|].
    destruct Hc as [-> | [-> | ->]]; reflexivity. }
  destruct (String.eqb_spec name ">") as [->|_].
  { injection Ht as Ht; subst t. exists Zero, One, Zero. split; [reflexivity|].
    destruct Hc as [-> | [-> | ->]]; reflexivity. }
  destruct (String.eqb_spec name ">=") as [->|_]; [|done].
  injection Ht as Ht; subst t. exists Zero, One, One. split; [reflexivity|].
  destruct Hc as [-> | [-> | ->]]; reflexivity.
Qed.

(** The six comparisons: for operands [a b] in stack order the answer is
    the relation applied to [Cmp b a], the top of the stack compared
    against the cell below it.  Both operands are removed and the result
    cell points to the shared constant [One] or [Zero]. *)
Theorem comparison_table st name t pre cx cy cz post a b :
  holds st (stack st) (pre ++ cx :: cy :: cz :: post) →
  cursor st = Z.of_nat (length pre) + 2 →
  Typ cz = TCode → V cz = name → is_Some (keyWords st !! name) →
  float_of st cx = Some a → float_of st cy = Some b →
  truth name (Cmp b a) = Some t →
  ∃ st' res,
    step st = (Ok tt, st')
    ∧ holds st' (stack st') (pre ++ res :: post)
    ∧ Typ res = TNumber
    ∧ F res = Some (if t then One else Zero)
    ∧ cursor st' = Z.of_nat (length pre) + 1
    ∧ vars st' = vars st.
Proof.
  intros H Hi Ht Hv Hk Hfa Hfb Htr.
  destruct (float_of_Some _ _ _ Hfa) as (lx & Hfx & Hx).
  destruct (float_of_Some _ _ _ Hfb) as (ly & Hfy & Hy).
  destruct (switch_compare _ _ _ Htr (Cmp_range b a)) as (n & p & z & Hsw & Hpick).
  assert (H' : holds st (stack st) ((pre ++ [cx; cy]) ++ cz :: post)) by reshape H.
  pose proof (holds_opened_at st _ cz post H') as Ho.
  set (cz1 := with_F _ cz) in Ho. set (st1 := opened st (length (pre ++ [cx; cy])) cz) in *.
  assert (H1 : holds st1 (stack st1) (pre ++ cx :: cy :: cz1 :: post)) by reshape Ho.
  destruct (compare_run st1 n p z pre cx cy cz1 post lx ly a b)
    as (st2 & Hrun & H2 & Hf2 & Hc2 & Hv2 & Ho2);
    [exact H1|pos|exact Hfx|exact Hfy|by apply lookup_app_l_Some|by apply lookup_app_l_Some|].
  eexists _, _. split; [|split; [|split; [|split; [|split]]]].
  - eapply (keyword_step st _ cz post name);
      [exact H'|pos|done|done|done|exact Hsw|]. exact Hrun.
  - exact H2.
  - reflexivity.
  - cbn. by rewrite Hpick.
  - cbn. lia.
  - exact Hv2.
Qed.

Lemma switch_boolop name f :
  bool_op name = Some f → switch name cases op_default = boolop f.
Proof.
  unfold bool_op.
  destruct (String.eqb_spec name "&&") as [->|_]; [by intros [= <-]|].
  destruct (String.eqb_spec name "||") as [->|_]; [by intros [= <-]|].
  destruct (String.eqb_spec name "^^") as [->|_]; [by intros [= <-]|done].
Qed.

(** [&&], [||] and [^^] read both operands through [Uint64()]: an operand
    counts as true when that conversion is not zero, so a negative number
    and a fraction below one count as false.  Both operands are removed
    and the result cell points to [One] or [Zero]. *)
Theorem boolean_operators st name f pre cx cy cz post a b :
  holds st (stack st) (pre ++ cx :: cy :: cz :: post) →
  cursor st = Z.of_nat (length pre) + 2 →
  Typ cz = TCode → V cz = name → is_Some (keyWords st !! name) →
  bool_op name = Some f →
  float_of st cx = Some a → float_of st cy = Some b →
  ∃ st' res,
    step st = (Ok tt, st')
    ∧ holds st' (stack st') (pre ++ res :: post)
    ∧ Typ res = TNumber
    ∧ F res = Some (if f (negb (Uint64 a =? 0)) (negb (Uint64 b =? 0)) then One else Zero)
    ∧ cursor st' = Z.of_nat (length pre) + 1
    ∧ vars st' = vars st
    ∧ (∀ m e, Uint64 (FFin true m e) = 0).
Proof.
  intros H Hi Ht Hv Hk Hop Hfa Hfb.
  destruct (float_of_Some _ _ _ Hfa) as (lx & Hfx & Hx).
  destruct (float_of_Some _ _ _ Hfb) as (ly & Hfy & Hy).
  assert (H' : holds st (stack st) ((pre ++ [cx; cy]) ++ cz :: post)) by reshape H.
  pose proof (holds_opened_at st _ cz post H') as Ho.
  set (cz1 := with_F _ cz) in Ho. set (st1 := opened st (length (pre ++ [cx; cy])) cz) in *.
  assert (H1 : holds st1 (stack st1) (pre ++ cx :: cy :: cz1 :: post)) by reshape Ho.
  assert (H1b : holds st1 (stack st1) ((pre ++ [cx]) ++ cy :: cz1 :: post)) by reshape Ho.
  assert (Hx1 : floats st1 !! lx = Some a) by (by apply lookup_app_l_Some).
  assert (Hy1 : floats st1 !! ly = Some b) by (by apply lookup_app_l_Some).
  set (r := if f (negb (Uint64 a =? 0)) (negb (Uint64 b =? 0)) then One else Zero).
  pose proof (holds_poke_at _ _ cz1 _ (with_F (Some r) cz1) Ho) as H2.
  set (st2 := poke (stack st1) (length (pre ++ [cx; cy])) (with_F (Some r) cz1) st1) in *.
  assert (H2' : holds st2 (stack st2) (pre ++ [cx; cy] ++ with_F (Some r) cz1 :: post))
    by reshape H2.
  destruct (finish_op st2 pre [cx; cy] _ post (cursor st) 2 H2')
    as (st3 & Hrun & H3 & Hc3 & Hf3 & Hv3 & _); [pos|pos|].
  eexists _, _. split; [|split; [|split; [|split; [|split; [|split]]]]].
  - eapply (keyword_step st _ cz post name (boolop f));
      [exact H'|pos|done|done|done|by apply switch_boolop|].
    fold st1. unfold boolop. run_with gets_run.
    run_with (dbg_idx2_at _ _ _ _ _ _ _ H1); [|pos|pos].
    run_with (idx_at _ _ _ _ _ H1); [|pos].
    rewrite Hfx. run_with (Float_Uint64_ok _ _ _ Hx1).
    run_with (idx_at _ _ _ _ _ H1b); [|pos].
    rewrite Hfy. run_with (Float_Uint64_ok _ _ _ Hy1).
    run_with (updIdx_at _ _ _ _ _ (with_F (Some r)) Ho); [|pos].
    fold st2. exact Hrun.
  - exact H3.
  - reflexivity.
  - reflexivity.
  - cbn. lia.
  - exact Hv3.
  - intros m e. unfold Uint64, trunc.
    assert (0 <= (if 0 <=? e then Z.pos m * 2 ^ e else Z.pos m / 2 ^ (- e))).
    { destruct (0 <=? e) eqn:He.
      - apply Z.leb_le in He. apply Z.mul_nonneg_nonneg; [lia|]. by apply Z.pow_nonneg.
      - apply Z.div_pos; [lia|]. apply Z.pow_pos_nonneg; lia. }
    unfold MaxUint64. lia.
Qed.

(** ** Operators of one operand *)

Lemma switch_bitnot : switch "~" cases op_default = op_bitnot.
Proof. reflexivity. Qed.

(** [~] complements the integer part of the cell two places before it,
    not of the cell just before it, and removes the cell just before it:
    of [a b ~] the cells [a] and the complement of [a] remain. *)
Theorem bitnot_reads_the_second_cell st pre cx cy c post a z :
  holds st (stack st) (pre ++ cx :: cy :: c :: post) →
  cursor st = Z.of_nat (length pre) + 2 →
  Typ c = TCode → V c = "~" → is_Some (keyWords st !! "~") →
  float_of st cx = Some a → Int a = Some z →
  ∃ st' res,
    step st = (Ok tt, st')
    ∧ holds st' (stack st') (pre ++ cx :: res :: post)
    ∧ Typ res = TNumber
    ∧ float_of st' res = Some (SetInt (Z.lnot z))
    ∧ (Z.abs (Z.lnot z) <= 2 ^ 53 → int_value (SetInt (Z.lnot z)) = Some (- z - 1))
    ∧ cursor st' = Z.of_nat (length pre) + 2
    ∧ vars st' = vars st.
Proof.
  intros H Hi Ht Hv Hk Hfa Hz.
  destruct (float_of_Some _ _ _ Hfa) as (lx & Hfx & Hx).
  assert (H' : holds st (stack st) ((pre ++ [cx; cy]) ++ c :: post)) by reshape H.
  pose proof (holds_opened_at st _ c post H') as Ho.
  set (c1 := with_F _ c) in Ho. set (st1 := opened st (length (pre ++ [cx; cy])) c) in *.
  assert (H1 : holds st1 (stack st1) (pre ++ cx :: cy :: c1 :: post)) by reshape Ho.
  assert (H1b : holds st1 (stack st1) ((pre ++ [cx]) ++ cy :: c1 :: post)) by reshape Ho.
  assert (Hx1 : floats st1 !! lx = Some a) by (by apply lookup_app_l_Some).
  assert (Hz1 : floats st1 !! length (floats st) = Some (FZero false)).
  { cbn. rewrite lookup_app_r by lia. by rewrite Nat.sub_diag. }
  set (st2 := set_floats (<[length (floats st) := SetInt (Z.lnot z)]> (floats st1)) st1).
  assert (H2 : holds st2 (stack st2) ((pre ++ [cx]) ++ [cy] ++ c1 :: post)) by reshape Ho.
  destruct (finish_op st2 (pre ++ [cx]) [cy] c1 post (cursor st) 1 H2)
    as (st3 & Hrun & H3 & Hc3 & Hf3 & Hv3 & _); [pos|pos|].
  eexists _, _. split; [|split; [|split; [|split; [|split; [|split]]]]].
  - eapply (keyword_step st _ c post "~" op_bitnot);
      [exact H'|pos|done|done|done|reflexivity|].
    fold st1. unfold op_bitnot. run_with gets_run.
    run_with (dbg_idx_at _ _ _ _ _ H1b); [|pos].
    run_with (idx_at _ _ _ _ _ H1); [|pos].
    rewrite Hfx. run_with (Float_Int_ok _ _ _ _ Hx1 Hz).
    run_with (idx_at _ _ _ _ _ Ho); [|pos].
    change (F c1) with (Some (length (floats st))).
    run_with (Float_SetInt_ok _ _ _ (Z.lnot z) Hz1). fold st2.
    exact Hrun.
  - reshape H3.
  - reflexivity.
  - unfold float_of. cbn. rewrite Hf3. cbn.
    apply list_lookup_insert_eq. rewrite length_app. cbn. lia.
  - intros Hb. rewrite int_value_SetInt by done. f_equal; unfold Z.lnot; lia.
  - cbn. rewrite Hc3, length_app. cbn. lia.
  - exact Hv3.
Qed.

Lemma MulRange1_fact n : MulRange1 (Z.of_nat n) = Z.of_nat (fact n).
Proof.
  unfold MulRange1. rewrite Nat2Z.id.
  induction n as [|n IH]; [done|].
  rewrite seq_S, map_app, fold_right_app. cbn [map fold_right Nat.add].
  rewrite Z.mul_1_r.
  assert (Hg : ∀ l a, fold_right Z.mul a l = a * fold_right Z.mul 1 l).
  { induction l as [|x l IHl]; intros a; cbn; [lia|]. rewrite IHl. lia. }
  rewrite Hg, IH. cbn [fact]. lia.
Qed.

Lemma switch_fact : switch "fact" cases op_default = op_fact.
Proof. reflexivity. Qed.

(** [fact] replaces [n fact] by the product of [1..n] rounded to 53 bits,
    where [n] is the operand through [Int64()]: the factorial for a
    natural [n], exact up to [2^53], and 1 for a negative operand. *)
Theorem fact_is_the_factorial st pre cx c post a :
  holds st (stack st) (pre ++ cx :: c :: post) →
  cursor st = Z.of_nat (length pre) + 1 →
  Typ c = TCode → V c = "fact" → is_Some (keyWords st !! "fact") →
  float_of st cx = Some a →
  ∃ st' res,
    step st = (Ok tt, st')
    ∧ holds st' (stack st') (pre ++ res :: post)
    ∧ Typ res = TNumber
    ∧ float_of st' res = Some (SetInt (MulRange1 (Int64 a)))
    ∧ (∀ n, Int64 a = Z.of_nat n → Z.of_nat (fact n) <= 2 ^ 53 →
         int_value (SetInt (MulRange1 (Int64 a))) = Some (Z.of_nat (fact n)))
    ∧ (Int64 a <= 0 → MulRange1 (Int64 a) = 1)
    ∧ cursor st' = Z.of_nat (length pre) + 1
    ∧ vars st' = vars st.
Proof.
  intros H Hi Ht Hv Hk Hfa.
  destruct (float_of_Some _ _ _ Hfa) as (lx & Hfx & Hx).
  assert (H' : holds st (stack st) ((pre ++ [cx]) ++ c :: post)) by reshape H.
  pose proof (holds_opened_at st _ c post H') as Ho.
  set (c1 := with_F _ c) in Ho. set (st1 := opened st (length (pre ++ [cx])) c) in *.
  assert (H1 : holds st1 (stack st1) (pre ++ cx :: c1 :: post)) by reshape Ho.
  assert (Hx1 : floats st1 !! lx = Some a) by (by apply lookup_app_l_Some).
  set (r := SetInt (MulRange1 (Int64 a))).
  set (st2 := set_floats (floats st1 ++ [r]) st1).
  assert (H2 : holds st2 (stack st2) ((pre ++ [cx]) ++ c1 :: post)) by exact Ho.
  set (c2 := with_F (Some (length (floats st1))) c1).
  pose proof (holds_poke_at _ _ c1 _ c2 H2) as H3.
  set (st3 := poke (stack st2) (length (pre ++ [cx])) c2 st2) in *.
  assert (H3' : holds st3 (stack st3) (pre ++ [cx] ++ c2 :: post)) by reshape H3.
  destruct (finish_op st3 pre [cx] c2 post (cursor st) 1 H3')
    as (st4 & Hrun & H4 & Hc4 & Hf4 & Hv4 & _); [pos|pos|].
  eexists _, _. split; [|split; [|split; [|split; [|split; [|split; [|split]]]]]].
  - eapply (keyword_step st _ c post "fact" op_fact);
      [exact H'|pos|done|done|done|reflexivity|].
    fold st1. unfold op_fact. run_with gets_run.
    run_with (dbg_idx_at _ _ _ _ _ H1); [|pos].
    run_with (idx_at _ _ _ _ _ H1); [|pos].
    rewrite Hfx. run_with (Float_Int64_ok _ _ _ Hx1).
    run_with NewFloat_run. fold r st2.
    run_with (updIdx_at _ _ _ _ _ (with_F (Some (length (floats st1)))) H2); [|pos].
    fold c2 st3. exact Hrun.
  - exact H4.
  - reflexivity.
  - unfold float_of. cbn. rewrite Hf4. cbn.
    rewrite lookup_app_r by (rewrite length_app; cbn; lia).
    by rewrite length_app, Nat.sub_diag.
  - intros n Hn Hb. unfold r. rewrite Hn, MulRange1_fact. apply int_value_SetInt. lia.
  - intros Hn. unfold MulRange1. by replace (Z.to_nat (Int64 a)) with 0%nat by lia.
  - cbn. lia.
  - exact Hv4.
Qed.

Lemma switch_pick : switch "pick" cases op_default = op_pick.
Proof. reflexivity. Qed.

(** [pick] replaces [j pick] by a copy of the cell at index [j] counted
    from the bottom of the stack, where [j] is the operand through
    [Int64()]. *)
Theorem pick_counts_from_the_bottom st pre cnt c post f j v :
  holds st (stack st) (pre ++ cnt :: c :: post) →
  cursor st = Z.of_nat (length pre) + 1 →
  Typ c = TCode → V c = "pick" → is_Some (keyWords st !! "pick") →
  float_of st cnt = Some f → Int64 f = Z.of_nat j →
  (pre ++ [cnt]) !! j = Some v →
  ∃ st',
    step st = (Ok tt, st')
    ∧ holds st' (stack st') (pre ++ v :: post)
    ∧ cursor st' = Z.of_nat (length pre) + 1
    ∧ vars st' = vars st.
Proof.
  intros H Hi Ht Hv Hk Hf Hj Hlook.
  destruct (float_of_Some _ _ _ Hf) as (l & Hl & Hx).
  assert (H' : holds st (stack st) ((pre ++ [cnt]) ++ c :: post)) by reshape H.
  pose proof (holds_opened_at st _ c post H') as Ho.
  set (c1 := with_F _ c) in Ho. set (st1 := opened st (length (pre ++ [cnt])) c) in *.
  assert (H1 : holds st1 (stack st1) (pre ++ cnt :: c1 :: post)) by reshape Ho.
  assert (Hx1 : floats st1 !! l = Some f) by (by apply lookup_app_l_Some).
  pose proof (holds_poke_at _ _ c1 _ v Ho) as H2.
  set (st2 := poke (stack st1) (length (pre ++ [cnt])) v st1) in *.
  assert (H2' : holds st2 (stack st2) (pre ++ [cnt] ++ v :: post)) by reshape H2.
  eexists. split; [|split; [|split]].
  - eapply (keyword_step st _ c post "pick" op_pick);
      [exact H'|pos|done|done|done|reflexivity|].
    fold st1. unfold op_pick. run_with gets_run.
    run_with (dbg_idx_at _ _ _ _ _ H1); [|pos].
    run_with (idx_at _ _ _ _ _ H1); [|pos].
    rewrite Hl. run_with (Float_Int64_ok _ _ _ Hx1).
    run_with (idx_ok st1 _ _ j v Ho Hj); [|by apply lookup_app_l_Some].
    run_with (setIdx_at _ _ _ _ _ v Ho); [|pos]. fold st2.
    assert (H2'' : holds st2 (stack st2) (pre ++ [cnt] ++ (v :: post))) by exact H2'.
    run_with (removeStack_mid _ _ _ _ _ _ H2''); [apply setCursor_run|pos|pos].
  - exact (holds_removed_mid _ _ _ _ H2').
  - pos.
  - reflexivity.
Qed.

Lemma switch_hnl : switch "hnl" cases op_default = hton 8.
Proof. reflexivity. Qed.

Lemma switch_nhl : switch "nhl" cases op_default = ntoh.
Proof. reflexivity. Qed.

(** [hnl] turns [x hnl] into one String cell that keeps the pointer of
    [x] and carries the eight bytes of its [Int64()], most significant
    first. *)
Lemma hnl_round st pre cx c post a :
  holds st (stack st) (pre ++ cx :: c :: post) →
  cursor st = Z.of_nat (length pre) + 1 →
  Typ c = TCode → V c = "hnl" → is_Some (keyWords st !! "hnl") →
  float_of st cx = Some a →
  ∃ st',
    step st = (Ok tt, st')
    ∧ holds st' (stack st')
        (pre ++ mkVar TString "hnl" (F cx) (be_bytes 8 (Int64 a)) (Code c) :: post)
    ∧ cursor st' = Z.of_nat (length pre) + 1
    ∧ vars st' = vars st
    ∧ keyWords st' = keyWords st
    ∧ floats st' = floats st ++ [FZero false].
Proof.
  intros H Hi Ht Hv Hk Hfa.
  destruct (float_of_Some _ _ _ Hfa) as (lx & Hfx & Hx).
  assert (H' : holds st (stack st) ((pre ++ [cx]) ++ c :: post)) by reshape H.
  pose proof (holds_opened_at st _ c post H') as Ho.
  set (c1 := with_F _ c) in Ho. set (st1 := opened st (length (pre ++ [cx])) c) in *.
  assert (H1 : holds st1 (stack st1) (pre ++ cx :: c1 :: post)) by reshape Ho.
  assert (Hx1 : floats st1 !! lx = Some a) by (by apply lookup_app_l_Some).
  set (c2 := with_F (F cx) c1).
  pose proof (holds_poke_at _ _ c1 _ c2 Ho) as H2.
  set (st2 := poke (stack st1) (length (pre ++ [cx])) c2 st1) in *.
  set (c3 := with_B (be_bytes 8 (Int64 a)) c2).
  pose proof (holds_poke_at _ _ c2 _ c3 H2) as H3.
  set (st3 := poke (stack st2) (length (pre ++ [cx])) c3 st2) in *.
  set (c4 := with_Typ TString c3).
  pose proof (holds_poke_at _ _ c3 _ c4 H3) as H4.
  set (st4 := poke (stack st3) (length (pre ++ [cx])) c4 st3) in *.
  assert (H4' : holds st4 (stack st4) (pre ++ [cx] ++ c4 :: post)) by reshape H4.
  eexists. split; [|split; [|split; [|split; [|split]]]].
  - eapply (keyword_step st _ c post "hnl" (hton 8));
      [exact H'|pos|done|done|done|reflexivity|].
    fold st1. unfold hton. run_with gets_run.
    run_with (dbg_idx_at _ _ _ _ _ H1); [|pos].
    run_with (idx_at _ _ _ _ _ H1); [|pos].
    rewrite Hfx. run_with (Float_Int64_ok _ _ _ Hx1).
    run_with (idx_at _ _ _ _ _ H1); [|pos].
    run_with (updIdx_at _ _ _ _ _ (with_F (F cx)) Ho); [|pos].
    fold c2 st2.
    run_with (updIdx_at _ _ _ _ _ (with_B (be_bytes 8 (Int64 a))) H2); [|pos].
    fold c3 st3.
    run_with (updIdx_at _ _ _ _ _ (with_Typ TString) H3); [|pos].
    fold c4 st4.
    run_with (removeStack_mid _ _ _ _ _ _ H4'); [apply setCursor_run|pos|pos].
  - pose proof (holds_removed_mid _ _ _ _ H4') as Hr.
    assert (Hc4 : c4 = mkVar TString "hnl" (F cx) (be_bytes 8 (Int64 a)) (Code c)).
    { unfold c4, c3, c2, c1. destruct c. cbn in Hv. by subst. }
    rewrite <- Hc4. exact Hr.
  - pos.
  - reflexivity.
  - reflexivity.
  - reflexivity.
Qed.

(** [nhl] turns [s nhl] into a copy of [s] with the type Number: it does
    not read the bytes of [s]. *)
Lemma nhl_round st pre cx c post :
  holds st (stack st) (pre ++ cx :: c :: post) →
  cursor st = Z.of_nat (length pre) + 1 →
  Typ c = TCode → V c = "nhl" → is_Some (keyWords st !! "nhl") →
  ∃ st',
    step st = (Ok tt, st')
    ∧ holds st' (stack st') (pre ++ with_Typ TNumber cx :: post)
    ∧ cursor st' = Z.of_nat (length pre) + 1
    ∧ vars st' = vars st
    ∧ floats st' = floats st ++ [FZero false].
Proof.
  intros H Hi Ht Hv Hk.
  assert (H' : holds st (stack st) ((pre ++ [cx]) ++ c :: post)) by reshape H.
  pose proof (holds_opened_at st _ c post H') as Ho.
  set (c1 := with_F _ c) in Ho. set (st1 := opened st (length (pre ++ [cx])) c) in *.
  assert (H1 : holds st1 (stack st1) (pre ++ cx :: c1 :: post)) by reshape Ho.
  pose proof (holds_poke_at _ _ c1 _ cx Ho) as H2.
  set (st2 := poke (stack st1) (length (pre ++ [cx])) cx st1) in *.
  assert (H2' : holds st2 (stack st2) (pre ++ [cx] ++ cx :: post)) by reshape H2.
  destruct (finish_op st2 pre [cx] cx post (cursor st) 1 H2')
    as (st3 & Hrun & H3 & Hc3 & Hf3 & Hv3 & _); [pos|pos|].
  eexists. split; [|split; [|split; [|split]]].
  - eapply (keyword_step st _ c post "nhl" ntoh);
      [exact H'|pos|done|done|done|reflexivity|].
    fold st1. unfold ntoh. run_with gets_run.
    run_with (dbg_idx_at _ _ _ _ _ H1); [|pos].
    run_with (idx_at _ _ _ _ _ H1); [|pos].
    run_with (setIdx_at _ _ _ _ _ cx Ho); [|pos]. fold st2.
    exact Hrun.
  - exact H3.
  - cbn. lia.
  - exact Hv3.
  - exact Hf3.
Qed.

(** [x hnl nhl]: the two rounds leave one Number cell with the pointer of
    [x], so with its value unchanged whatever that value is; the bytes
    made by [hnl] stay in the cell and are never read back. *)
Theorem hnl_nhl_keeps_the_float st pre cx c d post a :
  holds st (stack st) (pre ++ cx :: c :: d :: post) →
  cursor st = Z.of_nat (length pre) + 1 →
  Typ c = TCode → V c = "hnl" → is_Some (keyWords st !! "hnl") →
  Typ d = TCode → V d = "nhl" → is_Some (keyWords st !! "nhl") →
  float_of st cx = Some a →
  ∃ st1 st2 res,
    step st = (Ok tt, st1) ∧ step st1 = (Ok tt, st2)
    ∧ holds st2 (stack st2) (pre ++ res :: post)
    ∧ Typ res = TNumber ∧ F res = F cx ∧ float_of st2 res = Some a
    ∧ B res = be_bytes 8 (Int64 a)
    ∧ cursor st2 = Z.of_nat (length pre) + 1.
Proof.
  intros H Hi Ht Hv Hk Htd Hvd Hkd Hfa.
  destruct (hnl_round st pre cx c (d :: post) a H Hi Ht Hv Hk Hfa)
    as (st1 & Hs1 & H1 & Hc1 & _ & Hkw1 & Hf1).
  destruct (nhl_round st1 pre _ d post H1 Hc1 Htd Hvd) as (st2 & Hs2 & H2 & Hc2 & _ & Hf2).
  { by rewrite Hkw1. }
  exists st1, st2. eexists. split; [done|]. split; [done|]. split; [exact H2|].
  split; [reflexivity|]. split; [reflexivity|]. split; [|split; [reflexivity|done]].
  unfold float_of in *. cbn. rewrite Hf2, Hf1.
  destruct (F cx) as [l|]; [|done]. cbn in *. by do 2 apply lookup_app_l_Some.
Qed.

(** ** [macro] *)

Lemma dbg_off {A} (m : M A) st : debug st = false → dbg m st = (Ok tt, st).
Proof. intros Hd. unfold dbg. run_with gets_run. by rewrite Hd. Qed.

Lemma from_ok s k q st :
  k = Z.of_nat q → (q ≤ len s)%nat → (len s ≤ cap s)%nat →
  from s k st = (Ok (Slice (arr s) (off s + q) (len s - q) (cap s - q)), st).
Proof.
  intros -> Hq Hc. unfold from, sub.
  replace ((0 <=? Z.of_nat q) && (Z.of_nat q <=? Z.of_nat (len s))
           && (Z.of_nat (len s) <=? Z.of_nat (cap s)))
    with true by (symmetry; rewrite !andb_true_iff, !Z.leb_le; lia).
  rewrite Nat2Z.id.
  by replace (Z.to_nat (Z.of_nat (len s) - Z.of_nat q)) with (len s - q)%nat by lia.
Qed.

Lemma elems_spliced_nil st s p s0 : elems (spliced s p [] st) s0 = elems st s0.
Proof.
  unfold elems, spliced. cbn.
  destruct (decide (arr s0 = arr s)) as [->|Hne].
  - rewrite list_lookup_alter_eq. by destruct (arrays st !! arr s).
  - by rewrite list_lookup_alter_ne.
Qed.

Lemma switch_macro : switch "macro" cases op_default = op_macro.
Proof. reflexivity. Qed.

(** [macro name body...]: the name becomes a keyword, the variable table
    binds it to a Code cell whose [Code] is the slice of the stack after
    the name, and the stack is cut before [macro].  The body is not
    copied: it stays in the array of the stack, beyond its new length. *)
Theorem macro_binds_a_slice_of_the_stack st pre c nm body m :
  holds st (stack st) (pre ++ c :: nm :: body) →
  cursor st = Z.of_nat (length pre) →
  Typ c = TCode → V c = "macro" → is_Some (keyWords st !! "macro") →
  debug st = false → vars st = Some m →
  ∃ st' v,
    step st = (Ok tt, st')
    ∧ holds st' (stack st') pre
    ∧ vars st' = Some (<[V nm := v]> m)
    ∧ keyWords st' = <[V nm := "x"]> (keyWords st)
    ∧ Typ v = TCode ∧ V v = V nm
    ∧ elems st' (Code v) = body
    ∧ arr (Code v) = arr (stack st')
    ∧ off (Code v) = (off (stack st') + length pre + 2)%nat
    ∧ (length pre + 2 + length body ≤ cap (stack st'))%nat
    ∧ cursor st' = Z.of_nat (length pre) + 1.
Proof.
  intros H Hi Ht Hv Hk Hd Hm.
  pose proof (holds_opened_at st _ c _ H) as Ho.
  set (c1 := with_F _ c) in Ho. set (st1 := opened st (length pre) c) in *.
  pose proof (holds_length _ _ _ H) as Hl. rewrite length_app in Hl. cbn in Hl.
  pose proof H as (_ & _ & Hcap).
  set (q := (length pre + 2)%nat).
  set (bodyS := Slice (arr (stack st)) (off (stack st) + q) (len (stack st) - q)
                      (cap (stack st) - q)).
  set (c2 := with_Code bodyS c1).
  pose proof (holds_poke_at _ _ c1 _ c2 Ho) as H2.
  set (st2 := poke (stack st1) (length pre) c2 st1) in *.
  set (c3 := with_Typ TCode c2).
  pose proof (holds_poke_at _ _ c2 _ c3 H2) as H3.
  set (st3 := poke (stack st2) (length pre) c3 st2) in *.
  assert (H3b : holds st3 (stack st3) ((pre ++ [c3]) ++ nm :: body)) by reshape H3.
  set (c4 := with_V (V nm) c3).
  pose proof (holds_poke_at _ _ c3 _ c4 H3) as H4.
  set (st4 := poke (stack st3) (length pre) c4 st3) in *.
  set (st5 := set_vars (Some (<[V nm := c4]> m)) st4).
  set (st6 := set_keyWords (<[V nm := "x"]> (keyWords st5)) st5).
  set (l4 := pre ++ c4 :: nm :: body) in *.
  assert (H6 : holds st6 (stack st6) l4) by exact H4.
  assert (Hl4 : length l4 = len (stack st))
    by (unfold l4; rewrite length_app; cbn; lia).
  set (st7 := removed st6 l4 (length pre) (length l4)).
  pose proof (holds_removed st6 l4 (length pre) (length l4) H6) as H7.
  assert (E7 : take (length pre) l4 ++ drop (length l4) l4 = pre)
    by (rewrite drop_all, app_nil_r; unfold l4; apply take_app_length).
  rewrite E7 in H7. fold st7 in H7.
  exists (set_cursor (cursor st + (Z.of_nat (len (stack st7)) - cursor st) + 1) st7), c4.
  split; [|split; [|split; [|split; [|split; [|split; [|split; [|split; [|split; [|split]]]]]]]]].
  - rewrite (keyword_step st pre c (nm :: body) "macro" op_macro
               (set_cursor (cursor st + (Z.of_nat (len (stack st7)) - cursor st)) st7));
      [reflexivity|exact H|pos|done|done|done|reflexivity|].
    fold st1. unfold op_macro. run_with gets_run.
    run_with (dbg_off (idx (cursor st1 - 1)) st1 Hd).
    run_with gets_run.
    run_with (from_ok (stack st1) (cursor st1 + 2) q st1); [|pos|cbn; lia|exact Hcap].
    change (Slice (arr (stack st1)) _ _ _) with bodyS.
    run_with (updIdx_at _ _ _ _ _ (with_Code bodyS) Ho); [|pos]. fold c2 st2.
    run_with (updIdx_at _ _ _ _ _ (with_Typ TCode) H2); [|pos]. fold c3 st3.
    run_with (idx_at _ _ _ _ _ H3b); [|pos].
    run_with (updIdx_at _ _ _ _ _ (with_V (V nm)) H3); [|pos]. fold c4 st4.
    run_with (idx_at _ _ _ _ _ H4); [|pos].
    unfold varsSet. run_with gets_run.
    change (vars st4) with (vars st). rewrite Hm. run_with modify_run. fold st5.
    run_with modify_run. fold st6.
    unfold lenStack. run_with gets_run. unfold mret at 1, M_ret at 1. cbv beta iota.
    run_with (removeStack_ok st6 l4 _ _ (length pre) (length l4) H6).
    + fold st7. run_with gets_run. unfold mret at 1, M_ret at 1. cbv beta iota.
      apply setCursor_run.
    + cbn. lia.
    + cbn. lia.
    + lia.
    + lia.
  - apply H7; lia.
  - reflexivity.
  - reflexivity.
  - reflexivity.
  - reflexivity.
  - change (elems (spliced (stack st6) (length pre) (drop (length l4) l4) st6) bodyS = body).
    rewrite drop_all, elems_spliced_nil.
    pose proof (elems_from st6 (stack st6) l4 q H6) as E.
    change (stack st6) with (stack st) in E. fold bodyS in E. rewrite E by lia.
    unfold l4, q. replace (length pre + 2)%nat with (length pre + 2)%nat by done.
    by rewrite drop_app_add.
  - reflexivity.
  - cbn. lia.
  - cbn. lia.
  - cbn. lia.
Qed.

(** ** [rolld] *)

Lemma plain_ret {A} (a : A) : plain (mret a).
Proof. intros st. left. by eexists _, _. Qed.

Lemma plain_panic {A} msg : plain (panic (A:=A) msg).
Proof. intros st. right. by eexists _, _. Qed.

Lemma plain_gets {A} (f : State → A) : plain (gets f).
Proof. intros st. left. by eexists _, _. Qed.

Lemma plain_modify f : plain (modify f).
Proof. intros st. left. by eexists _, _. Qed.

Lemma plain_bind {A B} (m : M A) (f : A → M B) :
  plain m → (∀ a, plain (f a)) → plain (m ≫= f).
Proof.
  intros Hm Hf st. rewrite bind_run.
  destruct (Hm st) as [(a & st' & ->)|(msg & st' & ->)]; [apply Hf|].
  right. by eexists _, _.
Qed.

Lemma faults_bind {A B} (m : M A) (f : A → M B) :
  plain m → (∀ a, faults (f a)) → faults (m ≫= f).
Proof.
  intros Hm Hf st. rewrite bind_run.
  destruct (Hm st) as [(a & st' & ->)|(msg & st' & ->)]; [apply Hf|].
  by eexists _, _.
Qed.

Lemma faults_bind_post {A B} (m : M A) (P : A → Prop) (f : A → M B) :
  plain m → (∀ st a st', m st = (Ok a, st') → P a) → (∀ a, P a → faults (f a)) →
  faults (m ≫= f).
Proof.
  intros Hm HP Hf st. rewrite bind_run.
  destruct (Hm st) as [(a & st' & E)|(msg & st' & E)]; rewrite E.
  - apply Hf. by eapply HP.
  - by eexists _, _.
Qed.

Lemma make_len n st s st' : make n st = (Ok s, st') → len s = Z.to_nat n.
Proof.
  unfold make. destruct (n <? 0); [done|]. rewrite bind_run. unfold get. cbv beta iota.
  rewrite bind_run, modify_run. cbv beta iota. by intros [= <- _].
Qed.

Lemma faults_bind_l {A B} (m : M A) (f : A → M B) : faults m → faults (m ≫= f).
Proof. intros Hm st. rewrite bind_run. destruct (Hm st) as (msg & st' & ->). by eexists _, _. Qed.

Lemma plain_readAt s k : plain (readAt s k).
Proof.
  unfold readAt. destruct (okb 0 k (Z.of_nat (len s))); [|apply plain_panic].
  intros st. rewrite bind_run. unfold get. cbv beta iota.
  destruct (elems st s !! Z.to_nat k); [apply plain_ret|apply plain_panic].
Qed.

Lemma plain_idx k : plain (idx k).
Proof. apply plain_bind; [apply plain_gets|intros s; apply plain_readAt]. Qed.

Lemma plain_updAt s k f : plain (updAt s k f).
Proof. apply plain_bind; [apply plain_readAt|intros v; apply plain_modify]. Qed.

Lemma plain_dbg {A} (m : M A) : plain m → plain (dbg m).
Proof.
  intros Hm. apply plain_bind; [apply plain_gets|]. intros [|]; [|apply plain_ret].
  apply plain_bind; [done|]. intros _. apply plain_ret.
Qed.

Lemma plain_loadF p : plain (loadF p).
Proof.
  destruct p as [l|]; [|apply plain_panic]. intros st. unfold loadF.
  rewrite bind_run. unfold get. cbv beta iota.
  destruct (floats st !! l); [apply plain_ret|apply plain_panic].
Qed.

Lemma plain_make n : plain (make n).
Proof.
  unfold make. destruct (n <? 0); [apply plain_panic|].
  apply plain_bind; [intros st; left; by eexists _, _|]. intros st.
  apply plain_bind; [apply plain_modify|]. intros _. apply plain_ret.
Qed.

(** A loop whose last round faults, and whose rounds before it return or
    panic, faults. *)
Lemma count_from_faults (body : Z → M unit) k : ∀ j,
  (∀ j', plain (body j')) → faults (body (j + Z.of_nat k)) →
  faults (count_from j (S k) body).
Proof.
  induction k as [|k IH]; intros j Hp Hf.
  - cbn [count_from]. apply faults_bind_l. by replace j with (j + Z.of_nat 0) by lia.
  - change (count_from j (S (S k)) body) with (body j ;; count_from (j + 1) (S k) body).
    apply faults_bind; [apply Hp|]. intros _. apply IH; [done|].
    by replace (j + 1 + Z.of_nat k) with (j + Z.of_nat (S k)) by lia.
Qed.

Lemma writeAt_faults_at_len s k v : k = Z.of_nat (len s) → faults (writeAt s k v).
Proof.
  intros -> st. unfold writeAt, updAt. rewrite bind_run.
  rewrite readAt_oob by lia. by eexists _, _.
Qed.

Lemma op_rolld_faults : faults op_rolld.
Proof.
  unfold op_rolld.
  apply faults_bind; [apply plain_gets|]. intros i.
  apply faults_bind; [apply plain_dbg, plain_idx|]. intros _.
  apply faults_bind; [apply plain_idx|]. intros x.
  apply faults_bind.
  { unfold Float_Int64. apply plain_bind; [apply plain_loadF|]. intros a. apply plain_ret. }
  intros n0.
  apply faults_bind.
  { unfold lenStack. apply plain_bind; [apply plain_gets|]. intros s. apply plain_ret. }
  intros l.
  apply faults_bind; [destruct (l =? 0); [apply plain_panic|apply plain_ret]|]. intros _.
  set (n := Z.rem n0 l).
  destruct (Z.ltb_spec (n - 1) 0) as [Hn|Hn].
  - apply faults_bind_l. intros st. unfold make.
    rewrite (proj2 (Z.ltb_lt _ _)) by done. by eexists _, _.
  - apply (faults_bind_post _ (λ s, len s = Z.to_nat (n - 1)));
      [apply plain_make|intros st s st'; apply make_len|].
    intros tmpS Hlen. apply faults_bind_l.
    unfold for_upto. replace (Z.to_nat n) with (S (Z.to_nat (n - 1))) by lia.
    apply count_from_faults.
    + intros j. apply plain_bind; [apply plain_idx|]. intros v. apply plain_updAt.
    + apply faults_bind; [apply plain_idx|]. intros v.
      apply writeAt_faults_at_len. rewrite Hlen. lia.
Qed.

Lemma switch_rolld : switch "rolld" cases op_default = op_rolld.
Proof. reflexivity. Qed.

(** [rolld] never succeeds: it makes room for [n - 1] cells and copies
    [n] cells into it, so the case ends in a run-time panic whatever the
    stack holds; [Eval] then returns the zero values, a nil stack and a
    nil variable table, or the panic leaves it. *)
Theorem rolld_always_faults fuel st stk vs pre c post :
  holds st stk (pre ++ c :: post) →
  Typ c = TCode → V c = "rolld" → is_Some (keyWords st !! "rolld") →
  (∃ st', Eval (S fuel) stk vs (Z.of_nat (length pre)) st = (Ok (nil_slice, None, 0), st'))
  ∨ (∃ msg st', Eval (S fuel) stk vs (Z.of_nat (length pre)) st = (Panic msg, st')).
Proof.
  intros H Ht Hv Hk.
  set (st0 := set_cursor (Z.of_nat (length pre)) (set_vars vs (set_stack stk st))).
  assert (H0 : holds st0 (stack st0) (pre ++ c :: post)) by exact H.
  pose proof (holds_length _ _ _ H) as Hl. rewrite length_app in Hl. cbn in Hl.
  destruct (op_rolld_faults (opened st0 (length pre) c)) as (msg & st1 & Hf).
  apply (Eval_after_fault (S fuel) stk vs _ st msg st1). fold st0.
  rewrite loop_run, (proj2 (Z.ltb_lt _ _)) by (cbn; lia).
  unfold step. rewrite !bind_run.
  rewrite (body_keyword st0 _ _ c H0 eq_refl (lookup_at pre c post) Ht)
    by (by rewrite Hv).
  by rewrite Hv, switch_rolld, Hf.
Qed.

(** ** [getBase] and [Parse] *)

(** [getBase] answers -1 for the empty string only.  For a string whose
    first byte is not the byte of value zero it answers 10 when one of
    the two scans succeeds and 0 when both fail: the bases 2, 8 and 16
    need a NUL byte in front. *)
Theorem getBase_range s :
  (getBase s = -1 ↔ s = "")
  ∧ (getBase s = -1 ∨ getBase s = 0 ∨ getBase s = 2 ∨ getBase s = 8
     ∨ getBase s = 10 ∨ getBase s = 16)
  ∧ (∀ c rest, s = String c rest → c ≠ Ascii.zero →
       getBase s = if Sscanf_f s || Sscanf_i s then 10 else 0).
Proof.
  destruct s as [|c0 rest].
  { split; [done|]. split; [by left|]. by intros c rest [=]. }
  assert (Hs : getBase (String c0 rest) = (if Sscanf_f (String c0 rest) || Sscanf_i (String c0 rest) then 10 else 0)
               ∨ (c0 = Ascii.zero ∧ (getBase (String c0 rest) = 16 ∨ getBase (String c0 rest) = 10
                                     ∨ getBase (String c0 rest) = 8 ∨ getBase (String c0 rest) = 2))).
  { unfold getBase.
    set (scan := if negb (Sscanf_f (String c0 rest)) && negb (Sscanf_i (String c0 rest))
                 then 0 else 10).
    assert (Hscan : scan = if Sscanf_f (String c0 rest) || Sscanf_i (String c0 rest)
                           then 10 else 0).
    { unfold scan. by destruct (Sscanf_f _), (Sscanf_i _). }
    destruct (Ascii.eqb_spec c0 Ascii.zero) as [->|Hne]; cbn [andb]; [|by left].
    destruct (3 <? Z.of_nat (String.length (String Ascii.zero rest))); [|by left].
    destruct rest as [|c1 rest]; [by left|].
    destruct (Ascii.eqb c1 "x"); [right; split; [done|by left]|].
    destruct (Ascii.eqb c1 "d"); [right; split; [done|right; by left]|].
    destruct (Ascii.eqb c1 "o"); [right; split; [done|right; right; by left]|].
    destruct (Ascii.eqb c1 "b"); [right; split; [done|by repeat right]|].
    by left. }
  split; [|split].
  - split; [|done]. destruct Hs as [Hs|(_ & [Hs|[Hs|[Hs|Hs]]])]; rewrite Hs; [|done..].
    by destruct (_ || _).
  - destruct Hs as [Hs|(_ & [Hs|[Hs|[Hs|Hs]]])]; rewrite Hs; [|tauto..].
    destruct (_ || _); tauto.
  - intros c rest' [= <- <-] Hc. destruct Hs as [Hs|(Hz & _)]; done.
Qed.

Lemma parseLexeme_total lx stk vs st :
  ∃ stk' vs' st',
    parseLexeme lx (stk, vs) st = (Ok (stk', vs'), st')
    ∧ (stk' = stk ∨ ∃ c, stk' = stk ++ [c] ∧ parsed st' c)
    ∧ (vs' = vs ∨ vs' = <["=" := assignEntry]> vs)
    ∧ (∃ ext, floats st' = floats st ++ ext)
    ∧ keyWords st' = keyWords st ∧ arrays st' = arrays st
    ∧ stack st' = stack st ∧ vars st' = vars st ∧ cursor st' = cursor st.
Proof.
  unfold parseLexeme. destruct (getBase lx =? 0).
  - destruct (String.eqb_spec (butlast lx) "=") as [He|_].
    + rewrite He. eexists _, _, _. split; [reflexivity|].
      split; [right; eexists; split; [reflexivity|by repeat split]|].
      split; [by right|]. split; [by exists []; rewrite app_nil_r|]. done.
    + unfold isKeyword. rewrite !bind_run, gets_run. cbv beta iota.
      unfold mret at 1, M_ret at 1. cbv beta iota.
      destruct (bool_decide (is_Some (keyWords st !! lx))) eqn:Hk.
      * apply bool_decide_eq_true in Hk. eexists _, _, _. split; [reflexivity|].
        split; [right; eexists; split; [reflexivity|by repeat split]|].
        split; [by left|]. split; [by exists []; rewrite app_nil_r|]. done.
      * apply bool_decide_eq_false in Hk. eexists _, _, _. split; [reflexivity|].
        split.
        { right. eexists. split; [reflexivity|]. repeat split.
          cbn. by apply eq_None_not_Some. }
        split; [by left|]. split; [by exists []; rewrite app_nil_r|]. done.
  - rewrite bind_run, NewFloat_run. cbv beta iota.
    destruct (Float_Parse lx (getBase lx)) as [v|].
    + rewrite bind_run, storeF_run. cbv beta iota.
      eexists _, _, _. split; [reflexivity|].
      split.
      { right. eexists. split; [reflexivity|]. repeat split. cbn.
        eexists. split; [reflexivity|]. cbn. apply lookup_lt_is_Some.
        rewrite length_insert, length_app. cbn. lia. }
      split; [by left|].
      split; [|done]. exists [v]. cbn.
      rewrite insert_app_r_alt by lia. by rewrite Nat.sub_diag.
    + eexists _, _, _. split; [reflexivity|].
      split; [by left|]. split; [by left|]. split; [by eexists|]. done.
Qed.

Lemma parsed_mono st st' c :
  (∃ ext, floats st' = floats st ++ ext) → keyWords st' = keyWords st →
  parsed st c → parsed st' c.
Proof.
  intros (ext & Hf) Hk (HB & HC & Ht). split; [done|]. split; [done|].
  rewrite Hk. destruct (Typ c); try done.
  destruct Ht as (Hv & l & Hl & Hs). split; [done|]. exists l. split; [done|].
  rewrite Hf. destruct Hs as (x & Hx). exists x. by apply lookup_app_l_Some.
Qed.

Lemma parseLoop_total lex : ∀ stk vs st,
  Forall (parsed st) stk →
  ∃ stk' vs' st',
    parseLoop lex (stk, vs) st = (Ok (stk', vs'), st')
    ∧ (length stk' ≤ length stk + length lex)%nat
    ∧ Forall (parsed st') stk'
    ∧ (∀ k v, vs' !! k = Some v → vs !! k = Some v ∨ (k = "=" ∧ v = assignEntry))
    ∧ (∃ ext, floats st' = floats st ++ ext)
    ∧ keyWords st' = keyWords st ∧ arrays st' = arrays st
    ∧ stack st' = stack st ∧ vars st' = vars st ∧ cursor st' = cursor st.
Proof.
  induction lex as [|lx lex IH]; intros stk vs st Hstk.
  - eexists _, _, _. split; [reflexivity|]. split; [cbn; lia|]. split; [done|].
    split; [by left|]. split; [by exists []; rewrite app_nil_r|]. done.
  - destruct (parseLexeme_total lx stk vs st)
      as (stk1 & vs1 & st1 & Hrun & Hc & Hv & Hf & Hk & Ha & Hs & Hvs & Hcu).
    assert (Hstk1 : Forall (parsed st1) stk1).
    { destruct Hc as [->|(c & -> & Hp)].
      - eapply Forall_impl; [exact Hstk|]. intros c. by apply parsed_mono.
      - apply Forall_app. split; [|by apply Forall_singleton].
        eapply Forall_impl; [exact Hstk|]. intros c'. by apply parsed_mono. }
    destruct (IH stk1 vs1 st1 Hstk1)
      as (stk2 & vs2 & st2 & Hrun2 & Hlen2 & Hp2 & Hv2 & Hf2 & Hk2 & Ha2 & Hs2 & Hvs2 & Hcu2).
    exists stk2, vs2, st2. split.
    { cbn [parseLoop]. rewrite bind_run, Hrun. exact Hrun2. }
    split.
    { destruct Hc as [->|(c & -> & _)]; [cbn; lia|]. rewrite length_app in Hlen2. cbn in *. lia. }
    split; [done|]. split.
    { intros k v Hkv. destruct (Hv2 k v Hkv) as [H1|H1]; [|by right].
      destruct Hv as [-> | ->]; [by left|].
      destruct (decide (k = "=")) as [->|Hne].
      - rewrite lookup_insert_eq in H1. right. split; [done|]. congruence.
      - rewrite lookup_insert_ne in H1 by done. by left. }
    split.
    { destruct Hf as (e1 & Hf), Hf2 as (e2 & Hf2). exists (e1 ++ e2).
      by rewrite Hf2, Hf, app_assoc. }
    repeat split; congruence.
Qed.

(** [Parse] never faults and touches nothing but the heap of floats,
    which it extends.  It returns at most one cell for each lexeme; every
    Code cell names a keyword; every Assignment cell is named ["="], and
    the table it returns binds no other name than ["="]: no lexeme makes
    an assignment to a name of the user's choice. *)
Theorem Parse_cells lex st :
  ∃ cells vs st',
    Parse lex st = (Ok (cells, vs), st')
    ∧ (length cells ≤ length lex)%nat
    ∧ Forall (parsed st') cells
    ∧ (∀ k v, vs !! k = Some v → k = "=" ∧ v = assignEntry)
    ∧ (∃ ext, floats st' = floats st ++ ext)
    ∧ keyWords st' = keyWords st ∧ arrays st' = arrays st
    ∧ stack st' = stack st ∧ vars st' = vars st ∧ cursor st' = cursor st.
Proof.
  destruct (parseLoop_total lex [] ∅ st (Forall_nil_2 _))
    as (cells & vs & st' & Hrun & Hlen & Hp & Hv & Hrest).
  exists cells, vs, st'. split; [exact Hrun|]. split; [exact Hlen|]. split; [done|].
  split; [|done]. intros k v Hkv. by destruct (Hv k v Hkv) as [H1|H1].
Qed.

(** ** The store only grows *)

Lemma grows_refl st : grows st st.
Proof. by repeat split. Qed.

Lemma grows_trans st1 st2 st3 : grows st1 st2 → grows st2 st3 → grows st1 st3.
Proof.
  intros (Hk1 & Hf1 & Ha1) (Hk2 & Hf2 & Ha2). split; [|split]; [|lia..].
  intros k Hk. by apply Hk2, Hk1.
Qed.

Lemma keeps_ret {A} (a : A) : keeps (mret a).
Proof. intros st. apply grows_refl. Qed.

Lemma keeps_get : keeps get.
Proof. intros st. apply grows_refl. Qed.

Lemma keeps_gets {A} (f : State → A) : keeps (gets f).
Proof. intros st. apply grows_refl. Qed.

Lemma keeps_panic {A} msg : keeps (panic (A:=A) msg).
Proof. intros st. apply grows_refl. Qed.

Lemma keeps_fatal {A} : keeps (fatal (A:=A)).
Proof. intros st. apply grows_refl. Qed.

Lemma keeps_outOfFuel {A} : keeps (outOfFuel (A:=A)).
Proof. intros st. apply grows_refl. Qed.

Lemma keeps_modify f : (∀ st, grows st (f st)) → keeps (modify f).
Proof. intros Hf st. apply Hf. Qed.

Lemma keeps_bind {A B} (m : M A) (f : A → M B) :
  keeps m → (∀ a, keeps (f a)) → keeps (m ≫= f).
Proof.
  intros Hm Hf st. rewrite bind_run. pose proof (Hm st) as H1.
  destruct (m st) as [[a|msg| |] st1]; cbn in *; [|done..].
  eapply grows_trans; [exact H1|apply Hf].
Qed.

Lemma keeps_get_modify {A} (g : State → State → State) (k : State → M A) :
  (∀ st, grows st (g st st)) → (∀ st, keeps (k st)) →
  keeps (st ← get; modify (g st) ;; k st).
Proof.
  intros Hg Hk st. rewrite bind_run. unfold get. cbv beta iota.
  rewrite bind_run, modify_run. cbv beta iota.
  eapply grows_trans; [apply Hg|apply Hk].
Qed.

(** Stores that differ in other fields, or that are longer. *)
Ltac grows_now :=
  intros; split; [|split]; cbn;
  [ let k := fresh "k" in let Hk := fresh "Hk" in
    intros k Hk; first [exact Hk | apply lookup_insert_is_Some'; right; exact Hk]
  | rewrite ?length_insert, ?length_app, ?length_alter; cbn; lia
  | rewrite ?length_insert, ?length_app, ?length_alter; cbn; lia ].

Lemma keeps_emit e : keeps (emit e).
Proof. unfold emit. apply keeps_modify. grows_now. Qed.

Lemma keeps_dbg {A} (m : M A) : keeps m → keeps (dbg m).
Proof.
  intros Hm. unfold dbg. apply keeps_bind; [apply keeps_gets|].
  intros [|]; [|apply keeps_ret]. apply keeps_bind; [done|]. intros _. apply keeps_ret.
Qed.

Lemma keeps_count_from body n : ∀ j, (∀ j', keeps (body j')) → keeps (count_from j n body).
Proof.
  induction n as [|n IH]; intros j Hb; cbn [count_from]; [apply keeps_ret|].
  apply keeps_bind; [apply Hb|]. intros _. by apply IH.
Qed.

Lemma keeps_for_upto n body : (∀ j, keeps (body j)) → keeps (for_upto n body).
Proof. intros Hb. by apply keeps_count_from. Qed.

Ltac keeps_step :=
  first
    [ lazymatch goal with
      | |- keeps (dbg _) => apply keeps_dbg
      | |- keeps (for_upto _ _) => apply keeps_for_upto; intros ?
      end
    | solve [auto with kw]
    | apply keeps_ret | apply keeps_get | apply keeps_gets | apply keeps_panic
    | apply keeps_fatal | apply keeps_outOfFuel
    | lazymatch goal with
      | |- keeps (?m ≫= _) =>
          lazymatch m with get => apply keeps_get_modify; [solve [grows_now]|intros ?] end
      end
    | apply keeps_bind; [|intros ?]
    | apply keeps_modify; solve [grows_now]
    | match goal with
      | |- keeps (if ?b then _ else _) => destruct b
      | |- keeps (match ?x with _ => _ end) => destruct x
      | |- keeps (let '(_, _) := ?x in _) => destruct x
      end ].

Ltac keeps_all := repeat keeps_step.

Create HintDb kw.

Lemma keeps_readAt s k : keeps (readAt s k).
Proof. unfold readAt. keeps_all. Qed.
#[local] Hint Resolve keeps_emit keeps_readAt : kw.
Lemma keeps_updAt s k f : keeps (updAt s k f).
Proof. unfold updAt. keeps_all. Qed.
#[local] Hint Resolve keeps_updAt : kw.
Lemma keeps_writeAt s k v : keeps (writeAt s k v).
Proof. unfold writeAt. keeps_all. Qed.
Lemma keeps_sub s lo hi : keeps (sub s lo hi).
Proof. unfold sub. keeps_all. Qed.
#[local] Hint Resolve keeps_writeAt keeps_sub : kw.
Lemma keeps_from s lo : keeps (from s lo).
Proof. unfold from. keeps_all. Qed.
Lemma keeps_upto s hi : keeps (upto s hi).
Proof. unfold upto. keeps_all. Qed.
Lemma keeps_make n : keeps (make n).
Proof. unfold make. keeps_all. Qed.
Lemma keeps_appendList d xs : keeps (appendList d xs).
Proof. unfold appendList. keeps_all. Qed.
#[local] Hint Resolve keeps_from keeps_upto keeps_make keeps_appendList : kw.
Lemma keeps_append d s : keeps (append d s).
Proof. unfold append. keeps_all. Qed.
#[local] Hint Resolve keeps_append : kw.
Lemma keeps_remove s pos n : keeps (remove s pos n).
Proof. unfold remove. keeps_all. Qed.
Lemma keeps_NewFloat v : keeps (NewFloat v).
Proof. unfold NewFloat. keeps_all. Qed.
Lemma keeps_loadF p : keeps (loadF p).
Proof. unfold loadF. keeps_all. Qed.
Lemma keeps_storeF p v : keeps (storeF p v).
Proof. unfold storeF. keeps_all. Qed.
#[local] Hint Resolve keeps_remove keeps_NewFloat keeps_loadF keeps_storeF : kw.
Lemma keeps_Float_op op z x y : keeps (Float_op op z x y).
Proof. unfold Float_op. keeps_all. Qed.
Lemma keeps_Float_Neg z x : keeps (Float_Neg z x).
Proof. unfold Float_Neg. keeps_all. Qed.
Lemma keeps_Float_Int x : keeps (Float_Int x).
Proof. unfold Float_Int. keeps_all. Qed.
Lemma keeps_Float_Int64 x : keeps (Float_Int64 x).
Proof. unfold Float_Int64. keeps_all. Qed.
Lemma keeps_Float_Uint64 x : keeps (Float_Uint64 x).
Proof. unfold Float_Uint64. keeps_all. Qed.
Lemma keeps_Float_SetInt z v : keeps (Float_SetInt z v).
Proof. unfold Float_SetInt. keeps_all. Qed.
Lemma keeps_idx k : keeps (idx k).
Proof. unfold idx. keeps_all. Qed.
Lemma keeps_setIdx k v : keeps (setIdx k v).
Proof. unfold setIdx. keeps_all. Qed.
Lemma keeps_updIdx k f : keeps (updIdx k f).
Proof. unfold updIdx. keeps_all. Qed.
Lemma keeps_setStack s : keeps (setStack s).
Proof. unfold setStack. keeps_all. Qed.
Lemma keeps_setCursor k : keeps (setCursor k).
Proof. unfold setCursor. keeps_all. Qed.
Lemma keeps_lenStack : keeps lenStack.
Proof. unfold lenStack. keeps_all. Qed.
Lemma keeps_varsGet k : keeps (varsGet k).
Proof. unfold varsGet. keeps_all. Qed.
Lemma keeps_varsSet k v : keeps (varsSet k v).
Proof. unfold varsSet. keeps_all. Qed.
Lemma keeps_isKeyword s : keeps (isKeyword s).
Proof. unfold isKeyword. keeps_all. Qed.
#[local] Hint Resolve keeps_Float_op keeps_Float_Neg keeps_Float_Int keeps_Float_Int64
  keeps_Float_Uint64 keeps_Float_SetInt keeps_idx keeps_setIdx keeps_updIdx
  keeps_setStack keeps_setCursor keeps_lenStack keeps_varsGet keeps_varsSet
  keeps_isKeyword : kw.
Lemma keeps_removeStack pos n : keeps (removeStack pos n).
Proof. unfold removeStack. keeps_all. Qed.
#[local] Hint Resolve keeps_removeStack : kw.

Lemma keeps_arith op : keeps (arith op).
Proof. unfold arith. keeps_all. Qed.
Lemma keeps_intop f : keeps (intop f).
Proof. unfold intop. keeps_all. Qed.
Lemma keeps_shiftop f : keeps (shiftop f).
Proof. unfold shiftop. keeps_all. Qed.
Lemma keeps_compare a b c : keeps (compare a b c).
Proof. unfold compare. keeps_all. Qed.
Lemma keeps_boolop f : keeps (boolop f).
Proof. unfold boolop. keeps_all. Qed.
Lemma keeps_mathop name : keeps (mathop name).
Proof. unfold mathop. keeps_all. Qed.
Lemma keeps_powop : keeps powop.
Proof. unfold powop. keeps_all. Qed.
Lemma keeps_modeop m : keeps (modeop m).
Proof. unfold modeop. keeps_all. Qed.
Lemma keeps_constop v : keeps (constop v).
Proof. unfold constop. keeps_all. Qed.
Lemma keeps_hton w : keeps (hton w).
Proof. unfold hton. keeps_all. Qed.
Lemma keeps_ntoh : keeps ntoh.
Proof. unfold ntoh. keeps_all. Qed.
Lemma keeps_op_debug : keeps op_debug.
Proof. unfold op_debug. keeps_all. Qed.
Lemma keeps_op_cla : keeps op_cla.
Proof. unfold op_cla. keeps_all. Qed.
Lemma keeps_op_clr : keeps op_clr.
Proof. unfold op_clr. keeps_all. Qed.
Lemma keeps_op_clv : keeps op_clv.
Proof. unfold op_clv. keeps_all. Qed.
Lemma keeps_op_not : keeps op_not.
Proof. unfold op_not. keeps_all. Qed.
Lemma keeps_incdec op : keeps (incdec op).
Proof. unfold incdec. keeps_all. Qed.
Lemma keeps_op_bitnot : keeps op_bitnot.
Proof. unfold op_bitnot. keeps_all. Qed.
Lemma keeps_op_fact : keeps op_fact.
Proof. unfold op_fact. keeps_all. Qed.
Lemma keeps_op_pick : keeps op_pick.
Proof. unfold op_pick. keeps_all. Qed.
Lemma keeps_op_repeat : keeps op_repeat.
Proof. unfold op_repeat. keeps_all. Qed.
Lemma keeps_op_depth : keeps op_depth.
Proof. unfold op_depth. keeps_all. Qed.
Lemma keeps_op_drop : keeps op_drop.
Proof. unfold op_drop. keeps_all. Qed.
Lemma keeps_op_dropn : keeps op_dropn.
Proof. unfold op_dropn. keeps_all. Qed.
Lemma keeps_op_dup : keeps op_dup.
Proof. unfold op_dup. keeps_all. Qed.
Lemma keeps_op_dupn : keeps op_dupn.
Proof. unfold op_dupn. keeps_all. Qed.
Lemma keeps_op_roll : keeps op_roll.
Proof. unfold op_roll. keeps_all. Qed.
Lemma keeps_op_rolld : keeps op_rolld.
Proof. unfold op_rolld. keeps_all. Qed.
Lemma keeps_op_stack : keeps op_stack.
Proof. unfold op_stack. keeps_all. Qed.
Lemma keeps_op_swap : keeps op_swap.
Proof. unfold op_swap. keeps_all. Qed.
Lemma keeps_op_macro : keeps op_macro.
Proof. unfold op_macro. keeps_all. Qed.
Lemma keeps_op_help : keeps op_help.
Proof. unfold op_help. keeps_all. Qed.
Lemma keeps_op_exit : keeps op_exit.
Proof. unfold op_exit. keeps_all. Qed.
Lemma keeps_op_default : keeps op_default.
Proof. unfold op_default. keeps_all. Qed.
#[local] Hint Resolve keeps_arith keeps_intop keeps_shiftop keeps_compare keeps_boolop
  keeps_mathop keeps_powop keeps_modeop keeps_constop keeps_hton keeps_ntoh
  keeps_op_debug keeps_op_cla keeps_op_clr keeps_op_clv keeps_op_not keeps_incdec
  keeps_op_bitnot keeps_op_fact keeps_op_pick keeps_op_repeat keeps_op_depth
  keeps_op_drop keeps_op_dropn keeps_op_dup keeps_op_dupn keeps_op_roll keeps_op_rolld
  keeps_op_stack keeps_op_swap keeps_op_macro keeps_op_help keeps_op_exit
  keeps_op_default : kw.

Lemma keeps_switch name cs dflt :
  Forall (λ p, keeps (snd p)) cs → keeps dflt → keeps (switch name cs dflt).
Proof.
  intros Hcs Hd. induction Hcs as [|[k m] cs Hm _ IH]; [done|].
  cbn [switch]. by destruct (String.eqb name k).
Qed.

Lemma keeps_cases : Forall (λ p, keeps (snd p)) cases.
Proof. unfold cases. repeat (apply Forall_cons; split; [cbn [snd]; keeps_all|]). done. Qed.

Lemma keeps_body : keeps body.
Proof.
  unfold body. keeps_all.
  apply keeps_switch; [apply keeps_cases|apply keeps_op_default].
Qed.

Lemma keeps_step : keeps step.
Proof. unfold step. apply keeps_bind; [apply keeps_body|]. intros _. keeps_all. Qed.

Lemma keeps_loop fuel : keeps (loop fuel).
Proof.
  induction fuel as [|fuel IH]; cbn [loop];
    (apply keeps_bind; [apply keeps_gets|intros i]);
    (apply keeps_bind; [apply keeps_lenStack|intros l]);
    (destruct (i <? l); [|apply keeps_ret]).
  - apply keeps_outOfFuel.
  - apply keeps_bind; [apply keeps_step|]. intros _. apply IH.
Qed.

(** Whatever [Eval] does and however it ends, it takes nothing away: a
    name that is a keyword stays one, so a Code cell made by [Parse] never
    turns into an unknown name, and every pointer to a float and every
    slice keeps an allocated target. *)
Theorem Eval_only_grows_the_store fuel stk vs ip st :
  grows st (snd (Eval fuel stk vs ip st)).
Proof.
  unfold Eval. set (st0 := set_cursor _ _).
  assert (H0 : grows st st0) by (by repeat split).
  pose proof (keeps_loop fuel st0) as H1.
  destruct (loop fuel st0) as [[[]|msg| |] st1]; cbn [snd] in *;
    try (eapply grows_trans; [exact H0|exact H1]).
  unfold deferred. destruct ((i ← gets cursor; idx i) st1) as [[v|?| |] ?]; cbn [snd];
    eapply grows_trans; try exact H0; try exact H1.
Qed.

(** ** From one line to the next *)







End Operators.

(** ** The further statements at concrete inputs *)

Ltac kw_now := eexists; vm_compute; reflexivity.

Lemma remove_window_witness :
  let st := store_of heap [numCell 1; numCell 2; numCell 3] (Some ∅) 0 in
  let s := Slice 0 0 3 3 in
  holds st s ([numCell 1] ++ [numCell 2] ++ [numCell 3])
  ∧ ∃ s' st',
      remove (R:=sample_runtime) s 2 1 st = (Ok s', st')
      ∧ holds st' s' ([numCell 1] ++ [numCell 3])
      ∧ arr s' = 0%nat ∧ off s' = 0%nat ∧ cap s' = 3%nat
      ∧ floats st' = heap.
Proof.
  intros st s.
  assert (H : holds st s ([numCell 1] ++ [numCell 2] ++ [numCell 3]))
    by (repeat split; cbn; lia).
  split; [exact H|].
  exact (remove_cuts_a_window (R:=sample_runtime) st s [numCell 1] [numCell 2] [numCell 3] H).
Defined.

Lemma remove_faults_witness :
  let st := store_of heap [numCell 1; numCell 2; numCell 3] (Some ∅) 0 in
  let s := Slice 0 0 3 3 in
  (len s ≤ cap s)%nat
  ∧ ((∃ msg, remove (R:=sample_runtime) s 1 2 st = (Panic msg, st))
     ↔ (1 - 2 < 0 ∨ 3 < 1 - 2 ∨ 1 < 0 ∨ 3 < 1)).
Proof.
  intros st s.
  assert (H : (len s ≤ cap s)%nat) by (cbn; lia).
  split; [exact H|].
  exact (remove_faults_outside_the_stack (R:=sample_runtime) st s 1 2 H).
Defined.

Lemma drop_witness :
  let st := store_of heap [numCell 1; numCell 2; codeCell "drop"; numCell 3; numCell 4]
                     (Some ∅) 2 in
  holds st (stack st) ([numCell 1] ++ numCell 2 :: codeCell "drop" :: [numCell 3; numCell 4])
  ∧ ∃ st',
      step (R:=sample_runtime) st = (Ok tt, st')
      ∧ holds st' (stack st') ([numCell 1] ++ [numCell 3; numCell 4])
      ∧ cursor st' = 2
      ∧ vars st' = Some ∅
      ∧ floats st' = heap ++ [FZero false].
Proof.
  intros st.
  assert (H : holds st (stack st)
                ([numCell 1] ++ numCell 2 :: codeCell "drop" :: [numCell 3; numCell 4]))
    by (repeat split; cbn; lia).
  split; [exact H|].
  apply (drop_skips_the_next_cell (R:=sample_runtime) st [numCell 1] (numCell 2)
           (codeCell "drop") [numCell 3; numCell 4]);
    [exact H|reflexivity|reflexivity|reflexivity|kw_now].
Defined.

Lemma swap_witness :
  let st := store_of heap [numCell 1; numCell 2; codeCell "swap"; numCell 3] (Some ∅) 2 in
  holds st (stack st) ([] ++ numCell 1 :: numCell 2 :: codeCell "swap" :: [numCell 3])
  ∧ ∃ st',
      step (R:=sample_runtime) st = (Ok tt, st')
      ∧ holds st' (stack st') ([] ++ numCell 2 :: numCell 1 :: [numCell 3])
      ∧ cursor st' = 3
      ∧ vars st' = Some ∅
      ∧ floats st' = heap ++ [FZero false].
Proof.
  intros st.
  assert (H : holds st (stack st)
                ([] ++ numCell 1 :: numCell 2 :: codeCell "swap" :: [numCell 3]))
    by (repeat split; cbn; lia).
  split; [exact H|].
  apply (swap_skips_the_next_cell (R:=sample_runtime) st [] (numCell 1) (numCell 2)
           (codeCell "swap") [numCell 3]);
    [exact H|reflexivity|reflexivity|reflexivity|kw_now].
Defined.

Lemma dup_witness :
  let st := store_of heap [numCell 1; numCell 2; codeCell "dup"; numCell 3] (Some ∅) 2 in
  holds st (stack st) ([numCell 1] ++ numCell 2 :: codeCell "dup" :: [numCell 3])
  ∧ ∃ st',
      step (R:=sample_runtime) st = (Ok tt, st')
      ∧ holds st' (stack st') ([numCell 1] ++ numCell 2 :: numCell 2 :: [numCell 3])
      ∧ cursor st' = 3
      ∧ vars st' = Some ∅
      ∧ floats st' = heap ++ [FZero false].
Proof.
  intros st.
  assert (H : holds st (stack st) ([numCell 1] ++ numCell 2 :: codeCell "dup" :: [numCell 3]))
    by (repeat split; cbn; lia).
  split; [exact H|].
  apply (dup_copies_the_cell (R:=sample_runtime) st [numCell 1] (numCell 2)
           (codeCell "dup") [numCell 3]);
    [exact H|reflexivity|reflexivity|reflexivity|kw_now].
Defined.

Lemma dropn_witness :
  let st := store_of heap
              [numCell 1; numCell 3; numCell 4; numCell 2; codeCell "dropn"; numCell 1;
               numCell 1; numCell 1] (Some ∅) 4 in
  (holds st (stack st)
     ([numCell 1] ++ [numCell 3; numCell 4] ++ numCell 2 :: codeCell "dropn"
        :: [numCell 1; numCell 1; numCell 1])
   ∧ float_of st (numCell 2) = Some (ofZ 2) ∧ Int64 (ofZ 2) = 2)
  ∧ ∃ st',
      step (R:=sample_runtime) st = (Ok tt, st')
      ∧ holds st' (stack st') ([numCell 1] ++ [numCell 1; numCell 1; numCell 1])
      ∧ cursor st' = 3
      ∧ vars st' = Some ∅
      ∧ floats st' = heap ++ [FZero false].
Proof.
  intros st.
  assert (H : holds st (stack st)
                ([numCell 1] ++ [numCell 3; numCell 4] ++ numCell 2 :: codeCell "dropn"
                   :: [numCell 1; numCell 1; numCell 1]))
    by (repeat split; cbn; lia).
  split; [split; [exact H|split; reflexivity]|].
  apply (dropn_skips_two_cells (R:=sample_runtime) st [numCell 1] [numCell 3; numCell 4]
           (numCell 2) (codeCell "dropn") [numCell 1; numCell 1; numCell 1] (ofZ 2));
    [exact H|reflexivity|reflexivity|reflexivity|kw_now|reflexivity|reflexivity].
Defined.

Lemma mode_witness :
  let st := store_of heap [numCell 1; codeCell "hex"; numCell 2] (Some ∅) 1 in
  (holds st (stack st) ([numCell 1] ++ codeCell "hex" :: [numCell 2])
   ∧ "hex" ∈ ["hex"; "dec"; "bin"; "oct"])
  ∧ ∃ st',
      step (R:=sample_runtime) st = (Ok tt, st')
      ∧ Mode st' = "hex"
      ∧ holds st' (stack st') ([numCell 1] ++ [numCell 2])
      ∧ cursor st' = 1
      ∧ vars st' = Some ∅.
Proof.
  intros st.
  assert (H : holds st (stack st) ([numCell 1] ++ codeCell "hex" :: [numCell 2]))
    by (repeat split; cbn; lia).
  assert (Hn : "hex" ∈ ["hex"; "dec"; "bin"; "oct"]) by (apply elem_of_cons; left; reflexivity).
  split; [split; [exact H|exact Hn]|].
  apply (mode_switch_sets_Mode (R:=sample_runtime) st "hex" [numCell 1]
           (codeCell "hex") [numCell 2]);
    [exact H|reflexivity|reflexivity|reflexivity|kw_now|exact Hn].
Defined.

Lemma not_witness :
  let st := store_of heap [numCell 3; codeCell "!"; numCell 1] (Some ∅) 1 in
  (holds st (stack st) ([] ++ numCell 3 :: codeCell "!" :: [numCell 1])
   ∧ floats st !! 3%nat = Some (ofZ 3))
  ∧ ∃ st',
      step (R:=sample_runtime) st = (Ok tt, st')
      ∧ holds st' (stack st') ([] ++ numCell 3 :: [numCell 1])
      ∧ floats st' = <[3%nat := Neg (ofZ 3)]> (heap ++ [FZero false])
      ∧ (∀ c', F c' = Some 3%nat → float_of st' c' = Some (Neg (ofZ 3)))
      ∧ (∀ z, int_value (ofZ 3) = Some z → int_value (Neg (ofZ 3)) = Some (- z))
      ∧ cursor st' = 1
      ∧ vars st' = Some ∅.
Proof.
  intros st.
  assert (H : holds st (stack st) ([] ++ numCell 3 :: codeCell "!" :: [numCell 1]))
    by (repeat split; cbn; lia).
  split; [split; [exact H|reflexivity]|].
  apply (not_negates_in_place (R:=sample_runtime) st [] (numCell 3) (codeCell "!")
           [numCell 1] 3%nat (ofZ 3));
    [exact H|reflexivity|reflexivity|reflexivity|kw_now|reflexivity|reflexivity].
Defined.

Lemma incdec_witness :
  let st := store_of heap [numCell 3; codeCell "++"; numCell 3] (Some ∅) 1 in
  (holds st (stack st) ([] ++ numCell 3 :: codeCell "++" :: [numCell 3])
   ∧ incdec_op "++" = Some Add
   ∧ floats st !! 3%nat = Some (ofZ 3)
   ∧ Add (ofZ 3) (ofZ 1) = Some (ofZ 4))
  ∧ ∃ st',
      step (R:=sample_runtime) st = (Ok tt, st')
      ∧ holds st' (stack st') ([] ++ numCell 3 :: [numCell 3])
      ∧ floats st' = <[3%nat := ofZ 4]> (heap ++ [FZero false; ofZ 1])
      ∧ (∀ c', F c' = Some 3%nat → float_of st' c' = Some (ofZ 4))
      ∧ cursor st' = 1
      ∧ vars st' = Some ∅.
Proof.
  intros st.
  assert (H : holds st (stack st) ([] ++ numCell 3 :: codeCell "++" :: [numCell 3]))
    by (repeat split; cbn; lia).
  assert (Ha : Add (ofZ 3) (ofZ 1) = Some (ofZ 4)) by (vm_compute; reflexivity).
  split; [split; [exact H|split; [reflexivity|split; [reflexivity|exact Ha]]]|].
  apply (incdec_changes_the_float_in_place (R:=sample_runtime) st "++" Add []
           (numCell 3) (codeCell "++") [numCell 3] 3%nat (ofZ 3) (ofZ 4));
    [exact H|reflexivity|reflexivity|reflexivity|kw_now|reflexivity|reflexivity
    |reflexivity|exact Ha].
Defined.

Lemma assignment_witness :
  let asg := mkVar TAssignment "=" (Some Zero) [] nil_slice in
  let st := store_of heap [numCell 3; asg; numCell 1; numCell 2; numCell 4] (Some ∅) 1 in
  holds st (stack st) ([] ++ numCell 3 :: asg :: [numCell 1; numCell 2; numCell 4])
  ∧ ∃ st',
      step (R:=sample_runtime) st = (Ok tt, st')
      ∧ vars st' = Some (<["=" := numCell 3]> ∅)
      ∧ holds st' (stack st') ([] ++ [numCell 1; numCell 2; numCell 4])
      ∧ cursor st' = 2
      ∧ floats st' = heap.
Proof.
  intros asg st.
  assert (H : holds st (stack st)
                ([] ++ numCell 3 :: asg :: [numCell 1; numCell 2; numCell 4]))
    by (repeat split; cbn; lia).
  split; [exact H|].
  apply (assignment_binds_and_skips (R:=sample_runtime) st [] (numCell 3) asg
           [numCell 1; numCell 2; numCell 4]);
    [exact H|reflexivity|reflexivity].
Defined.

Lemma bound_name_witness :
  let st := store_of heap [numCell 1; varCell "y"; numCell 2]
                     (Some (<["y" := numCell 4]> ∅)) 1 in
  (holds st (stack st) ([numCell 1] ++ varCell "y" :: [numCell 2])
   ∧ vars st ≫= (.!! "y") = Some (numCell 4))
  ∧ ∃ st',
      step (R:=sample_runtime) st = (Ok tt, st')
      ∧ holds st' (stack st') ([numCell 1] ++ numCell 4 :: [numCell 2])
      ∧ cursor st' = 1
      ∧ vars st' = Some (<["y" := numCell 4]> ∅)
      ∧ floats st' = heap.
Proof.
  intros st.
  assert (H : holds st (stack st) ([numCell 1] ++ varCell "y" :: [numCell 2]))
    by (repeat split; cbn; lia).
  assert (Hv : vars st ≫= (.!! "y") = Some (numCell 4)) by (vm_compute; reflexivity).
  split; [split; [exact H|exact Hv]|].
  apply (bound_name_is_replaced (R:=sample_runtime) st [numCell 1] (varCell "y")
           [numCell 2] (numCell 4));
    [exact H|reflexivity|left; reflexivity|exact Hv].
Defined.

Lemma unknown_name_witness :
  let c := mkVar TCode "nope" (Some Zero) [] nil_slice in
  let st := store_of heap [numCell 1; c] (Some ∅) 0 in
  let stk := Slice 0 0 2 2 in
  (holds st stk ([numCell 1] ++ c :: []) ∧ keyWords st !! "nope" = None)
  ∧ Eval (R:=sample_runtime) 1 stk (Some ∅) 1 st
    = (Fatal, set_out [Stderr "TODO nope"]
                (set_cursor 1 (set_vars (Some ∅) (set_stack stk st)))).
Proof.
  intros c st stk.
  assert (H : holds st stk ([numCell 1] ++ c :: [])) by (repeat split; cbn; lia).
  assert (Hk : keyWords st !! V c = None) by (vm_compute; reflexivity).
  split; [split; [exact H|exact Hk]|].
  apply (unknown_name_is_fatal (R:=sample_runtime) 0 st stk (Some ∅) [numCell 1] c []);
    [exact H|reflexivity|exact Hk|reflexivity].
Defined.

Lemma clv_witness :
  let st := store_of heap [numCell 1; codeCell "clv"; numCell 2]
                     (Some (<["y" := numCell 4]> ∅)) 1 in
  holds st (stack st) ([numCell 1] ++ codeCell "clv" :: [numCell 2])
  ∧ ∃ st',
      step (R:=sample_runtime) st = (Ok tt, st')
      ∧ vars st' = Some ∅
      ∧ holds st' (stack st')
          ([numCell 1] ++ with_F (Some 5%nat) (codeCell "clv") :: [numCell 2])
      ∧ cursor st' = 2.
Proof.
  intros st.
  assert (H : holds st (stack st) ([numCell 1] ++ codeCell "clv" :: [numCell 2]))
    by (repeat split; cbn; lia).
  split; [exact H|].
  apply (clv_clears_the_variables (R:=sample_runtime) st [numCell 1] (codeCell "clv")
           [numCell 2]);
    [exact H|reflexivity|reflexivity|reflexivity|kw_now].
Defined.

Lemma numbers_witness :
  let st := store_of heap [codeCell "dup"; numCell 1; numCell 2] (Some ∅) 0 in
  let stk := Slice 0 0 3 3 in
  (holds st stk ([codeCell "dup"] ++ [numCell 1; numCell 2])
   ∧ Forall (λ c, Typ c = TNumber ∨ Typ c = TString) [numCell 1; numCell 2]
   ∧ (length [numCell 1; numCell 2] ≤ 2)%nat)
  ∧ Eval (R:=sample_runtime) 2 stk (Some ∅) 1 st
    = (Ok (stk, Some ∅, 3), set_cursor 3 (set_vars (Some ∅) (set_stack stk st))).
Proof.
  intros st stk.
  assert (H : holds st stk ([codeCell "dup"] ++ [numCell 1; numCell 2]))
    by (repeat split; cbn; lia).
  assert (Hf : Forall (λ c, Typ c = TNumber ∨ Typ c = TString) [numCell 1; numCell 2])
    by (repeat constructor).
  assert (Hl : (length [numCell 1; numCell 2] ≤ 2)%nat) by (cbn; lia).
  split; [split; [exact H|split; [exact Hf|exact Hl]]|].
  exact (Eval_leaves_numbers_alone (R:=sample_runtime) 2 st stk (Some ∅)
           [codeCell "dup"] [numCell 1; numCell 2] H Hf Hl).
Defined.

Lemma exit_witness :
  let st := store_of heap [numCell 1; codeCell "exit"; numCell 3; numCell 4; codeCell "+"]
                     (Some ∅) 0 in
  let stk := Slice 0 0 5 5 in
  holds st stk ([numCell 1] ++ codeCell "exit" :: [numCell 3; numCell 4; codeCell "+"])
  ∧ ∃ st',
      Eval (R:=sample_runtime) 1 stk (Some ∅) 1 st = (Ok (stk, Some ∅, 5), st')
      ∧ Exit st' = true
      ∧ holds st' stk ([numCell 1] ++ with_F (Some 5%nat) (codeCell "exit")
                         :: [numCell 3; numCell 4; codeCell "+"]).
Proof.
  intros st stk.
  assert (H : holds st stk
                ([numCell 1] ++ codeCell "exit" :: [numCell 3; numCell 4; codeCell "+"]))
    by (repeat split; cbn; lia).
  split; [exact H|].
  apply (exit_ends_the_pass (R:=sample_runtime) 0 st stk (Some ∅) [numCell 1]
           (codeCell "exit") [numCell 3; numCell 4; codeCell "+"]);
    [exact H|reflexivity|reflexivity|kw_now].
Defined.

Lemma clr_witness :
  let st := store_of heap [numCell 1; codeCell "clr"; numCell 2] (Some ∅) 0 in
  let stk := Slice 0 0 3 3 in
  holds st stk ([numCell 1] ++ codeCell "clr" :: [numCell 2])
  ∧ ∃ st' s',
      Eval (R:=sample_runtime) 1 stk (Some (<["y" := numCell 4]> ∅)) 1 st
      = (Ok (s', Some (<["y" := numCell 4]> ∅), 0), st')
      ∧ len s' = 0%nat ∧ elems st' s' = [].
Proof.
  intros st stk.
  assert (H : holds st stk ([numCell 1] ++ codeCell "clr" :: [numCell 2]))
    by (repeat split; cbn; lia).
  split; [exact H|].
  apply (clr_clears_the_stack_only (R:=sample_runtime) 0 st stk
           (Some (<["y" := numCell 4]> ∅)) [numCell 1] (codeCell "clr") [numCell 2]);
    [exact H|reflexivity|reflexivity|kw_now].
Defined.

Lemma debug_repeats_witness :
  let st := store_of heap [codeCell "debug"; numCell 1; numCell 2] (Some ∅) 0 in
  holds st (stack st) ([] ++ codeCell "debug" :: [numCell 1] ++ [numCell 2])
  ∧ ∃ st',
      step (R:=sample_runtime) st = (Ok tt, st')
      ∧ debug st' = true
      ∧ holds st' (stack st') ([] ++ [numCell 1] ++ [numCell 2; numCell 2])
      ∧ cursor st' = 0.
Proof.
  intros st.
  assert (H : holds st (stack st) ([] ++ codeCell "debug" :: [numCell 1] ++ [numCell 2]))
    by (repeat split; cbn; lia).
  split; [exact H|].
  apply (debug_repeats_the_last_cell (R:=sample_runtime) st [] (codeCell "debug")
           (numCell 2) [numCell 1]);
    [exact H|reflexivity|reflexivity|reflexivity|kw_now].
Defined.

Lemma debug_never_returns_witness :
  let st := store_of heap [numCell 1; codeCell "debug"] (Some ∅) 0 in
  let stk := Slice 0 0 2 2 in
  holds st stk ([numCell 1] ++ [codeCell "debug"])
  ∧ ∃ st', Eval (R:=sample_runtime) 1000 stk (Some ∅) 1 st = (OutOfFuel, st').
Proof.
  intros st stk.
  assert (H : holds st stk ([numCell 1] ++ [codeCell "debug"]))
    by (repeat split; cbn; lia).
  split; [exact H|].
  apply (debug_at_the_end_never_returns (R:=sample_runtime) 1000 st stk (Some ∅)
           [numCell 1] (codeCell "debug"));
    [exact H|reflexivity|reflexivity|kw_now].
Defined.

Lemma comparison_witness :
  let st := store_of heap [numCell 3; numCell 4; codeCell ">="] (Some ∅) 2 in
  (holds st (stack st) ([] ++ numCell 3 :: numCell 4 :: codeCell ">=" :: [])
   ∧ float_of st (numCell 3) = Some (ofZ 3) ∧ float_of st (numCell 4) = Some (ofZ 4)
   ∧ truth ">=" (Cmp (ofZ 4) (ofZ 3)) = Some true)
  ∧ ∃ st' res,
      step (R:=sample_runtime) st = (Ok tt, st')
      ∧ holds st' (stack st') ([] ++ res :: [])
      ∧ Typ res = TNumber
      ∧ F res = Some One
      ∧ cursor st' = 1
      ∧ vars st' = Some ∅.
Proof.
  intros st.
  assert (H : holds st (stack st) ([] ++ numCell 3 :: numCell 4 :: codeCell ">=" :: []))
    by (repeat split; cbn; lia).
  assert (Ht : truth ">=" (Cmp (ofZ 4) (ofZ 3)) = Some true) by (vm_compute; reflexivity).
  split; [split; [exact H|split; [reflexivity|split; [reflexivity|exact Ht]]]|].
  apply (comparison_table (R:=sample_runtime) st ">=" true [] (numCell 3) (numCell 4)
           (codeCell ">=") [] (ofZ 3) (ofZ 4));
    [exact H|reflexivity|reflexivity|reflexivity|kw_now|reflexivity|reflexivity|exact Ht].
Defined.

Lemma boolean_witness :
  let st := store_of [FZero false; ofZ 1; ofZ (-1)]
                     [numCell 2; numCell 1; codeCell "&&"] (Some ∅) 2 in
  (holds st (stack st) ([] ++ numCell 2 :: numCell 1 :: codeCell "&&" :: [])
   ∧ bool_op "&&" = Some andb
   ∧ float_of st (numCell 2) = Some (ofZ (-1)) ∧ float_of st (numCell 1) = Some (ofZ 1))
  ∧ ∃ st' res,
      step (R:=sample_runtime) st = (Ok tt, st')
      ∧ holds st' (stack st') ([] ++ res :: [])
      ∧ Typ res = TNumber
      ∧ F res = Some Zero
      ∧ cursor st' = 1
      ∧ vars st' = Some ∅
      ∧ (∀ m e, Uint64 (FFin true m e) = 0).
Proof.
  intros st.
  assert (H : holds st (stack st) ([] ++ numCell 2 :: numCell 1 :: codeCell "&&" :: []))
    by (repeat split; cbn; lia).
  split; [split; [exact H|split; [reflexivity|split; reflexivity]]|].
  apply (boolean_operators (R:=sample_runtime) st "&&" andb [] (numCell 2) (numCell 1)
           (codeCell "&&") [] (ofZ (-1)) (ofZ 1));
    [exact H|reflexivity|reflexivity|reflexivity|kw_now|reflexivity|reflexivity|reflexivity].
Defined.

Lemma bitnot_witness :
  let st := store_of heap [numCell 3; numCell 4; codeCell "~"] (Some ∅) 2 in
  (holds st (stack st) ([] ++ numCell 3 :: numCell 4 :: codeCell "~" :: [])
   ∧ float_of st (numCell 3) = Some (ofZ 3) ∧ Int (ofZ 3) = Some 3)
  ∧ ∃ st' res,
      step (R:=sample_runtime) st = (Ok tt, st')
      ∧ holds st' (stack st') ([] ++ numCell 3 :: res :: [])
      ∧ Typ res = TNumber
      ∧ float_of st' res = Some (SetInt (Z.lnot 3))
      ∧ (Z.abs (Z.lnot 3) <= 2 ^ 53 → int_value (SetInt (Z.lnot 3)) = Some (- 3 - 1))
      ∧ cursor st' = 2
      ∧ vars st' = Some ∅.
Proof.
  intros st.
  assert (H : holds st (stack st) ([] ++ numCell 3 :: numCell 4 :: codeCell "~" :: []))
    by (repeat split; cbn; lia).
  assert (Hi : Int (ofZ 3) = Some 3) by (vm_compute; reflexivity).
  split; [split; [exact H|split; [reflexivity|exact Hi]]|].
  apply (bitnot_reads_the_second_cell (R:=sample_runtime) st [] (numCell 3) (numCell 4)
           (codeCell "~") [] (ofZ 3) 3);
    [exact H|reflexivity|reflexivity|reflexivity|kw_now|reflexivity|exact Hi].
Defined.

Lemma fact_witness :
  let st := store_of heap [numCell 4; codeCell "fact"] (Some ∅) 1 in
  (holds st (stack st) ([] ++ numCell 4 :: codeCell "fact" :: [])
   ∧ float_of st (numCell 4) = Some (ofZ 4))
  ∧ ∃ st' res,
      step (R:=sample_runtime) st = (Ok tt, st')
      ∧ holds st' (stack st') ([] ++ res :: [])
      ∧ Typ res = TNumber
      ∧ float_of st' res = Some (SetInt (MulRange1 (Int64 (ofZ 4))))
      ∧ (∀ n, Int64 (ofZ 4) = Z.of_nat n → Z.of_nat (fact n) <= 2 ^ 53 →
           int_value (SetInt (MulRange1 (Int64 (ofZ 4)))) = Some (Z.of_nat (fact n)))
      ∧ (Int64 (ofZ 4) <= 0 → MulRange1 (Int64 (ofZ 4)) = 1)
      ∧ cursor st' = 1
      ∧ vars st' = Some ∅.
Proof.
  intros st.
  assert (H : holds st (stack st) ([] ++ numCell 4 :: codeCell "fact" :: []))
    by (repeat split; cbn; lia).
  split; [split; [exact H|reflexivity]|].
  apply (fact_is_the_factorial (R:=sample_runtime) st [] (numCell 4) (codeCell "fact") []
           (ofZ 4));
    [exact H|reflexivity|reflexivity|reflexivity|kw_now|reflexivity].
Defined.

Lemma pick_witness :
  let st := store_of heap [numCell 3; numCell 4; numCell 0; codeCell "pick"; numCell 2]
                     (Some ∅) 3 in
  (holds st (stack st)
     ([numCell 3; numCell 4] ++ numCell 0 :: codeCell "pick" :: [numCell 2])
   ∧ float_of st (numCell 0) = Some (FZero false) ∧ Int64 (FZero false) = 0
   ∧ ([numCell 3; numCell 4] ++ [numCell 0]) !! 0%nat = Some (numCell 3))
  ∧ ∃ st',
      step (R:=sample_runtime) st = (Ok tt, st')
      ∧ holds st' (stack st') ([numCell 3; numCell 4] ++ numCell 3 :: [numCell 2])
      ∧ cursor st' = 3
      ∧ vars st' = Some ∅.
Proof.
  intros st.
  assert (H : holds st (stack st)
                ([numCell 3; numCell 4] ++ numCell 0 :: codeCell "pick" :: [numCell 2]))
    by (repeat split; cbn; lia).
  split; [split; [exact H|split; [reflexivity|split; reflexivity]]|].
  apply (pick_counts_from_the_bottom (R:=sample_runtime) st [numCell 3; numCell 4]
           (numCell 0) (codeCell "pick") [numCell 2] (FZero false) 0%nat (numCell 3));
    [exact H|reflexivity|reflexivity|reflexivity|kw_now|reflexivity|reflexivity|reflexivity].
Defined.

Lemma hnl_nhl_witness :
  let st := store_of heap [numCell 3; codeCell "hnl"; codeCell "nhl"; numCell 1]
                     (Some ∅) 1 in
  (holds st (stack st)
     ([] ++ numCell 3 :: codeCell "hnl" :: codeCell "nhl" :: [numCell 1])
   ∧ float_of st (numCell 3) = Some (ofZ 3))
  ∧ ∃ st1 st2 res,
      step (R:=sample_runtime) st = (Ok tt, st1) ∧ step (R:=sample_runtime) st1 = (Ok tt, st2)
      ∧ holds st2 (stack st2) ([] ++ res :: [numCell 1])
      ∧ Typ res = TNumber ∧ F res = Some 3%nat ∧ float_of st2 res = Some (ofZ 3)
      ∧ B res = be_bytes 8 (Int64 (ofZ 3))
      ∧ cursor st2 = 1.
Proof.
  intros st.
  assert (H : holds st (stack st)
                ([] ++ numCell 3 :: codeCell "hnl" :: codeCell "nhl" :: [numCell 1]))
    by (repeat split; cbn; lia).
  split; [split; [exact H|reflexivity]|].
  apply (hnl_nhl_keeps_the_float (R:=sample_runtime) st [] (numCell 3) (codeCell "hnl")
           (codeCell "nhl") [numCell 1] (ofZ 3));
    [exact H|reflexivity|reflexivity|reflexivity|kw_now|reflexivity|reflexivity|kw_now
    |reflexivity].
Defined.

Lemma macro_witness :
  let st := store_of heap [numCell 1; codeCell "macro"; varCell "kib"; numCell 4;
                           codeCell "*"] (Some ∅) 1 in
  holds st (stack st)
    ([numCell 1] ++ codeCell "macro" :: varCell "kib" :: [numCell 4; codeCell "*"])
  ∧ ∃ st' v,
      step (R:=sample_runtime) st = (Ok tt, st')
      ∧ holds st' (stack st') [numCell 1]
      ∧ vars st' = Some (<["kib" := v]> ∅)
      ∧ keyWords st' = <["kib" := "x"]> keyWords0
      ∧ Typ v = TCode ∧ V v = "kib"
      ∧ elems st' (Code v) = [numCell 4; codeCell "*"]
      ∧ arr (Code v) = arr (stack st')
      ∧ off (Code v) = (off (stack st') + 1 + 2)%nat
      ∧ (1 + 2 + 2 ≤ cap (stack st'))%nat
      ∧ cursor st' = 2.
Proof.
  intros st.
  assert (H : holds st (stack st)
                ([numCell 1] ++ codeCell "macro" :: varCell "kib"
                   :: [numCell 4; codeCell "*"]))
    by (repeat split; cbn; lia).
  split; [exact H|].
  apply (macro_binds_a_slice_of_the_stack (R:=sample_runtime) st [numCell 1]
           (codeCell "macro") (varCell "kib") [numCell 4; codeCell "*"] ∅);
    [exact H|reflexivity|reflexivity|reflexivity|kw_now|reflexivity|reflexivity].
Defined.

Lemma rolld_witness :
  let st := store_of heap [numCell 1; numCell 2; numCell 3; numCell 1; codeCell "rolld"]
                     (Some ∅) 0 in
  let stk := Slice 0 0 5 5 in
  holds st stk ([numCell 1; numCell 2; numCell 3; numCell 1] ++ codeCell "rolld" :: [])
  ∧ ((∃ st', Eval (R:=sample_runtime) 1 stk (Some ∅) 4 st = (Ok (nil_slice, None, 0), st'))
     ∨ (∃ msg st', Eval (R:=sample_runtime) 1 stk (Some ∅) 4 st = (Panic msg, st'))).
Proof.
  intros st stk.
  assert (H : holds st stk
                ([numCell 1; numCell 2; numCell 3; numCell 1] ++ codeCell "rolld" :: []))
    by (repeat split; cbn; lia).
  split; [exact H|].
  apply (rolld_always_faults (R:=sample_runtime) 0 st stk (Some ∅)
           [numCell 1; numCell 2; numCell 3; numCell 1] (codeCell "rolld") []);
    [exact H|reflexivity|reflexivity|kw_now].
Defined.

